(** * react-doc-viewer: the rendering-orchestration layer, embedded in Rocq

    The development follows the TypeScript sources:
      - [FormatRouter]      src/FormatRouter.ts          (format resolver)
      - [ConversionWorker]  src/utils/conversionWorker.ts (HTTP conversion strategy)
      - [DocumentViewer]    src/DocumentViewer.tsx       (conversion effect of the shell)
      - [PdfRenderer]       src/renderers/PdfRenderer.tsx (zoom, search, match
                            navigation by the toolbar and by the host,
                            highlighting, link interception)
      - [RendererRegistry]  src/RendererRegistry.ts, src/renderers/index.ts
      - [DocumentViewerRender], [DocumentViewerEffects]
                            src/DocumentViewer.tsx, src/utils/normalizeSrc.ts
                            (what the shell renders; its effects and object URLs)
      - [PdfControls]       src/renderers/PdfRenderer.tsx, src/renderers/PdfToolbar.tsx
                            (inline styles, page tracking, page navigation, page
                            box, delivery of the API to the host)
      - [PdfOcrRenderer]    src/renderers/PdfOcrRenderer.tsx (recognition run, overlay)

    JavaScript strings are modelled by [string]; numbers used as indices and
    counters by [Z] and [nat]; zoom multipliers by exact rationals [Q];
    object literals used as lookup tables by [gmap string _] together with the
    members every object literal inherits from [Object.prototype]. *)

From Stdlib Require Import ZArith QArith Qminmax Lqa Lia List Sorted String Ascii DecimalString
  DecimalNat.
From stdpp Require Import base strings gmap list.

Open Scope string_scope.
Open Scope nat_scope.

(** ** Platform string primitives *)

Module Js.

(** [s.startsWith(p)]. *)
Fixpoint starts_with (p s : string) : bool :=
  match p, s with
  | EmptyString, _ => true
  | String a p', String b s' => if Ascii.eqb a b then starts_with p' s' else false
  | String _ _, EmptyString => false
  end.

(** First position [k] of [s] at which [needle] occurs, counted from [pos]. *)
Fixpoint find_from (needle s : string) (pos : nat) : option nat :=
  if starts_with needle s then Some pos
  else match s with
       | EmptyString => None
       | String _ s' => find_from needle s' (S pos)
       end.

(** [s.slice(i)]; an index past the end gives the empty string. *)
Fixpoint drop (i : nat) (s : string) : string :=
  match i, s with
  | O, _ => s
  | S i', String _ s' => drop i' s'
  | S _, EmptyString => EmptyString
  end.

(** [s.slice(0, n)]. *)
Fixpoint take (n : nat) (s : string) : string :=
  match n, s with
  | O, _ => EmptyString
  | S n', String c s' => String c (take n' s')
  | S _, EmptyString => EmptyString
  end.

(** [s.slice(i, j)] for non-negative indices: empty when [j <= i], both
    ends clamped to the length of [s]. *)
Definition slice (i j : nat) (s : string) : string := take (j - i) (drop i s).

(** [s.indexOf(needle, from)]: [None] stands for the result [-1].  The
    start index is clamped to the length of [s]. *)
Definition indexOf (needle s : string) (from : nat) : option nat :=
  let from' := Nat.min from (String.length s) in
  find_from needle (drop from' s) from'.

(** [s.includes(needle)]. *)
Definition includes (needle s : string) : bool :=
  match indexOf needle s 0 with Some _ => true | None => false end.

Fixpoint has_char (c : ascii) (s : string) : bool :=
  match s with
  | EmptyString => false
  | String a s' => if Ascii.eqb a c then true else has_char c s'
  end.

(** [s.split(sep).pop()] for a one-character separator: the part of [s]
    after the last separator, the whole of [s] when there is none.  The
    array [split] returns is never empty, so [pop] always yields a string. *)
Fixpoint split_pop (sep : ascii) (s : string) : string :=
  match s with
  | EmptyString => EmptyString
  | String _ s' => if has_char sep s then split_pop sep s' else s
  end.

(** [items.join(sep)]. *)
Fixpoint join (sep : string) (items : list string) : string :=
  match items with
  | [] => EmptyString
  | [x] => x
  | x :: rest => x +:+ sep +:+ join sep rest
  end.

(** A string is truthy when it is not empty. *)
Definition truthy (s : string) : bool :=
  match s with EmptyString => false | String _ _ => true end.

(** [String(n)] for a non-negative integer. *)
Definition string_of_nat (n : nat) : string :=
  NilEmpty.string_of_uint (Nat.to_uint n).

(** The functions of the host platform the sources call and whose
    definition lies outside the repository.  Theorems are stated for every
    platform; [reference_platform] below is used to run examples. *)
Class Platform := {
  (** [s.toLowerCase()]; Unicode case mapping may change the length. *)
  toLowerCase : string -> string;
  (** [s.trim()]. *)
  trim : string -> string;
  (** [new URL(s, "https://example.com").pathname]; [None] when the
      constructor throws. *)
  url_pathname : string -> option string;
  (** [new URL(href, base).protocol]; [None] when the constructor throws. *)
  url_protocol : string -> string -> option string;
  (** Case mapping never erases a non-empty string. *)
  toLowerCase_truthy : forall s, truthy s = true -> truthy (toLowerCase s) = true;
  (** Trimming returns a part of its argument. *)
  trim_substring : forall s, exists before after, s = before +:+ trim s +:+ after
}.

End Js.

Import Js.

(** ** A reference platform for running examples

    ASCII case mapping and white space, and a reading of the URL parser that
    covers [http(s)] URLs and relative references without dot segments or
    characters that need percent-encoding. *)

Module ReferencePlatform.

Fixpoint map_string (f : ascii -> ascii) (s : string) : string :=
  match s with
  | EmptyString => EmptyString
  | String c s' => String (f c) (map_string f s')
  end.

Definition is_upper (c : ascii) : bool :=
  let n := nat_of_ascii c in (65 <=? n) && (n <=? 90).

Definition is_lower (c : ascii) : bool :=
  let n := nat_of_ascii c in (97 <=? n) && (n <=? 122).

Definition is_digit (c : ascii) : bool :=
  let n := nat_of_ascii c in (48 <=? n) && (n <=? 57).

Definition lower_char (c : ascii) : ascii :=
  if is_upper c then ascii_of_nat (nat_of_ascii c + 32) else c.

Definition ascii_lower (s : string) : string := map_string lower_char s.

Definition is_space (c : ascii) : bool :=
  let n := nat_of_ascii c in
  ((9 <=? n) && (n <=? 13)) || (n =? 32) || (n =? 160).

Fixpoint trim_left (s : string) : string :=
  match s with
  | EmptyString => EmptyString
  | String c s' => if is_space c then trim_left s' else s
  end.

Fixpoint trim_right (s : string) : string :=
  match s with
  | EmptyString => EmptyString
  | String c s' =>
      let t := trim_right s' in
      if is_space c && negb (truthy t) then EmptyString else String c t
  end.

Definition ascii_trim (s : string) : string := trim_right (trim_left s).

(** The part of [s] before the first occurrence of [c]. *)
Fixpoint cut_at (c : ascii) (s : string) : string :=
  match s with
  | EmptyString => EmptyString
  | String a s' => if Ascii.eqb a c then EmptyString else String a (cut_at c s')
  end.

(** The part of [s] from the first occurrence of [c] on. *)
Fixpoint from_char (c : ascii) (s : string) : string :=
  match s with
  | EmptyString => EmptyString
  | String a s' => if Ascii.eqb a c then s else from_char c s'
  end.

Definition path_after_authority (s : string) : string :=
  match from_char "/" s with
  | EmptyString => "/"
  | p => p
  end.

Definition pathname (s : string) : option string :=
  let s := cut_at "?" (cut_at "#" s) in
  Some (if starts_with "https://" s then path_after_authority (drop 8 s)
        else if starts_with "http://" s then path_after_authority (drop 7 s)
        else if starts_with "/" s then s
        else "/" +:+ s).

Definition scheme_char (c : ascii) : bool :=
  is_upper c || is_lower c || is_digit c
  || Ascii.eqb c "+" || Ascii.eqb c "-" || Ascii.eqb c ".".

Fixpoint scheme_rest (s : string) : option string :=
  match s with
  | EmptyString => None
  | String c s' =>
      if Ascii.eqb c ":" then Some ":"
      else if scheme_char c then
        match scheme_rest s' with
        | Some r => Some (String (lower_char c) r)
        | None => None
        end
      else None
  end.

(** The scheme of an absolute reference, lower-cased and followed by [":"]. *)
Definition scheme_of (s : string) : option string :=
  match s with
  | String c _ => if is_upper c || is_lower c then scheme_rest s else None
  | EmptyString => None
  end.

(** A reference that carries its own scheme keeps it; any other reference
    is relative and takes the scheme of the base. *)
Definition protocol (href base : string) : option string :=
  match scheme_of href with
  | Some p => Some p
  | None => scheme_of base
  end.

Lemma ascii_lower_truthy s : truthy s = true -> truthy (ascii_lower s) = true.
Proof. destruct s; [discriminate | reflexivity]. Qed.

Lemma trim_left_suffix s : exists before, s = before +:+ trim_left s.
Proof.
  induction s as [|c s [before IH]]; [now exists EmptyString|].
  cbn [trim_left]. destruct (is_space c); [|now exists EmptyString].
  exists (String c before). change (String c s = String c (before +:+ trim_left s)).
  now f_equal.
Qed.

Lemma trim_right_prefix s : exists after, s = trim_right s +:+ after.
Proof.
  induction s as [|c s [after IH]]; [now exists EmptyString|].
  cbn [trim_right]. destruct (is_space c && negb (truthy (trim_right s))).
  - now exists (String c s).
  - exists after. change (String c s = String c (trim_right s +:+ after)).
    now f_equal.
Qed.

Lemma ascii_trim_substring s : exists before after, s = before +:+ ascii_trim s +:+ after.
Proof.
  destruct (trim_left_suffix s) as [before Hl].
  destruct (trim_right_prefix (trim_left s)) as [after Hr].
  exists before, after. unfold ascii_trim. now rewrite <- Hr.
Qed.

#[export] Instance reference_platform : Platform := {|
  toLowerCase := ascii_lower;
  trim := ascii_trim;
  url_pathname := pathname;
  url_protocol := protocol;
  toLowerCase_truthy := ascii_lower_truthy;
  trim_substring := ascii_trim_substring
|}.

End ReferencePlatform.

(** ** Format resolver (src/FormatRouter.ts) *)

Module FormatRouter.

Inductive RendererKey := pdf | pdf_ocr | docx | office_pdf | unsupported.

#[export] Instance RendererKey_eq_dec : EqDecision RendererKey.
Proof. solve_decision. Defined.

(** A document source is a URL string or a [Blob]/[File] with its declared
    [type] (possibly empty). *)
Inductive DocumentSource :=
| SrcUrl (url : string)
| SrcBlob (type : string).

(** What an expression of static type [A] can hold at run time once it has
    been read out of a lookup table: a value of [A], or a member the table
    inherits from [Object.prototype] (a function or an object, always
    truthy), identified by its property name. *)
Inductive js (A : Type) :=
| Val (a : A)
| Proto (name : string).
Arguments Val {A} a.
Arguments Proto {A} name.

(** The property names of [Object.prototype]. *)
Definition object_prototype_names : list string :=
  [ "constructor"; "__defineGetter__"; "__defineSetter__"; "hasOwnProperty";
    "__lookupGetter__"; "__lookupSetter__"; "isPrototypeOf";
    "propertyIsEnumerable"; "toString"; "valueOf"; "__proto__";
    "toLocaleString" ].

(** [table[key]] on an object literal: own properties first, then the
    prototype chain; [None] is [undefined]. *)
Definition object_get {A} (table : gmap string A) (key : string) : option (js A) :=
  match table !! key with
  | Some a => Some (Val a)
  | None =>
      if bool_decide (key ∈ object_prototype_names) then Some (Proto key) else None
  end.

Definition MIME_TO_RENDERER : gmap string RendererKey :=
  list_to_map
    [ ("application/pdf", pdf);
      ("application/vnd.openxmlformats-officedocument.wordprocessingml.document", docx);
      ("application/vnd.openxmlformats-officedocument.presentationml.presentation", office_pdf);
      ("application/vnd.ms-powerpoint", office_pdf);
      ("application/msword", office_pdf) ].

Definition EXT_TO_RENDERER : gmap string RendererKey :=
  list_to_map
    [ ("pdf", pdf); ("docx", docx); ("doc", office_pdf);
      ("pptx", office_pdf); ("ppt", office_pdf) ].

Definition EXT_TO_MIME : gmap string string :=
  list_to_map
    [ ("pdf", "application/pdf");
      ("docx", "application/vnd.openxmlformats-officedocument.wordprocessingml.document");
      ("doc", "application/msword");
      ("pptx", "application/vnd.openxmlformats-officedocument.presentationml.presentation");
      ("ppt", "application/vnd.ms-powerpoint") ].

(** Truthiness of a mime type read from a table or given by the caller. *)
Definition truthy_mime (v : option (js string)) : bool :=
  match v with
  | Some (Val s) => truthy s
  | Some (Proto _) => true
  | None => false
  end.

(** [MIME_TO_RENDERER[m]] where [m] is whatever [resolvedMime] holds.  A
    prototype member used as a property key is first converted to a string
    (the source text of a function, or ["[object Object]"]), which names no
    property of the table or of its prototype. *)
Definition renderer_of_mime (m : js string) : option (js RendererKey) :=
  match m with
  | Val s => object_get MIME_TO_RENDERER s
  | Proto _ => None
  end.

Record RendererSelection := {
  rendererKey : js RendererKey;
  mimeType : option (js string)
}.

(** [if (key === "pdf" && enableOCR) key = "pdf-ocr"]. *)
Definition ocr_variant (key : js RendererKey) (enableOCR : bool) : js RendererKey :=
  match key with
  | Val pdf => if enableOCR then Val pdf_ocr else key
  | _ => key
  end.

Section WithPlatform.
Context `{Platform}.

(** [s.split(".").pop()?.toLowerCase()]. *)
Definition extension (s : string) : string := toLowerCase (split_pop "." s).

(** The extension the two branches of [try]/[catch] look at: that of the
    parsed pathname, or of the raw string when [new URL] throws. *)
Definition source_extension (src : string) : string :=
  match url_pathname src with
  | Some pathname => extension pathname
  | None => extension src
  end.

Definition inferMimeType (src : DocumentSource) : option (js string) :=
  match src with
  | SrcUrl s =>
      let ext := source_extension s in
      if truthy ext && truthy_mime (object_get EXT_TO_MIME ext)
      then object_get EXT_TO_MIME ext
      else None
  | SrcBlob type => if truthy type then Some (Val type) else None
  end.

Definition getRendererKey (src : DocumentSource) (mimeType : option string)
    (enableOCR : bool) : RendererSelection :=
  let resolvedMime :=
    match mimeType with
    | Some m => Some (Val m)
    | None => inferMimeType src
    end in
  let fallback :=
    match src with
    | SrcUrl s =>
        let ext := source_extension s in
        match (if truthy ext then object_get EXT_TO_RENDERER ext else None) with
        | Some key =>
            {| rendererKey := ocr_variant key enableOCR;
               mimeType := match object_get EXT_TO_MIME ext with
                           | Some m => Some m
                           | None => resolvedMime
                           end |}
        | None => {| rendererKey := Val unsupported; mimeType := resolvedMime |}
        end
    | SrcBlob type =>
        match (if truthy type then object_get MIME_TO_RENDERER type else None) with
        | Some key =>
            {| rendererKey := ocr_variant key enableOCR;
               mimeType := Some (Val type) |}
        | None => {| rendererKey := Val unsupported; mimeType := resolvedMime |}
        end
    end in
  match resolvedMime with
  | Some m =>
      match (if truthy_mime (Some m) then renderer_of_mime m else None) with
      | Some key =>
          {| rendererKey := ocr_variant key enableOCR; mimeType := Some m |}
      | None => fallback
      end
  | None => fallback
  end.

End WithPlatform.

End FormatRouter.

(** ** Conversion worker client (src/utils/conversionWorker.ts) *)

Module ConversionWorker.

(** What [res.json()] yields: a parse failure (a [SyntaxError] with the
    platform's message), or a value whose [url] member is a string or not. *)
Inductive JsonBody :=
| JsonSyntaxError (message : string)
| JsonValue (url : option string).

(** The parts of a [fetch] response the client reads. *)
Record Response := {
  status : nat;
  statusText : string;
  text : string;                  (* res.text() *)
  contentType : option string;    (* res.headers.get("Content-Type") *)
  blob_size : nat;                (* (await res.blob()).size *)
  json : JsonBody                 (* res.json() *)
}.

(** [res.ok]: the status is in the range 200-299. *)
Definition ok (res : Response) : bool :=
  (200 <=? status res) && (status res <=? 299).

(** [{ pdfUrl, revoke? }]; [revoke] is described by the object URL it
    releases. *)
Record ConversionResult := {
  pdfUrl : string;
  revoke : option string
}.

(** A promise settles with a value or with a thrown [Error]. *)
Inductive Settled (A : Type) :=
| Fulfilled (a : A)
| Rejected (message : string).
Arguments Fulfilled {A} a.
Arguments Rejected {A} message.

(** [convertViaWorker] from the point where [fetch] has produced a
    response; [objectUrl] is what [URL.createObjectURL] returns. *)
Definition convertViaWorker (res : Response) (objectUrl : string)
    : Settled ConversionResult :=
  if negb (ok res) then
    Rejected ("Conversion failed: " +:+ string_of_nat (status res) +:+ " "
              +:+ (if truthy (text res) then text res else statusText res)
              +:+ ". Check conversion worker URL and CORS.")
  else
    let contentType := default "" (contentType res) in
    if includes "application/pdf" contentType then
      if blob_size res =? 0 then
        Rejected "Conversion failed: worker returned empty PDF."
      else
        Fulfilled {| pdfUrl := objectUrl; revoke := Some objectUrl |}
    else if includes "application/json" contentType then
      match json res with
      | JsonSyntaxError message => Rejected message
      | JsonValue (Some url) => Fulfilled {| pdfUrl := url; revoke := None |}
      | JsonValue None => Rejected "Conversion response missing url"
      end
    else
      Rejected ("Unexpected response type: " +:+ contentType).

End ConversionWorker.

(** ** Viewer shell: the conversion effect (src/DocumentViewer.tsx) *)

Module DocumentViewer.
Import FormatRouter ConversionWorker.

(** The properties of the component the conversion effect depends on. *)
Record Props := {
  src : DocumentSource;
  mimeType : option string;
  enableOCR : bool;
  conversionWorkerUrl : option string;  (* options.conversionWorkerUrl *)
  onRequestPdfConversion : bool;        (* is the callback supplied? *)
  onConversionError : bool              (* is the callback supplied? *)
}.

(** State of the shell the effect writes, with the calls it makes to the
    host recorded in two logs. *)
Record Shell := {
  convertedPdfUrl : option string;
  conversionError : option string;
  convertedPdfUrlRevokeRef : option string;
  revoked : list string;                (* URL.revokeObjectURL calls *)
  reportedErrors : list string          (* onConversionError calls, by message *)
}.

Definition initial : Shell :=
  {| convertedPdfUrl := None; conversionError := None;
     convertedPdfUrlRevokeRef := None; revoked := []; reportedErrors := [] |}.

Definition isBlobOrFile (src : DocumentSource) : bool :=
  match src with SrcUrl _ => false | SrcBlob _ => true end.

Section WithPlatform.
Context `{Platform}.

(** [options?.conversionWorkerUrl?.trim() || undefined]. *)
Definition workerUrl (p : Props) : option string :=
  match conversionWorkerUrl p with
  | Some u => if truthy (trim u) then Some (trim u) else None
  | None => None
  end.

Definition shouldConvertOffice (p : Props) : bool :=
  match rendererKey (getRendererKey (src p) (mimeType p) (enableOCR p)) with
  | Val office_pdf =>
      (onRequestPdfConversion p || bool_decide (is_Some (workerUrl p)))
      && isBlobOrFile (src p)
  | _ => false
  end.

(** Does the effect start a conversion at all?
    [if (!shouldConvertOffice || !resolvedMime) return]. *)
Definition conversionStarts (p : Props) : bool :=
  shouldConvertOffice p
  && truthy_mime (FormatRouter.mimeType
                    (getRendererKey (src p) (mimeType p) (enableOCR p))).

End WithPlatform.

(** The continuation of [convertViaWorker(...).then(...)] together with the
    [catch] handler of the effect: what happens when the worker promise of
    a run settles; [cancelled] is the flag of that run. *)
Definition workerSettled (p : Props) (cancelled : bool)
    (outcome : Settled ConversionResult) (s : Shell) : Shell :=
  match outcome with
  | Fulfilled r =>
      if negb cancelled then
        {| convertedPdfUrl := Some (pdfUrl r);
           conversionError := conversionError s;
           convertedPdfUrlRevokeRef :=
             match revoke r with
             | Some u => Some u
             | None => convertedPdfUrlRevokeRef s
             end;
           revoked := revoked s;
           reportedErrors := reportedErrors s |}
      else
        match revoke r with
        | Some u =>
            {| convertedPdfUrl := convertedPdfUrl s;
               conversionError := conversionError s;
               convertedPdfUrlRevokeRef := convertedPdfUrlRevokeRef s;
               revoked := revoked s ++ [u];
               reportedErrors := reportedErrors s |}
        | None => s
        end
  | Rejected message =>
      if negb cancelled then
        {| convertedPdfUrl := convertedPdfUrl s;
           conversionError := Some message;
           convertedPdfUrlRevokeRef := convertedPdfUrlRevokeRef s;
           revoked := revoked s;
           reportedErrors :=
             if onConversionError p then reportedErrors s ++ [message]
             else reportedErrors s |}
      else s
  end.

(** A worker response arriving for a run of the effect. *)
Definition workerResponded (p : Props) (cancelled : bool) (res : Response)
    (objectUrl : string) (s : Shell) : Shell :=
  workerSettled p cancelled (convertViaWorker res objectUrl) s.

End DocumentViewer.

(** ** PDF interaction controller (src/renderers/PdfRenderer.tsx) *)

Module PdfRenderer.

(** *** Escaping *)

Definition dquote : ascii := ascii_of_nat 34.

(** [s.replace(/c/g, rep)] for a pattern that is a single character. *)
Fixpoint replace_all (c : ascii) (rep : string) (s : string) : string :=
  match s with
  | EmptyString => EmptyString
  | String a s' =>
      if Ascii.eqb a c then rep +:+ replace_all c rep s'
      else String a (replace_all c rep s')
  end.

Definition escapeHtml (text : string) : string :=
  replace_all "'" "&#039;"
    (replace_all dquote "&quot;"
      (replace_all ">" "&gt;"
        (replace_all "<" "&lt;"
          (replace_all "&" "&amp;" text)))).

(** *** External links *)

Definition EXTERNAL_LINK_PROTOCOLS : list string := ["http:"; "https:"; "mailto:"].

Inductive ClickOutcome :=
| DefaultNavigation                      (* the listener returns without acting *)
| OpenedInNewContext (href : string).    (* preventDefault, stopPropagation, window.open *)

Section Links.
Context `{Platform}.

(** [location] is [window.location.href]. *)
Definition isExternalLinkHref (location href : string) : bool :=
  if negb (truthy href) then false
  else match url_protocol href location with
       | Some protocol => bool_decide (protocol ∈ EXTERNAL_LINK_PROTOCOLS)
       | None => false
       end.

(** The click listener of the viewer root.  [anchor] is the result of
    [target.closest("a")]: [None] when the click is not inside an anchor,
    otherwise the anchor's [href] attribute ([None] when it has none). *)
Definition onClick (location : string) (anchor : option (option string))
    : ClickOutcome :=
  match anchor with
  | None => DefaultNavigation
  | Some attribute =>
      let href := match attribute with
                  | Some a => if truthy a then a else ""
                  | None => ""
                  end in
      if isExternalLinkHref location href then OpenedInNewContext href
      else DefaultNavigation
  end.
End Links.

(** *** Zoom *)

Inductive ZoomMode := custom | pageFit.

Definition ZOOM_STEPS : list Q := [0.5; 0.75; 1; 1.25; 1.5; 2; 3]%Q.

Definition A4_WIDTH_PX : Q := 794.

(** [a < b] on numbers. *)
Definition Qltb (a b : Q) : bool := negb (Qle_bool b a).

Definition handleZoomIn (z : Q) : Q :=
  match find (fun p => Qltb (z + 0.01) p) ZOOM_STEPS with
  | Some next => next
  | None => Qmin (z + 0.25) 5
  end.

Definition handleZoomOut (z : Q) : Q :=
  match find (fun p => Qltb p (z - 0.01)) (rev ZOOM_STEPS) with
  | Some next => next
  | None => Qmax (z - 0.25) 0.25
  end.

Record ZoomState := {
  zoom : Q;
  zoomMode : ZoomMode;
  containerWidth : Q
}.

Definition effectiveZoom (s : ZoomState) : Q :=
  match zoomMode s with
  | pageFit =>
      if Qltb 0 (containerWidth s)
      then Qmin ((containerWidth s - 48) / A4_WIDTH_PX) 2
      else zoom s
  | custom => zoom s
  end.

Inductive ZoomEvent :=
| ZoomIn
| ZoomOut
| SelectZoom (value : Q)      (* handleZoomChange with a numeric value *)
| SelectPageFit               (* handleZoomChange("pageFit") *)
| Resized (width : Q).        (* ResizeObserver callback *)

(** The resize observer is connected only while the mode is [pageFit]. *)
Definition zoom_step (s : ZoomState) (e : ZoomEvent) : ZoomState :=
  match e with
  | ZoomIn =>
      {| zoom := handleZoomIn (zoom s); zoomMode := custom;
         containerWidth := containerWidth s |}
  | ZoomOut =>
      {| zoom := handleZoomOut (zoom s); zoomMode := custom;
         containerWidth := containerWidth s |}
  | SelectZoom value =>
      {| zoom := value; zoomMode := custom; containerWidth := containerWidth s |}
  | SelectPageFit =>
      {| zoom := zoom s; zoomMode := pageFit; containerWidth := containerWidth s |}
  | Resized width =>
      match zoomMode s with
      | pageFit => {| zoom := zoom s; zoomMode := pageFit; containerWidth := width |}
      | custom => s
      end
  end.

(** State after mount; [initialZoom] is [options?.zoom ?? 1]. *)
Definition zoom_initial (initialZoom : Q) : ZoomState :=
  {| zoom := initialZoom; zoomMode := pageFit; containerWidth := 0 |}.

(** What the environment may deliver: widths are non-negative, selected
    zoom values are positive. *)
Definition zoom_event_ok (e : ZoomEvent) : Prop :=
  match e with
  | Resized width => (0 <= width)%Q
  | SelectZoom value => (0 < value)%Q
  | _ => True
  end.

Definition zoom_run (initialZoom : Q) (events : list ZoomEvent) : ZoomState :=
  fold_left zoom_step events (zoom_initial initialZoom).

(** *** Search *)

Inductive RunStatus :=
| Running     (* suspended at an [await] of the page loop *)
| Finished    (* the loop ended and the final [if (!cancelled)] was executed *)
| Failed.     (* an awaited promise rejected: the async function is over *)

(** One activation of the asynchronous search: the variables of the
    effect's closure. *)
Record SearchRun := {
  run_query : string;       (* [query], trimmed and lower-cased *)
  run_numPages : nat;       (* [numPages] as captured by the closure *)
  run_pageNum : nat;        (* loop variable: the page being awaited *)
  run_matches : list nat;   (* [matches], in push order *)
  run_cancelled : bool;     (* [cancelled] *)
  run_status : RunStatus
}.

Record Viewer := {
  pdfLoaded : bool;             (* [pdfDocRef.current] is set *)
  numPages : option nat;
  currentPage : nat;
  searchQuery : string;
  searchMatches : list nat;
  searchIndex : Z;
  runs : list SearchRun;        (* every search run, in starting order *)
  activeRun : option nat;       (* the run the pending effect cleanup cancels *)
  scrolls : list nat            (* [scrollIntoView] calls, by page *)
}.

Definition initial : Viewer :=
  {| pdfLoaded := false; numPages := None; currentPage := 1;
     searchQuery := ""; searchMatches := []; searchIndex := 0%Z;
     runs := []; activeRun := None; scrolls := [] |}.

Definition set_search (matches : list nat) (index : Z) (s : Viewer) : Viewer :=
  {| pdfLoaded := pdfLoaded s; numPages := numPages s;
     currentPage := currentPage s; searchQuery := searchQuery s;
     searchMatches := matches; searchIndex := index;
     runs := runs s; activeRun := activeRun s; scrolls := scrolls s |}.

Definition set_index (index : Z) (s : Viewer) : Viewer :=
  set_search (searchMatches s) index s.

Definition set_runs (rs : list SearchRun) (active : option nat) (s : Viewer) : Viewer :=
  {| pdfLoaded := pdfLoaded s; numPages := numPages s;
     currentPage := currentPage s; searchQuery := searchQuery s;
     searchMatches := searchMatches s; searchIndex := searchIndex s;
     runs := rs; activeRun := active; scrolls := scrolls s |}.

Definition set_query (q : string) (s : Viewer) : Viewer :=
  {| pdfLoaded := pdfLoaded s; numPages := numPages s;
     currentPage := currentPage s; searchQuery := q;
     searchMatches := searchMatches s; searchIndex := searchIndex s;
     runs := runs s; activeRun := activeRun s; scrolls := scrolls s |}.

Definition set_document (n : nat) (s : Viewer) : Viewer :=
  {| pdfLoaded := true; numPages := Some n;
     currentPage := currentPage s; searchQuery := searchQuery s;
     searchMatches := searchMatches s; searchIndex := searchIndex s;
     runs := runs s; activeRun := activeRun s; scrolls := scrolls s |}.

(** [pageRefs.current.get(page)] is defined: the wrappers of pages
    [1..numPages] are mounted once the page count is known. *)
Definition pageMounted (s : Viewer) (page : nat) : bool :=
  match numPages s with
  | Some n => (1 <=? page) && (page <=? n)
  | None => false
  end.

Definition scrollToPage (page : nat) (s : Viewer) : Viewer :=
  if pageMounted s page then
    {| pdfLoaded := pdfLoaded s; numPages := numPages s;
       currentPage := page; searchQuery := searchQuery s;
       searchMatches := searchMatches s; searchIndex := searchIndex s;
       runs := runs s; activeRun := activeRun s;
       scrolls := scrolls s ++ [page] |}
  else s.

(** [matches[i]] for a number [i]; [None] is [undefined]. *)
Definition at_index (matches : list nat) (i : Z) : option nat :=
  if (i <? 0)%Z then None else matches !! Z.to_nat i.

(** [scrollToPage(matches[i])]: [pageRefs] has no entry for [undefined]. *)
Definition scrollToMatch (matches : list nat) (i : Z) (s : Viewer) : Viewer :=
  match at_index matches i with
  | Some page => scrollToPage page s
  | None => s
  end.

Definition matchCount (s : Viewer) : Z := Z.of_nat (length (searchMatches s)).

Definition nextMatch (s : Viewer) : Viewer :=
  if (matchCount s =? 0)%Z then s
  else
    let next := Z.rem (searchIndex s + 1) (matchCount s) in
    scrollToMatch (searchMatches s) next (set_index next s).

Definition prevMatch (s : Viewer) : Viewer :=
  if (matchCount s =? 0)%Z then s
  else
    let prev := Z.rem (searchIndex s - 1 + matchCount s) (matchCount s) in
    scrollToMatch (searchMatches s) prev (set_index prev s).

(** The object [viewerApi] of one render, which [onViewerReady] hands to
    the host.  [scrollToPage] and
    [setSearchQuery] are the same functions in every render; [nextMatch]
    and [prevMatch] are closures over the matches and the index of the
    render that made them. *)
Record ViewerApi := {
  api_searchMatches : list nat;
  api_searchIndex : Z
}.

Definition viewerApi (s : Viewer) : ViewerApi :=
  {| api_searchMatches := searchMatches s; api_searchIndex := searchIndex s |}.

(** [api.nextMatch()] called when the viewer is in state [s]. *)
Definition apiNextMatch (api : ViewerApi) (s : Viewer) : Viewer :=
  let count := Z.of_nat (length (api_searchMatches api)) in
  if (count =? 0)%Z then s
  else
    let next := Z.rem (api_searchIndex api + 1) count in
    scrollToMatch (api_searchMatches api) next (set_index next s).

(** [api.prevMatch()] called when the viewer is in state [s]. *)
Definition apiPrevMatch (api : ViewerApi) (s : Viewer) : Viewer :=
  let count := Z.of_nat (length (api_searchMatches api)) in
  if (count =? 0)%Z then s
  else
    let prev := Z.rem (api_searchIndex api - 1 + count) count in
    scrollToMatch (api_searchMatches api) prev (set_index prev s).

Definition cancel (r : SearchRun) : SearchRun :=
  {| run_query := run_query r; run_numPages := run_numPages r;
     run_pageNum := run_pageNum r; run_matches := run_matches r;
     run_cancelled := true; run_status := run_status r |}.

(** The cleanup function of the search effect. *)
Definition searchCleanup (s : Viewer) : Viewer :=
  match activeRun s with
  | Some i => set_runs (alter cancel i (runs s)) None s
  | None => s
  end.

Section Search.
Context `{Platform}.

(** The test applied to the text items of one page. *)
Definition pageMatches (query : string) (items : list (option string)) : bool :=
  let strs := map (default "") items in
  includes query (toLowerCase (join "" strs))
  || includes query (toLowerCase (join " " strs)).

(** Body of the search effect. *)
Definition searchEffect (s : Viewer) : Viewer :=
  let query := toLowerCase (trim (searchQuery s)) in
  match numPages s with
  | Some (S n) =>
      if truthy query && pdfLoaded s then
        set_runs (runs s ++ [ {| run_query := query; run_numPages := S n;
                                 run_pageNum := 1; run_matches := [];
                                 run_cancelled := false;
                                 run_status := Running |} ])
                 (Some (length (runs s))) s
      else set_runs (runs s) None (set_search [] 0%Z s)
  | _ => set_runs (runs s) None (set_search [] 0%Z s)
  end.

(** A dependency of the effect changed: cleanup, then the body. *)
Definition rerunSearchEffect (s : Viewer) : Viewer :=
  searchEffect (searchCleanup s).

(** The awaited text extraction of page [run_pageNum] of run [i] settles
    with [items] ([None]: [getPage] or [getTextContent] rejected) and the
    run continues up to its next [await] or to its end. *)
Definition pageSettled (i : nat) (items : option (list (option string)))
    (s : Viewer) : Viewer :=
  match runs s !! i with
  | Some r =>
      match run_status r, items with
      | Running, None =>
          set_runs (<[i := {| run_query := run_query r;
                              run_numPages := run_numPages r;
                              run_pageNum := run_pageNum r;
                              run_matches := run_matches r;
                              run_cancelled := run_cancelled r;
                              run_status := Failed |}]> (runs s))
                   (activeRun s) s
      | Running, Some its =>
          let matches :=
            if pageMatches (run_query r) its
            then (run_matches r ++ [run_pageNum r])%list
            else run_matches r in
          let pageNum := run_pageNum r + 1 in
          let finished := negb (pageNum <=? run_numPages r) in
          let r' := {| run_query := run_query r;
                       run_numPages := run_numPages r;
                       run_pageNum := pageNum;
                       run_matches := matches;
                       run_cancelled := run_cancelled r;
                       run_status := if finished then Finished else Running |} in
          let s' := set_runs (<[i := r']> (runs s)) (activeRun s) s in
          if finished && negb (run_cancelled r) then
            let s'' := set_search matches 0%Z s' in
            match matches with
            | first :: _ => scrollToPage first s''
            | [] => s''
            end
          else s'
      | _, _ => s
      end
  | None => s
  end.

Inductive Event :=
| SetSearchQuery (q : string)
| DocumentLoaded (pages : nat)
| PageSettled (run : nat) (items : option (list (option string)))
| NextMatch
| PrevMatch
| ScrollToPage (page : nat)
| HostNextMatch (api : ViewerApi)
| HostPrevMatch (api : ViewerApi).

(** One transition of the controller.  A state update that changes a
    dependency of the search effect is taken together with the cleanup and
    the re-run of the effect it causes; an update to the same value changes
    nothing and leaves the effect alone.  [NextMatch] and [PrevMatch] are
    the buttons of the toolbar, which is handed the handlers of the current
    render.  [HostNextMatch api] and [HostPrevMatch api] are calls by the
    host of the functions of an API object [api] it holds, made by
    whichever render it was made by; the states that can be reached are
    over-approximated by leaving [api] free. *)
Definition step (s : Viewer) (e : Event) : Viewer :=
  match e with
  | SetSearchQuery q =>
      if String.eqb q (searchQuery s) then s
      else rerunSearchEffect (set_query q s)
  | DocumentLoaded pages =>
      if bool_decide (numPages s = Some pages) then set_document pages s
      else rerunSearchEffect (set_document pages s)
  | PageSettled i items => pageSettled i items s
  | NextMatch => nextMatch s
  | PrevMatch => prevMatch s
  | ScrollToPage page => scrollToPage page s
  | HostNextMatch api => apiNextMatch api s
  | HostPrevMatch api => apiPrevMatch api s
  end.

Definition exec (events : list Event) : Viewer := fold_left step events initial.

Definition reachable (s : Viewer) : Prop := exists events, s = exec events.

End Search.

(** *** Highlighting *)

Inductive PageTextMode := modeNone | modeCurrent | modePage | modeBoth.

(** The options the text renderer reads, after defaulting; the three style
    strings are the results of [styleToInline]. *)
Record HighlightOptions := {
  searchHighlightClassName : string;
  searchHighlightStyleString : string;
  searchActiveHighlightClassName : string;
  searchActiveHighlightStyleString : string;
  highlightPageTextMode : PageTextMode;
  highlightPageNumber : option nat;
  highlightPageTextStyleString : string
}.

Definition highlightPageSet (o : HighlightOptions) (currentPage : nat) : list nat :=
  ((match highlightPageTextMode o with
    | modeCurrent | modeBoth => [currentPage]
    | _ => []
    end) ++
   (match highlightPageTextMode o, highlightPageNumber o with
    | (modePage | modeBoth), Some n => if 0 <? n then [n] else []
    | _, _ => []
    end))%list.

Definition activeMatchPage (matches : list nat) (index : Z) : option nat :=
  if 0 <? length matches then at_index matches index else None.

Definition quoted (s : string) : string :=
  String dquote (s +:+ String dquote EmptyString).

(** [<span class="..." style="...">] *)
Definition matchSpanOpen (className style : string) : string :=
  "<span class=" +:+ quoted className +:+ " style=" +:+ quoted style +:+ ">".

(** [<span style="...">] *)
Definition pageSpanOpen (style : string) : string :=
  "<span style=" +:+ quoted style +:+ ">".

Definition spanClose : string := "</span>".

(** The [while (true)] loop of the renderer.  [fuel] bounds the number of
    iterations; [None] means the bound was reached before the loop left. *)
Fixpoint highlightLoop (fuel : nat) (openTag str lower queryLower : string)
    (queryLength idx : nat) (result : string) : option string :=
  match fuel with
  | O => None
  | S fuel' =>
      match indexOf queryLower lower idx with
      | None => Some (result +:+ escapeHtml (drop idx str))
      | Some found =>
          let matched := slice found (found + queryLength) str in
          highlightLoop fuel' openTag str lower queryLower queryLength
            (found + queryLength)
            (result +:+ escapeHtml (slice idx found str)
                    +:+ openTag +:+ escapeHtml matched +:+ spanClose)
      end
  end.

Section Highlight.
Context `{Platform}.

Variable o : HighlightOptions.
Variable searchQuery : string.
Variable activePage : option nat.     (* [activeMatchPage] *)
Variable currentPage : nat.

Definition enableFullHighlight : bool :=
  match highlightPageTextMode o with modeNone => false | _ => true end.

Definition matchClassName (isActivePage : bool) : string :=
  if isActivePage
  then trim (searchHighlightClassName o +:+ " " +:+ searchActiveHighlightClassName o)
  else searchHighlightClassName o.

Definition matchStyle (isActivePage : bool) : string :=
  if isActivePage
  then join ";" (filter (fun x => truthy x = true)
                   [searchHighlightStyleString o; searchActiveHighlightStyleString o])
  else searchHighlightStyleString o.

(** The function the memo returns: markup for one text fragment. *)
Definition renderFragment (str : string) (pageNumber : option nat) : option string :=
  if negb (truthy str) then Some EmptyString
  else
    let query := trim searchQuery in
    let shouldHighlightAll :=
      match pageNumber with
      | Some p => bool_decide (p ∈ highlightPageSet o currentPage)
      | None => false
      end in
    let result :=
      if truthy query then
        let lower := toLowerCase str in
        let isActivePage :=
          match pageNumber, activePage with
          | Some p, Some a => p =? a
          | _, _ => false
          end in
        highlightLoop (S (String.length lower))
          (matchSpanOpen (matchClassName isActivePage) (matchStyle isActivePage))
          str lower (toLowerCase query) (String.length query) 0 EmptyString
      else Some (escapeHtml str) in
    match result with
    | Some r =>
        Some (if enableFullHighlight && shouldHighlightAll
              then pageSpanOpen (highlightPageTextStyleString o) +:+ r +:+ spanClose
              else r)
    | None => None
    end.

(** [customTextRenderer]: [None] is [undefined], in which case the text
    layer shows the fragments as plain text. *)
Definition customTextRenderer : option (string -> option nat -> option string) :=
  if negb (truthy (trim searchQuery)) && negb enableFullHighlight then None
  else Some renderFragment.

End Highlight.

(** *** Reading markup back

    How the text layer interprets the markup it is given: a tag extends to
    the closing bracket that stands outside the double-quoted attribute
    values and is not text; the five character references are decoded. *)

Inductive ScanMode :=
| InText
| InTag
| InValue                      (* inside a double-quoted attribute value *)
| InReference (name : string).

Definition decodeReference (name : string) : string :=
  if String.eqb name "amp" then "&"
  else if String.eqb name "lt" then "<"
  else if String.eqb name "gt" then ">"
  else if String.eqb name "quot" then String dquote EmptyString
  else if String.eqb name "#039" then "'"
  else "&" +:+ name +:+ ";".

Fixpoint scan (m : ScanMode) (markup : string) : string :=
  match markup with
  | EmptyString =>
      match m with
      | InReference name => "&" +:+ name
      | _ => EmptyString
      end
  | String c rest =>
      match m with
      | InText =>
          if Ascii.eqb c "<" then scan InTag rest
          else if Ascii.eqb c "&" then scan (InReference EmptyString) rest
          else String c (scan InText rest)
      | InTag =>
          if Ascii.eqb c ">" then scan InText rest
          else if Ascii.eqb c dquote then scan InValue rest
          else scan InTag rest
      | InValue =>
          if Ascii.eqb c dquote then scan InTag rest else scan InValue rest
      | InReference name =>
          if Ascii.eqb c ";" then decodeReference name +:+ scan InText rest
          else scan (InReference (name +:+ String c EmptyString)) rest
      end
  end.

Definition textContent (markup : string) : string := scan InText markup.

End PdfRenderer.

(** ** Renderer registry (src/RendererRegistry.ts, src/renderers/index.ts) *)

Module RendererRegistry.
Import FormatRouter.

#[export] Instance RendererKey_countable : Countable RendererKey.
Proof.
  refine (inj_countable'
            (fun k => match k with
                      | pdf => 0 | pdf_ocr => 1 | docx => 2
                      | office_pdf => 3 | unsupported => 4
                      end)
            (fun n => match n with
                      | 0 => pdf | 1 => pdf_ocr | 2 => docx
                      | 3 => office_pdf | _ => unsupported
                      end) _).
  now intros [].
Defined.

(** A lazy factory is identified by the module it imports; [HostFactory]
    stands for the factories a host registers itself. *)
Inductive RendererFactory :=
| LoadPdfRenderer
| LoadPdfOcrRenderer
| LoadDocxRenderer
| LoadOfficePdfFallback
| HostFactory (id : nat).

(** The module-level [registry] object.  Its keys are renderer keys, none
    of which names a member of [Object.prototype], and its values are
    functions. *)
Abbreviation Registry := (gmap RendererKey RendererFactory).

Definition registerRenderer (key : RendererKey) (factory : RendererFactory)
    (registry : Registry) : Registry :=
  <[key := factory]> registry.

(** [registry[key]]; [None] is [undefined]. *)
Definition getRendererFactory (key : RendererKey) (registry : Registry)
    : option RendererFactory :=
  registry !! key.

(** [key in registry && typeof registry[key] === "function"]. *)
Definition hasRenderer (key : RendererKey) (registry : Registry) : bool :=
  match registry !! key with
  | Some _ => true
  | None => false
  end.

(** The registry after the registrations of [renderers/index.ts]. *)
Definition default_registry : Registry :=
  registerRenderer office_pdf LoadOfficePdfFallback
    (registerRenderer docx LoadDocxRenderer
       (registerRenderer pdf_ocr LoadPdfOcrRenderer
          (registerRenderer pdf LoadPdfRenderer ∅))).

End RendererRegistry.

(** ** Viewer shell: what is rendered (src/DocumentViewer.tsx, src/utils/normalizeSrc.ts) *)

Module DocumentViewerRender.
Import FormatRouter ConversionWorker DocumentViewer RendererRegistry.

(** [{ url, revoke? }]; [revoke] is described by the object URL it
    releases. *)
Record Normalized := {
  url : string;
  revokeUrl : option string
}.

(** [normalizeSrcToUrl]; [objectUrl] is what [URL.createObjectURL] returns
    for a binary source. *)
Definition normalizeSrcToUrl (src : DocumentSource) (objectUrl : string)
    : Normalized :=
  match src with
  | SrcUrl s => {| url := s; revokeUrl := None |}
  | SrcBlob _ => {| url := objectUrl; revokeUrl := Some objectUrl |}
  end.

(** The properties handed to the mounted renderer. *)
Record RendererProps := {
  rendererSrc : string;
  originalSrc : DocumentSource;
  rendererMimeType : js string
}.

(** What the shell returns from a render. *)
Inductive View :=
| ErrorView (message : string)
| ConvertingView
| RendererView (factory : RendererFactory) (props : RendererProps).

(** [v != null]. *)
Definition is_Some_b {A} (v : option A) : bool :=
  match v with Some _ => true | None => false end.

(** [rendererKey === "unsupported"]. *)
Definition is_unsupported (key : js RendererKey) : bool :=
  match key with Val unsupported => true | _ => false end.

Section WithPlatform.
Context `{Platform}.

(** [effectiveRendererKey]. *)
Definition effectiveRendererKey (p : Props) (s : Shell) : js RendererKey :=
  match convertedPdfUrl s with
  | Some _ => Val pdf
  | None => rendererKey (getRendererKey (src p) (mimeType p) (enableOCR p))
  end.

(** The memo [LazyRenderer].  A member of [Object.prototype] used as the
    key is converted to a string that names no property of the registry. *)
Definition LazyRenderer (registry : Registry) (p : Props) (s : Shell)
    : option RendererFactory :=
  match effectiveRendererKey p s with
  | Val unsupported => None
  | Val key => getRendererFactory key registry
  | Proto _ => None
  end.

(** The chain of returns at the end of the component. *)
Definition view (registry : Registry) (p : Props) (source : Normalized)
    (s : Shell) : View :=
  let selection := getRendererKey (src p) (mimeType p) (enableOCR p) in
  if negb (truthy (url source)) && isBlobOrFile (src p) then
    ErrorView "Invalid document source"
  else if truthy (default "" (conversionError s)) then
    ErrorView (default "" (conversionError s))
  else if shouldConvertOffice p && negb (is_Some_b (convertedPdfUrl s)) then
    ConvertingView
  else if is_unsupported (rendererKey selection) then
    ErrorView "Unsupported document type"
  else
    match LazyRenderer registry p s with
    | None => ErrorView "No renderer available for this format"
    | Some factory =>
        RendererView factory
          {| rendererSrc := default (url source) (convertedPdfUrl s);
             originalSrc := match convertedPdfUrl s with
                            | Some u => SrcUrl u
                            | None => src p
                            end;
             rendererMimeType :=
               match convertedPdfUrl s with
               | Some _ => Val "application/pdf"
               | None => default (Val "") (FormatRouter.mimeType selection)
               end |}
    end.

End WithPlatform.

End DocumentViewerRender.

(** ** Viewer shell: the effects and the object URLs they hold
    (src/DocumentViewer.tsx) *)

Module DocumentViewerEffects.
Import FormatRouter ConversionWorker DocumentViewer DocumentViewerRender.

(** One run of the conversion effect that started a conversion: the
    properties its closures captured, its [cancelled] flag, and whether its
    promise has settled. *)
Record Conversion := {
  conv_props : Props;
  conv_cancelled : bool;
  conv_settled : bool
}.

(** The mounted component: the memo of [normalizeSrcToUrl], the state and
    the ref of the shell, the runs of the conversion effect with the one
    whose cleanup is pending, and the calls of [URL.createObjectURL] made by
    [normalizeSrcToUrl] and [convertViaWorker]. *)
Record Component := {
  props : Props;
  source : Normalized;
  shell : Shell;
  conversions : list Conversion;
  activeConversion : option nat;
  created : list string;
  mounted : bool
}.

(** [revoke?.()], and [convertedPdfUrlRevokeRef.current?.()], on the log
    of [URL.revokeObjectURL]. *)
Definition release (u : option string) (log : list string) : list string :=
  match u with
  | Some x => (log ++ [x])%list
  | None => log
  end.

(** The cleanup of the effect on [[revoke]]. *)
Definition releaseSource (source : Normalized) (s : Shell) : Shell :=
  {| convertedPdfUrl := convertedPdfUrl s;
     conversionError := conversionError s;
     convertedPdfUrlRevokeRef := convertedPdfUrlRevokeRef s;
     revoked := release (revokeUrl source) (revoked s);
     reportedErrors := reportedErrors s |}.

(** The cleanup of the effect without dependencies, run at unmount. *)
Definition releaseConverted (s : Shell) : Shell :=
  {| convertedPdfUrl := convertedPdfUrl s;
     conversionError := conversionError s;
     convertedPdfUrlRevokeRef := None;
     revoked := release (convertedPdfUrlRevokeRef s) (revoked s);
     reportedErrors := reportedErrors s |}.

(** The body of the effect on [[src, rendererKey]]. *)
Definition resetEffect (s : Shell) : Shell :=
  {| convertedPdfUrl := None;
     conversionError := None;
     convertedPdfUrlRevokeRef := None;
     revoked := release (convertedPdfUrlRevokeRef s) (revoked s);
     reportedErrors := reportedErrors s |}.

Definition cancelConversion (r : Conversion) : Conversion :=
  {| conv_props := conv_props r; conv_cancelled := true;
     conv_settled := conv_settled r |}.

Definition settleConversion (r : Conversion) : Conversion :=
  {| conv_props := conv_props r; conv_cancelled := conv_cancelled r;
     conv_settled := true |}.

(** The cleanup of the conversion effect: it exists only when the body
    went past its guard. *)
Definition conversionCleanup (c : Component) : Component :=
  match activeConversion c with
  | Some i =>
      {| props := props c; source := source c; shell := shell c;
         conversions := alter cancelConversion i (conversions c);
         activeConversion := None;
         created := created c; mounted := mounted c |}
  | None => c
  end.

Section WithPlatform.
Context `{Platform}.

(** The body of the conversion effect, for the properties [p] of the
    render. *)
Definition conversionEffect (p : Props) (c : Component) : Component :=
  if conversionStarts p then
    {| props := p; source := source c; shell := shell c;
       conversions := (conversions c
                       ++ [ {| conv_props := p; conv_cancelled := false;
                               conv_settled := false |} ])%list;
       activeConversion := Some (length (conversions c));
       created := created c; mounted := mounted c |}
  else
    {| props := p; source := source c; shell := shell c;
       conversions := conversions c; activeConversion := None;
       created := created c; mounted := mounted c |}.

(** The first render and the effects that follow it; [objectUrl] is what
    [URL.createObjectURL] returns if it is called. *)
Definition mount (p : Props) (objectUrl : string) : Component :=
  conversionEffect p
    {| props := p;
       source := normalizeSrcToUrl (src p) objectUrl;
       shell := resetEffect initial;
       conversions := []; activeConversion := None;
       created := release (revokeUrl (normalizeSrcToUrl (src p) objectUrl)) [];
       mounted := true |}.

Inductive Event :=
(** A render with a new [src]: every effect runs again. *)
| SourceChanged (p : Props) (objectUrl : string)
(** A render with the same [src] and another renderer key; the conversion
    effect runs again or not, as its own dependencies decide. *)
| KeyChanged (p : Props) (conversionReruns : bool)
(** A render that changes dependencies of the conversion effect only. *)
| ConversionDepsChanged (p : Props)
(** The promise of a run of the conversion effect settles. *)
| ConversionSettled (run : nat) (outcome : Settled ConversionResult)
| Unmount.

Definition set_shell (s : Shell) (c : Component) : Component :=
  {| props := props c; source := source c; shell := s;
     conversions := conversions c; activeConversion := activeConversion c;
     created := created c; mounted := mounted c |}.

(** One transition: the cleanups of the effects that run again, in the
    order of their declaration, then their bodies in the same order. *)
Definition step (c : Component) (e : Event) : Component :=
  match e with
  | SourceChanged p objectUrl =>
      if mounted c then
        let cleaned :=
          conversionCleanup (set_shell (releaseSource (source c) (shell c)) c) in
        conversionEffect p
          {| props := p;
             source := normalizeSrcToUrl (src p) objectUrl;
             shell := resetEffect (shell cleaned);
             conversions := conversions cleaned;
             activeConversion := activeConversion cleaned;
             created := release (revokeUrl (normalizeSrcToUrl (src p) objectUrl))
                          (created c);
             mounted := true |}
      else c
  | KeyChanged p conversionReruns =>
      if mounted c then
        if conversionReruns then
          let cleaned := conversionCleanup c in
          conversionEffect p (set_shell (resetEffect (shell cleaned)) cleaned)
        else
          {| props := p; source := source c; shell := resetEffect (shell c);
             conversions := conversions c;
             activeConversion := activeConversion c;
             created := created c; mounted := true |}
      else c
  | ConversionDepsChanged p =>
      if mounted c then conversionEffect p (conversionCleanup c) else c
  | ConversionSettled i outcome =>
      match conversions c !! i with
      | Some r =>
          if conv_settled r then c
          else
            {| props := props c; source := source c;
               shell := workerSettled (conv_props r) (conv_cancelled r) outcome
                          (shell c);
               conversions := <[i := settleConversion r]> (conversions c);
               activeConversion := activeConversion c;
               created :=
                 match outcome with
                 | Fulfilled result => release (revoke result) (created c)
                 | Rejected _ => created c
                 end;
               mounted := mounted c |}
      | None => c
      end
  | Unmount =>
      if mounted c then
        let cleaned :=
          conversionCleanup
            (set_shell (releaseConverted (releaseSource (source c) (shell c))) c) in
        {| props := props cleaned; source := source cleaned;
           shell := shell cleaned; conversions := conversions cleaned;
           activeConversion := None; created := created cleaned;
           mounted := false |}
      else c
  end.

(** What the platform guarantees of the URLs an event brings: an object
    URL just made by [URL.createObjectURL] is new, that is, none of the
    object URLs made before and not the URL on display; a conversion that
    answers with the URL of a document answers with none of the object URLs
    of this component; and the result of the worker client is released by
    releasing its own URL. *)
Definition event_ok (c : Component) (e : Event) : Prop :=
  match e with
  | SourceChanged p objectUrl =>
      isBlobOrFile (src p) = true -> objectUrl ∉ created c
  | ConversionSettled _ (Fulfilled result) =>
      match revoke result with
      | Some u =>
          pdfUrl result = u /\ (u ∉ created c)
          /\ convertedPdfUrl (shell c) <> Some u
      | None => pdfUrl result ∉ created c
      end
  | _ => True
  end.

Fixpoint trace_ok (c : Component) (events : list Event) : Prop :=
  match events with
  | [] => True
  | e :: rest => event_ok c e /\ trace_ok (step c e) rest
  end.

Definition run (p : Props) (objectUrl : string) (events : list Event)
    : Component :=
  fold_left step events (mount p objectUrl).

End WithPlatform.

End DocumentViewerEffects.

(** ** PDF renderer: styles, page tracking, page navigation, viewer API
    (src/renderers/PdfRenderer.tsx, src/renderers/PdfToolbar.tsx) *)

Module PdfControls.
Import PdfRenderer.

(** *** Inline styles *)

(** The value of a style property as [styleToInline] sees it: [null] or
    [undefined]; a number, given by the text [String] makes of it; any
    other value, given by the text [String] makes of it. *)
Inductive CssValue :=
| CssNull
| CssNumber (text : string)
| CssText (text : string).

Definition NON_PX_PROPERTIES : list string :=
  ["opacity"; "zIndex"; "fontWeight"; "lineHeight"].

(** [key.replace(/[A-Z]/g, m => "-" + m.toLowerCase())]: the pattern only
    matches the letters A to Z, whose lower case is the letter 32 code
    points further on. *)
Fixpoint cssKey (key : string) : string :=
  match key with
  | EmptyString => EmptyString
  | String c rest =>
      if ReferencePlatform.is_upper c
      then String "-" (String (ReferencePlatform.lower_char c) (cssKey rest))
      else String c (cssKey rest)
  end.

(** The function mapped over [Object.entries(style)]. *)
Definition declaration (entry : string * CssValue) : string :=
  match entry.2 with
  | CssNull => ""
  | CssNumber text =>
      if bool_decide (entry.1 ∈ NON_PX_PROPERTIES)
      then cssKey entry.1 +:+ ":" +:+ text
      else cssKey entry.1 +:+ ":" +:+ text +:+ "px"
  | CssText text => cssKey entry.1 +:+ ":" +:+ text
  end.

(** [style] is [None] when the argument is missing; the entries come in
    the order of [Object.entries]. *)
Definition styleToInline (style : option (list (string * CssValue))) : string :=
  match style with
  | None => ""
  | Some entries =>
      join ";" (filter (fun d => truthy d = true) (map declaration entries))
  end.

(** *** Which page is visible *)

(** The parts of a [DOMRect] the scroll listener reads; [bottom] is
    [top + height]. *)
Record Rect := {
  rect_top : Q;
  rect_height : Q
}.

Definition rect_bottom (r : Rect) : Q := (rect_top r + rect_height r)%Q.

(** [ratio]: the visible part of the height of a page. *)
Definition visibleRatio (viewerRect rect : Rect) : Q :=
  let intersectionHeight :=
    Qmax 0 (Qmin (rect_bottom rect) (rect_bottom viewerRect)
            - Qmax (rect_top rect) (rect_top viewerRect))%Q in
  if Qltb 0 (rect_height rect)
  then (intersectionHeight / rect_height rect)%Q
  else 0%Q.

(** The body of [pageRefs.current.forEach]; the accumulator is
    [(closest, closestRatio)]. *)
Definition measurePage (viewerRect : Rect) (acc : nat * Q) (entry : nat * Rect)
    : nat * Q :=
  if Qltb acc.2 (visibleRatio viewerRect entry.2)
  then (entry.1, visibleRatio viewerRect entry.2)
  else acc.

(** What the animation frame callback passes to [setCurrentPage], if
    anything; [pageRefs] in the order of insertion into the map. *)
Definition detectPage (viewerRect : Rect) (pageRefs : list (nat * Rect))
    : option nat :=
  let result := fold_left (measurePage viewerRect) pageRefs (1, 0%Q) in
  if Qltb 0 result.2 then Some result.1 else None.

(** *** Page navigation *)





(** *** The page box *)







(** *** Delivery of the API to the host *)

(** The ref [viewerReadyCalledRef] and the calls of [onViewerReady] made so
    far, each with the callback (by identity) and the API it was given. *)
Record ReadyState := {
  viewerReadyCalled : bool;
  deliveries : list (nat * ViewerApi)
}.

Definition ready_initial : ReadyState :=
  {| viewerReadyCalled := false; deliveries := [] |}.

(** One run of the effect on [[options?.onViewerReady, viewerApi]], after a
    render in state [s]; [onViewerReady] is [None] when the option is not
    supplied. *)
Definition viewerReadyEffect (r : ReadyState) (render : option nat * Viewer)
    : ReadyState :=
  match render.1 with
  | Some callback =>
      if viewerReadyCalled r then r
      else {| viewerReadyCalled := true;
              deliveries := deliveries r ++ [(callback, viewerApi render.2)] |}
  | None => r
  end.

End PdfControls.

(** ** OCR renderer: the recognition run and the text overlay
    (src/renderers/PdfOcrRenderer.tsx) *)

Module PdfOcrRenderer.

Record Bbox := { x0 : Q; y0 : Q; x1 : Q; y1 : Q }.

Record OcrWord := { bbox : Bbox; text : string }.

Record PageOcrResult := {
  words : list OcrWord;
  canvasWidth : Q;
  canvasHeight : Q;
  displayWidth : Q;
  displayHeight : Q;
  top : Q
}.

(** What the run reads of a canvas before it awaits its recognition:
    [canvas.width], [canvas.height], the width and height of its bounding
    rectangle, and its offset in the scrolled container. *)
Record Canvas := {
  pixelWidth : Q;
  pixelHeight : Q;
  rectWidth : Q;
  rectHeight : Q;
  offsetTop : Q
}.

(** The object pushed to [results]; [recognized] is [words || []]. *)
Definition pageResult (canvas : Canvas) (recognized : list OcrWord)
    : PageOcrResult :=
  {| words := map (fun w => {| bbox := bbox w; text := text w |}) recognized;
     canvasWidth := pixelWidth canvas;
     canvasHeight := pixelHeight canvas;
     displayWidth := rectWidth canvas;
     displayHeight := rectHeight canvas;
     top := offsetTop canvas |}.

(** The style of the span of a word.  Numbers are exact rationals; the
    quotients are those of the source where the canvas has a positive
    width and height. *)
Record Box := { boxLeft : Q; boxTop : Q; boxWidth : Q; boxHeight : Q }.

Definition wordBox (page : PageOcrResult) (w : OcrWord) : Box :=
  let scaleX := (displayWidth page / canvasWidth page)%Q in
  let scaleY := (displayHeight page / canvasHeight page)%Q in
  {| boxLeft := (x0 (bbox w) * scaleX)%Q;
     boxTop := (y0 (bbox w) * scaleY)%Q;
     boxWidth := ((x1 (bbox w) - x0 (bbox w)) * scaleX)%Q;
     boxHeight := ((y1 (bbox w) - y0 (bbox w)) * scaleY)%Q |}.

(** Where a run of the effect stands: its timer has not fired; the timer
    was cleared before it fired; [createWorker] is awaited; [recognize] is
    awaited for the canvas at [ocrIndex]; the run is over. *)
Inductive Phase :=
| TimerPending
| TimerCleared
| CreatingWorker
| Recognizing
| Ended.

(** One run of the effect: the canvases found, the loop variable, the
    local [results] and [cancelled], and what the run has done to the
    component and to the worker: the argument of [setOcrResults] and of
    [setOcrError] once called, whether [createWorker] has given a worker,
    the number of [recognize] calls, the number of [terminate] calls. *)
Record OcrRun := {
  canvases : list Canvas;
  ocrIndex : nat;
  results : list PageOcrResult;
  cancelled : bool;
  phase : Phase;
  publishedResults : option (list PageOcrResult);
  publishedError : option string;
  workerCreated : bool;
  recognizeCalls : nat;
  terminateCalls : nat
}.

(** The body of the effect up to [setTimeout]: [None] when a guard
    returns. *)
Definition ocrEffect (numPages : option nat) (found : list Canvas)
    : option OcrRun :=
  match numPages, found with
  | Some (S _), _ :: _ =>
      Some {| canvases := found; ocrIndex := 0; results := []; cancelled := false;
              phase := TimerPending; publishedResults := None;
              publishedError := None; workerCreated := false;
              recognizeCalls := 0; terminateCalls := 0 |}
  | _, _ => None
  end.

(** After the loop: [if (!cancelled) setOcrResults(results)], then the
    [finally] block. *)
Definition finish (r : OcrRun) : OcrRun :=
  {| canvases := canvases r; ocrIndex := ocrIndex r; results := results r;
     cancelled := cancelled r; phase := Ended;
     publishedResults :=
       if cancelled r then publishedResults r else Some (results r);
     publishedError := publishedError r;
     workerCreated := workerCreated r;
     recognizeCalls := recognizeCalls r;
     terminateCalls := S (terminateCalls r) |}.

(** The head of the loop: [i < canvases.length && !cancelled]. *)
Definition loopHead (r : OcrRun) : OcrRun :=
  if (ocrIndex r <? length (canvases r)) && negb (cancelled r) then
    {| canvases := canvases r; ocrIndex := ocrIndex r; results := results r;
       cancelled := cancelled r; phase := Recognizing;
       publishedResults := publishedResults r;
       publishedError := publishedError r;
       workerCreated := workerCreated r;
       recognizeCalls := S (recognizeCalls r);
       terminateCalls := terminateCalls r |}
  else finish r.

Inductive OcrEvent :=
| TimerFired
| WorkerCreated
| WorkerNotCreated                         (* [createWorker] rejects *)
| Recognized (recognized : list OcrWord)
| RecognitionFailed (message : string)     (* [recognize] rejects *)
| Cleanup.                                 (* the cleanup of the effect *)

Definition set_phase (ph : Phase) (r : OcrRun) : OcrRun :=
  {| canvases := canvases r; ocrIndex := ocrIndex r; results := results r;
     cancelled := cancelled r; phase := ph;
     publishedResults := publishedResults r;
     publishedError := publishedError r;
     workerCreated := workerCreated r;
     recognizeCalls := recognizeCalls r;
     terminateCalls := terminateCalls r |}.

(** [createWorker] has resolved. *)
Definition workerReady (r : OcrRun) : OcrRun :=
  {| canvases := canvases r; ocrIndex := ocrIndex r; results := results r;
     cancelled := cancelled r; phase := phase r;
     publishedResults := publishedResults r;
     publishedError := publishedError r;
     workerCreated := true;
     recognizeCalls := recognizeCalls r;
     terminateCalls := terminateCalls r |}.

Definition ocrStep (r : OcrRun) (e : OcrEvent) : OcrRun :=
  match e, phase r with
  | TimerFired, TimerPending => set_phase CreatingWorker r
  | WorkerCreated, CreatingWorker => loopHead (workerReady r)
  | WorkerNotCreated, CreatingWorker => set_phase Ended r
  | Recognized recognized, Recognizing =>
      if cancelled r then finish r
      else
        match canvases r !! ocrIndex r with
        | Some canvas =>
            loopHead
              {| canvases := canvases r; ocrIndex := S (ocrIndex r);
                 results := (results r ++ [pageResult canvas recognized])%list;
                 cancelled := false; phase := Recognizing;
                 publishedResults := publishedResults r;
                 publishedError := publishedError r;
                 workerCreated := workerCreated r;
                 recognizeCalls := recognizeCalls r;
                 terminateCalls := terminateCalls r |}
        | None => r
        end
  | RecognitionFailed message, Recognizing =>
      {| canvases := canvases r; ocrIndex := ocrIndex r; results := results r;
         cancelled := cancelled r; phase := Ended;
         publishedResults := publishedResults r;
         publishedError :=
           if cancelled r then publishedError r else Some message;
         workerCreated := workerCreated r;
         recognizeCalls := recognizeCalls r;
         terminateCalls := S (terminateCalls r) |}
  | Cleanup, ph =>
      {| canvases := canvases r; ocrIndex := ocrIndex r; results := results r;
         cancelled := true;
         phase := match ph with TimerPending => TimerCleared | _ => ph end;
         publishedResults := publishedResults r;
         publishedError := publishedError r;
         workerCreated := workerCreated r;
         recognizeCalls := recognizeCalls r;
         terminateCalls := terminateCalls r |}
  | _, _ => r
  end.

End PdfOcrRenderer.

(** * Properties *)

(** ** Facts about the string primitives *)

Module JsFacts.

Lemma app_cons c a b : String c a +:+ b = String c (a +:+ b).
Proof. reflexivity. Qed.

Lemma app_nil_l s : "" +:+ s = s.
Proof. reflexivity. Qed.

Lemma app_nil_r s : s +:+ "" = s.
Proof.
  induction s as [|c s IH]; [reflexivity|]. now rewrite app_cons, IH.
Qed.

Lemma app_assoc a b c : (a +:+ b) +:+ c = a +:+ (b +:+ c).
Proof.
  induction a as [|x a IH]; [reflexivity|]. now rewrite !app_cons, IH.
Qed.

Lemma length_app a b : String.length (a +:+ b) = String.length a + String.length b.
Proof.
  induction a as [|x a IH]; [reflexivity|]. rewrite app_cons. simpl. now rewrite IH.
Qed.

Lemma starts_with_app needle rest : starts_with needle (needle +:+ rest) = true.
Proof.
  induction needle as [|c needle IH]; [reflexivity|].
  rewrite app_cons. simpl. now rewrite Ascii.eqb_refl.
Qed.

Lemma find_from_app needle before after pos :
  exists k, find_from needle (before +:+ needle +:+ after) pos = Some k.
Proof.
  revert pos. induction before as [|c before IH]; intros pos.
  - exists pos. rewrite app_nil_l.
    destruct needle as [|a needle]; [now destruct after|].
    rewrite app_cons. cbn [find_from].
    now rewrite <- app_cons, starts_with_app.
  - rewrite app_cons. cbn [find_from].
    destruct (starts_with needle _); [now exists pos | apply IH].
Qed.

(** A string includes each of the parts it is concatenated from. *)
Lemma includes_app needle before after :
  includes needle (before +:+ needle +:+ after) = true.
Proof.
  unfold includes, indexOf. simpl.
  destruct (find_from_app needle before after 0) as [k ->]. reflexivity.
Qed.

Lemma truthy_length s : truthy s = true <-> 0 < String.length s.
Proof. destruct s; simpl; split; intros; try discriminate; try lia; reflexivity. Qed.

Lemma drop_all s n : String.length s <= n -> drop n s = "".
Proof.
  revert n. induction s as [|c s IH]; intros [|n] Hn; simpl in *;
    try reflexivity; try lia. apply IH. lia.
Qed.

Lemma drop_drop s i j : drop j (drop i s) = drop (i + j) s.
Proof.
  revert s. induction i as [|i IH]; intros s; [reflexivity|].
  destruct s as [|c s]; simpl; [now destruct j | apply IH].
Qed.

Lemma take_drop s n : take n s +:+ drop n s = s.
Proof.
  revert s. induction n as [|n IH]; intros s; [reflexivity|].
  destruct s as [|c s]; simpl; [reflexivity|]. now rewrite app_cons, IH.
Qed.

(** Consecutive slices tile the string. *)
Lemma slice_then_rest s i j : i <= j -> slice i j s +:+ drop j s = drop i s.
Proof.
  intros Hij. unfold slice.
  replace j with (i + (j - i)) at 2 by lia.
  rewrite <- drop_drop. apply take_drop.
Qed.

Lemma find_from_lower needle s pos k :
  find_from needle s pos = Some k -> pos <= k.
Proof.
  revert pos. induction s as [|c s IH]; intros pos; cbn [find_from].
  - destruct (starts_with needle ""); [intros [= <-]; lia | discriminate].
  - destruct (starts_with needle (String c s)); [intros [= <-]; lia|].
    intros Hf. apply IH in Hf. lia.
Qed.

Lemma find_from_upper needle s pos k :
  truthy needle = true ->
  find_from needle s pos = Some k -> k < pos + String.length s.
Proof.
  intros Hn. revert pos. induction s as [|c s IH]; intros pos; cbn [find_from].
  - destruct needle; [discriminate | simpl; discriminate].
  - destruct (starts_with needle (String c s)); [intros [= <-]; simpl; lia|].
    intros Hf. apply IH in Hf. simpl. lia.
Qed.

Lemma length_drop s n : String.length (drop n s) = String.length s - n.
Proof.
  revert s. induction n as [|n IH]; intros s; simpl; [lia|].
  destruct s as [|c s]; simpl; [reflexivity | apply IH].
Qed.

(** A successful [indexOf] of a non-empty needle returns a position at or
    after the start index and inside the string. *)
Lemma indexOf_bounds needle s from k :
  truthy needle = true ->
  indexOf needle s from = Some k -> from <= k /\ k < String.length s.
Proof.
  intros Hn. unfold indexOf. intros Hf.
  pose proof (find_from_lower _ _ _ _ Hf) as Hlo.
  pose proof (find_from_upper _ _ _ _ Hn Hf) as Hhi.
  rewrite length_drop in Hhi. lia.
Qed.

End JsFacts.

(** ** Format resolver *)

Module FormatRouterProofs.
Import FormatRouter.

(** A key that names no member of [Object.prototype]. *)
Definition plain (key : string) : Prop := key ∉ object_prototype_names.

Lemma object_get_plain {A} (table : gmap string A) key :
  plain key -> object_get table key = Val <$> (table !! key).
Proof.
  intros Hp. unfold object_get. destruct (table !! key); [reflexivity|].
  rewrite bool_decide_eq_false_2; [reflexivity | exact Hp].
Qed.

Lemma MIME_TO_RENDERER_keys_truthy m k :
  MIME_TO_RENDERER !! m = Some k -> truthy m = true.
Proof. destruct m; [vm_compute; discriminate | reflexivity]. Qed.

Section WithPlatform.
Context `{Platform}.

(** The value of the local [resolvedMime]. *)
Definition resolvedMime (src : DocumentSource) (mimeType : option string)
    : option (js string) :=
  match mimeType with
  | Some m => Some (Val m)
  | None => inferMimeType src
  end.

(** An explicit mime type that is mapped decides the key, whatever the
    source is. *)
Lemma getRendererKey_explicit_mime src m k ocr :
  MIME_TO_RENDERER !! m = Some k ->
  getRendererKey src (Some m) ocr
  = {| rendererKey := ocr_variant (Val k) ocr; mimeType := Some (Val m) |}.
Proof.
  intros Hk. unfold getRendererKey. cbn [truthy_mime renderer_of_mime].
  rewrite (MIME_TO_RENDERER_keys_truthy _ _ Hk).
  unfold object_get. rewrite Hk. reflexivity.
Qed.

(** Without an explicit mime type, the declared type of a binary source
    decides when it is mapped. *)
Lemma getRendererKey_blob_type type k ocr :
  MIME_TO_RENDERER !! type = Some k ->
  getRendererKey (SrcBlob type) None ocr
  = {| rendererKey := ocr_variant (Val k) ocr; mimeType := Some (Val type) |}.
Proof.
  intros Hk. unfold getRendererKey, inferMimeType.
  rewrite (MIME_TO_RENDERER_keys_truthy _ _ Hk).
  cbn [truthy_mime renderer_of_mime].
  rewrite (MIME_TO_RENDERER_keys_truthy _ _ Hk).
  unfold object_get. rewrite Hk. reflexivity.
Qed.

(** When neither the resolved mime type, nor the extension of a URL, nor
    the declared type of a binary source reaches an entry of the tables
    or a member of their prototype, the key is ["unsupported"] and the
    resolved mime type is passed through. *)
Lemma getRendererKey_unsupported src mimeType ocr :
  (forall m, resolvedMime src mimeType = Some (Val m) ->
             object_get MIME_TO_RENDERER m = None) ->
  (forall s, src = SrcUrl s ->
             object_get EXT_TO_RENDERER (source_extension s) = None) ->
  (forall t, src = SrcBlob t -> object_get MIME_TO_RENDERER t = None) ->
  getRendererKey src mimeType ocr
  = {| rendererKey := Val unsupported;
       FormatRouter.mimeType := resolvedMime src mimeType |}.
Proof.
  intros Hmime Hext Hblob. unfold getRendererKey.
  fold (resolvedMime src mimeType).
  assert (Hfallback :
    match src with
    | SrcUrl s =>
        match (if truthy (source_extension s)
               then object_get EXT_TO_RENDERER (source_extension s)
               else None) with
        | Some key =>
            {| rendererKey := ocr_variant key ocr;
               FormatRouter.mimeType :=
                 match object_get EXT_TO_MIME (source_extension s) with
                 | Some m => Some m
                 | None => resolvedMime src mimeType
                 end |}
        | None => {| rendererKey := Val unsupported;
                     FormatRouter.mimeType := resolvedMime src mimeType |}
        end
    | SrcBlob type =>
        match (if truthy type then object_get MIME_TO_RENDERER type else None) with
        | Some key => {| rendererKey := ocr_variant key ocr;
                         FormatRouter.mimeType := Some (Val type) |}
        | None => {| rendererKey := Val unsupported;
                     FormatRouter.mimeType := resolvedMime src mimeType |}
        end
    end
    = {| rendererKey := Val unsupported;
         FormatRouter.mimeType := resolvedMime src mimeType |}).
  { destruct src as [s|t].
    - rewrite (Hext s eq_refl). now destruct (truthy _).
    - rewrite (Hblob t eq_refl). now destruct (truthy _). }
  rewrite Hfallback.
  destruct (resolvedMime src mimeType) as [[m|name]|] eqn:Hr; [| |reflexivity].
  - cbn [truthy_mime renderer_of_mime]. rewrite (Hmime m eq_refl).
    now destruct (truthy m).
  - reflexivity.
Qed.

(** C3.  The resolver is a total function, and so returns one selection
    for each combination of source and hints; but the selection is not
    always one of the five renderer keys.  The tables are object literals
    and are read with [table[key]], which also finds the members
    inherited from [Object.prototype]: for the explicit mime type
    ["constructor"], which no table maps, the resolver does not return
    ["unsupported"] but the inherited [constructor] function as the
    renderer key. *)
Theorem getRendererKey_inherited_member src ocr :
  MIME_TO_RENDERER !! "constructor" = None /\
  getRendererKey src (Some "constructor") ocr
  = {| rendererKey := Proto "constructor";
       FormatRouter.mimeType := Some (Val "constructor") |}.
Proof. split; reflexivity. Qed.

End WithPlatform.

(** The cases of the test suite of the resolver, on the reference platform. *)
Section Tests.
Import ReferencePlatform.

Example pdf_url :
  getRendererKey (SrcUrl "https://example.com/doc.pdf") None false
  = {| rendererKey := Val pdf; mimeType := Some (Val "application/pdf") |}.
Proof. reflexivity. Qed.

Example pdf_url_ocr :
  getRendererKey (SrcUrl "https://example.com/doc.pdf") None true
  = {| rendererKey := Val pdf_ocr; mimeType := Some (Val "application/pdf") |}.
Proof. reflexivity. Qed.

Example relative_docx_url :
  rendererKey (getRendererKey (SrcUrl "/path/to/doc.docx") None false) = Val docx.
Proof. reflexivity. Qed.

Example unknown_extension :
  getRendererKey (SrcUrl "https://example.com/file.xyz") None false
  = {| rendererKey := Val unsupported; mimeType := None |}.
Proof. reflexivity. Qed.

Example unknown_mime :
  getRendererKey (SrcUrl "https://example.com/x") (Some "application/unknown") false
  = {| rendererKey := Val unsupported;
       mimeType := Some (Val "application/unknown") |}.
Proof. reflexivity. Qed.

Example pdf_blob_ocr :
  getRendererKey (SrcBlob "application/pdf") None true
  = {| rendererKey := Val pdf_ocr; mimeType := Some (Val "application/pdf") |}.
Proof. reflexivity. Qed.

(** The same lookup through the extension of a URL. *)
Example inherited_member_by_extension :
  getRendererKey (SrcUrl "https://example.com/file.constructor") None false
  = {| rendererKey := Proto "constructor";
       mimeType := Some (Proto "constructor") |}.
Proof. reflexivity. Qed.
End Tests.

End FormatRouterProofs.

(** ** Conversion failures *)

Module ConversionProofs.
Import FormatRouter ConversionWorker DocumentViewer JsFacts.

Definition declaredType (res : Response) : string := default "" (contentType res).

Definition isPdf (res : Response) : bool := includes "application/pdf" (declaredType res).
Definition isJson (res : Response) : bool := includes "application/json" (declaredType res).

(** The three kinds of failing response: a non-success status, a success
    status with a content type that is neither PDF nor JSON, a success
    status with a PDF content type and an empty body. *)
Inductive failing (res : Response) : Prop :=
| failing_status : ok res = false -> failing res
| failing_content_type : ok res = true -> isPdf res = false -> isJson res = false -> failing res
| failing_empty_pdf : ok res = true -> isPdf res = true -> blob_size res = 0 -> failing res.

Definition serverError : Response :=
  {| status := 500; statusText := "Internal Server Error"; text := "bad file";
     contentType := Some "text/plain"; blob_size := 8; json := JsonSyntaxError "Unexpected token" |}.

Definition htmlPage : Response :=
  {| status := 200; statusText := "OK"; text := "<html></html>";
     contentType := Some "text/html"; blob_size := 13; json := JsonSyntaxError "Unexpected token" |}.

Definition docProps : Props :=
  {| src := SrcBlob "application/msword"; mimeType := None; enableOCR := false;
     conversionWorkerUrl := Some "http://localhost:3333/convert";
     onRequestPdfConversion := false; onConversionError := true |}.

(** C2, as stated, fails at two inputs.  A response with status 200 and
    content type [text/html] is rejected with a message that does not
    contain the status, although the response carries one.  And when the
    run of the effect has been cancelled before the response with status
    500 arrives, [onConversionError] is not invoked at all. *)
Lemma worker_failure_counterexample :
  (failing htmlPage /\
   exists message, convertViaWorker htmlPage "blob:1" = Rejected message
                   /\ includes "200" message = false) /\
  (failing serverError /\
   reportedErrors (workerResponded docProps true serverError "blob:1" initial) = []).
Proof.
  split; split.
  - apply failing_content_type; reflexivity.
  - eexists. split; reflexivity.
  - apply failing_status. reflexivity.
  - reflexivity.
Qed.

(** C2, amended.  Each failing response makes [convertViaWorker] reject:
    for a non-success status the message contains the status and the
    response text (the status text when the body is empty); for an
    unexpected content type the message names the content type; for an
    empty PDF body the message is fixed.  When the rejection reaches a run
    of the effect that has not been cancelled, the message becomes the
    conversion error and [onConversionError], when supplied, is invoked
    exactly once; a cancelled run changes nothing. *)
Theorem worker_failure_reported (p : Props) (res : Response) (objectUrl : string)
    (s : Shell) :
  failing res ->
  exists message,
    convertViaWorker res objectUrl = Rejected message
    /\ (ok res = false ->
        includes (string_of_nat (status res)) message = true
        /\ includes (if truthy (text res) then text res else statusText res) message = true)
    /\ (ok res = true -> isPdf res = false ->
        message = "Unexpected response type: " +:+ declaredType res)
    /\ (ok res = true -> isPdf res = true ->
        message = "Conversion failed: worker returned empty PDF.")
    /\ conversionError (workerResponded p false res objectUrl s) = Some message
    /\ reportedErrors (workerResponded p false res objectUrl s)
       = (reportedErrors s ++ if onConversionError p then [message] else [])%list
    /\ convertedPdfUrl (workerResponded p false res objectUrl s) = convertedPdfUrl s
    /\ workerResponded p true res objectUrl s = s.
Proof.
  intros Hfail. unfold workerResponded.
  destruct Hfail as [Hok | Hok Hpdf Hjson | Hok Hpdf Hsize].
  - eexists. unfold convertViaWorker. rewrite Hok. cbn [negb].
    split; [reflexivity|]. split.
    { intros _. split.
      - apply includes_app.
      - do 2 rewrite <- app_assoc. apply includes_app. }
    split; [intros Hok'; congruence|].
    split; [intros Hok'; congruence|].
    cbn [workerSettled negb conversionError reportedErrors convertedPdfUrl].
    repeat split. destruct (onConversionError p);
      [reflexivity | now rewrite List.app_nil_r].
  - eexists. unfold convertViaWorker. rewrite Hok. cbn [negb].
    fold (declaredType res). fold (isPdf res). fold (isJson res).
    rewrite Hpdf, Hjson.
    split; [reflexivity|].
    split; [intros Hok'; congruence|].
    split; [intros _ _; reflexivity|].
    split; [intros _ Hpdf'; congruence|].
    cbn [workerSettled negb conversionError reportedErrors convertedPdfUrl].
    repeat split. destruct (onConversionError p);
      [reflexivity | now rewrite List.app_nil_r].
  - eexists. unfold convertViaWorker. rewrite Hok. cbn [negb].
    fold (declaredType res). fold (isPdf res).
    rewrite Hpdf, Hsize. cbn [Nat.eqb].
    split; [reflexivity|].
    split; [intros Hok'; congruence|].
    split; [intros _ Hpdf'; congruence|].
    split; [intros _ _; reflexivity|].
    cbn [workerSettled negb conversionError reportedErrors convertedPdfUrl].
    repeat split. destruct (onConversionError p);
      [reflexivity | now rewrite List.app_nil_r].
Qed.

(** The scenario of the specification: status 500 with body ["bad file"]. *)
Lemma worker_failure_reported_witness :
  failing serverError /\
  exists message,
    convertViaWorker serverError "blob:1" = Rejected message
    /\ includes "500" message = true
    /\ includes "bad file" message = true
    /\ reportedErrors (workerResponded docProps false serverError "blob:1" initial)
       = [message].
Proof.
  assert (Hf : failing serverError) by (apply failing_status; reflexivity).
  split; [exact Hf|].
  destruct (worker_failure_reported docProps serverError "blob:1" initial Hf)
    as (message & Hrej & Hstatus & _ & _ & _ & Hrep & _).
  exists message. destruct (Hstatus eq_refl) as [H500 Hbody].
  repeat split; assumption.
Defined.

(** Which sources reach the conversion at all: a legacy Word document is
    routed to the office renderer and converted, a [.docx] document is
    routed to its own renderer and never sent to the worker. *)
Section Routing.
Import ReferencePlatform.

Example msword_blob_is_converted : conversionStarts docProps = true.
Proof. reflexivity. Qed.

Example docx_blob_is_not_converted :
  conversionStarts
    {| src := SrcBlob "application/vnd.openxmlformats-officedocument.wordprocessingml.document";
       mimeType := None; enableOCR := false;
       conversionWorkerUrl := Some "http://localhost:3333/convert";
       onRequestPdfConversion := false; onConversionError := true |}
  = false.
Proof. reflexivity. Qed.

End Routing.

End ConversionProofs.

(** ** Zoom *)

Module ZoomProofs.
Import PdfRenderer.
Local Open Scope Q_scope.

Lemma Qltb_true a b : Qltb a b = true <-> a < b.
Proof.
  unfold Qltb. rewrite negb_true_iff, <- not_true_iff_false, Qle_bool_iff.
  split; [apply Qnot_le_lt | apply Qlt_not_le].
Qed.

Lemma Qltb_false a b : Qltb a b = false <-> b <= a.
Proof. unfold Qltb. now rewrite negb_false_iff, Qle_bool_iff. Qed.

(** Case analysis on every comparison the goal performs. *)
Ltac zoom_cases :=
  repeat match goal with
    | |- context [Qltb ?a ?b] =>
        let E := fresh "E" in
        destruct (Qltb a b) eqn:E;
        [apply Qltb_true in E | apply Qltb_false in E]
    end.

(** Case analysis on membership in a list given by its elements. *)
Ltac split_in H :=
  repeat (destruct H as [<- | H]; [| try (now destruct H)]).

Ltac min_max_cases :=
  repeat match goal with
    | |- context [Qmin ?a ?b] =>
        destruct (Q.min_spec a b) as [[? ->] | [? ->]]
    | |- context [Qmax ?a ?b] =>
        destruct (Q.max_spec a b) as [[? ->] | [? ->]]
    end.

Lemma rev_ZOOM_STEPS : rev ZOOM_STEPS = [3; 2; 1.5; 1.25; 1; 0.75; 0.5].
Proof. reflexivity. Qed.

Lemma handleZoomIn_least z p :
  In p ZOOM_STEPS -> z + 0.01 < p ->
  In (handleZoomIn z) ZOOM_STEPS /\ z + 0.01 < handleZoomIn z /\ handleZoomIn z <= p.
Proof.
  intros Hin Hp. unfold handleZoomIn, ZOOM_STEPS in *. cbn [find].
  zoom_cases; split_in Hin;
    first [ exfalso; lra | split; [simpl; tauto | split; lra] ].
Qed.

Lemma handleZoomIn_beyond z :
  (forall p, In p ZOOM_STEPS -> p <= z + 0.01) ->
  handleZoomIn z == Qmin (z + 0.25) 5.
Proof.
  intros Hall. unfold handleZoomIn.
  destruct (find _ ZOOM_STEPS) as [q|] eqn:Hfind; [|reflexivity].
  apply find_some in Hfind as [Hin Hq]. apply Qltb_true in Hq.
  specialize (Hall q Hin). lra.
Qed.

Lemma handleZoomOut_greatest z p :
  In p ZOOM_STEPS -> p < z - 0.01 ->
  In (handleZoomOut z) ZOOM_STEPS /\ handleZoomOut z < z - 0.01 /\ p <= handleZoomOut z.
Proof.
  intros Hin Hp. unfold handleZoomOut. rewrite rev_ZOOM_STEPS.
  unfold ZOOM_STEPS in *. cbn [find].
  zoom_cases; split_in Hin;
    first [ exfalso; lra | split; [simpl; tauto | split; lra] ].
Qed.

Lemma handleZoomOut_beyond z :
  (forall p, In p ZOOM_STEPS -> z - 0.01 <= p) ->
  handleZoomOut z == Qmax (z - 0.25) 0.25.
Proof.
  intros Hall. unfold handleZoomOut.
  destruct (find _ (rev ZOOM_STEPS)) as [q|] eqn:Hfind; [|reflexivity].
  apply find_some in Hfind as [Hin Hq]. apply Qltb_true in Hq.
  apply in_rev in Hin. specialize (Hall q Hin). lra.
Qed.

Lemma handleZoomIn_bounds z : z <= 5 -> z <= handleZoomIn z <= 5.
Proof.
  intros Hhi. unfold handleZoomIn, ZOOM_STEPS. cbn [find].
  zoom_cases; min_max_cases; lra.
Qed.

Lemma handleZoomOut_bounds z : 0.25 <= z -> 0.25 <= handleZoomOut z <= z.
Proof.
  intros Hlo. unfold handleZoomOut. rewrite rev_ZOOM_STEPS. cbn [find].
  zoom_cases; min_max_cases; lra.
Qed.

(** Stepping yields a positive multiplier from any multiplier. *)
Lemma handleZoomIn_positive z : 0 < handleZoomIn z.
Proof.
  unfold handleZoomIn, ZOOM_STEPS. cbn [find].
  zoom_cases; min_max_cases; lra.
Qed.

Lemma handleZoomOut_positive z : 0 < handleZoomOut z.
Proof.
  unfold handleZoomOut. rewrite rev_ZOOM_STEPS. cbn [find].
  zoom_cases; min_max_cases; lra.
Qed.

(** C6, as stated, fails at [z = 0.495]: the smallest step strictly
    greater than [z] is [0.5], but zoom-in compares the steps with
    [z + 0.01] and returns [0.75]. *)
Lemma zoom_in_counterexample :
  0.25 <= 0.495 <= 5
  /\ In 0.5 ZOOM_STEPS /\ 0.495 < 0.5
  /\ (forall p, In p ZOOM_STEPS -> 0.495 < p -> 0.5 <= p)
  /\ handleZoomIn 0.495 = 0.75
  /\ ~ 0.75 == 0.5.
Proof.
  split; [split; lra|]. split; [simpl; tauto|]. split; [lra|].
  split; [|split; [reflexivity | lra]].
  intros p Hin Hp. unfold ZOOM_STEPS in Hin. split_in Hin; lra.
Qed.

(** C6, amended.  For a multiplier [z] in [[0.25, 5]], zoom-in returns the
    smallest step greater than [z + 0.01] when there is one and otherwise
    [min(z + 0.25, 5)]; zoom-out returns the largest step smaller than
    [z - 0.01] when there is one and otherwise [max(z - 0.25, 0.25)];
    zoom-in does not decrease and zoom-out does not increase the
    multiplier, and both results stay in [[0.25, 5]]. *)
Theorem zoom_stepping z :
  0.25 <= z <= 5 ->
  (forall p, In p ZOOM_STEPS -> z + 0.01 < p ->
     In (handleZoomIn z) ZOOM_STEPS /\ z + 0.01 < handleZoomIn z
     /\ handleZoomIn z <= p)
  /\ ((forall p, In p ZOOM_STEPS -> p <= z + 0.01) ->
      handleZoomIn z == Qmin (z + 0.25) 5)
  /\ (forall p, In p ZOOM_STEPS -> p < z - 0.01 ->
        In (handleZoomOut z) ZOOM_STEPS /\ handleZoomOut z < z - 0.01
        /\ p <= handleZoomOut z)
  /\ ((forall p, In p ZOOM_STEPS -> z - 0.01 <= p) ->
      handleZoomOut z == Qmax (z - 0.25) 0.25)
  /\ z <= handleZoomIn z <= 5
  /\ 0.25 <= handleZoomOut z <= z.
Proof.
  intros [Hlo Hhi].
  split; [apply handleZoomIn_least|].
  split; [apply handleZoomIn_beyond|].
  split; [apply handleZoomOut_greatest|].
  split; [apply handleZoomOut_beyond|].
  split; [now apply handleZoomIn_bounds | now apply handleZoomOut_bounds].
Qed.

(** From 100 %, one zoom-in gives 125 %; from 300 %, further zoom-ins add
    0.25 each until the bound of 500 % holds them. *)
Lemma zoom_stepping_witness :
  0.25 <= 1 <= 5
  /\ handleZoomIn 1 = 1.25
  /\ handleZoomIn 3 == 3.25
  /\ Nat.iter 7 handleZoomIn 3 == 4.75
  /\ Nat.iter 8 handleZoomIn 3 == 5
  /\ Nat.iter 9 handleZoomIn 3 == 5
  /\ 1 <= handleZoomIn 1 <= 5
  /\ 0.25 <= handleZoomOut 1 <= 1.
Proof.
  assert (Hz : 0.25 <= 1 <= 5) by (split; lra).
  destruct (zoom_stepping 1 Hz) as (_ & _ & _ & _ & Hin & Hout).
  split; [exact Hz|]. split; [reflexivity|].
  do 4 (split; [vm_compute; reflexivity|]).
  split; assumption.
Defined.

(** In [custom] mode the multiplier stays positive: every step and every
    selected value is positive. *)
Lemma custom_zoom_positive (events : list ZoomEvent) (s : ZoomState) :
  0 < zoom s -> Forall zoom_event_ok events ->
  0 < zoom (fold_left zoom_step events s).
Proof.
  revert s. induction events as [|e events IH]; intros s Hs Hok; [exact Hs|].
  apply Forall_cons_iff in Hok as [He Hok]. cbn [fold_left]. apply IH; [|exact Hok].
  destruct e; cbn [zoom_step zoom];
    [apply handleZoomIn_positive | apply handleZoomOut_positive
    | exact He | exact Hs | now destruct (zoomMode s)].
Qed.

(** In [pageFit] mode the derived multiplier is positive exactly when the
    container is wider than the padding. *)
Lemma pageFit_zoom_positive z width :
  0 < width ->
  (0 < effectiveZoom {| zoom := z; zoomMode := pageFit; containerWidth := width |}
   <-> 48 < width).
Proof.
  intros Hw. unfold effectiveZoom. cbn [zoomMode containerWidth zoom].
  apply Qltb_true in Hw. rewrite Hw. unfold A4_WIDTH_PX.
  split.
  - intros Hpos. destruct (Qlt_le_dec 48 width) as [|Hle]; [assumption|].
    exfalso. assert (Hq : (width - 48) / 794 <= 0).
    { apply Qle_shift_div_r; lra. }
    revert Hpos. min_max_cases; lra.
  - intros Hwide. assert (Hq : 0 < (width - 48) / 794).
    { apply Qlt_shift_div_l; lra. }
    min_max_cases; lra.
Qed.

(** C7.  Positivity of the effective zoom fails on the code: after mount
    in [pageFit] mode, once the resize observer reports a container 30
    pixels wide, a positive width, the effective zoom is [(30 - 48) / 794],
    a negative number.  The guard of [effectiveZoom] tests [containerWidth > 0] and
    not whether the width exceeds the padding of 48 pixels. *)
Theorem page_fit_zoom_not_positive :
  Forall zoom_event_ok [Resized 30]
  /\ zoomMode (zoom_run 1 [Resized 30]) = pageFit
  /\ 0 < containerWidth (zoom_run 1 [Resized 30])
  /\ effectiveZoom (zoom_run 1 [Resized 30]) == -18 / 794
  /\ effectiveZoom (zoom_run 1 [Resized 30]) < 0.
Proof.
  split; [repeat constructor; simpl; lra|].
  split; [reflexivity|]. split; [reflexivity|].
  split; reflexivity.
Qed.

End ZoomProofs.

(** ** Search: cancellation, ordering of the match list, navigation *)

Module SearchProofs.
Import PdfRenderer.

(** What a search publishes: the match list, the active index, and the
    scrolls (with the current page they set). *)
Definition published (s : Viewer) : list nat * Z * list nat * nat :=
  (searchMatches s, searchIndex s, scrolls s, currentPage s).

Definition ascending (pages : list nat) : Prop := StronglySorted lt pages.

(** The local state of a run: its matches are ascending pages already
    visited, and a suspended run awaits a page of the document. *)
Record run_ok (r : SearchRun) : Prop := {
  run_ascending : ascending (run_matches r);
  run_visited : Forall (fun p => 1 <= p < run_pageNum r) (run_matches r);
  run_started : 1 <= run_pageNum r;
  run_awaits : run_status r = Running -> run_pageNum r <= run_numPages r
}.

Record inv (s : Viewer) : Prop := {
  inv_ascending : ascending (searchMatches s);
  inv_pages : Forall (fun p => 1 <= p) (searchMatches s);
  inv_runs : forall i r, runs s !! i = Some r -> run_ok r;
  inv_live : forall i r, runs s !! i = Some r -> run_cancelled r = false ->
             activeRun s = Some i /\ S i = length (runs s);
  inv_numPages : forall i r, runs s !! i = Some r -> run_cancelled r = false ->
                 numPages s = Some (run_numPages r)
}.

Lemma ascending_snoc pages page :
  ascending pages -> Forall (fun p => p < page) pages -> ascending (pages ++ [page]).
Proof.
  unfold ascending. induction pages as [|p pages IH]; intros Hs Hlt; simpl.
  - repeat constructor.
  - apply StronglySorted_inv in Hs as [Hs Hp].
    apply Forall_cons_iff in Hlt as [Hpp Hlt].
    constructor; [now apply IH|].
    apply Forall_app. split; [exact Hp | now repeat constructor].
Qed.

Lemma ascending_NoDup pages : ascending pages -> NoDup pages.
Proof.
  unfold ascending. induction 1 as [|p pages Hs IH Hp]; constructor; [|exact IH].
  intros Hin. rewrite Forall_forall in Hp. specialize (Hp p Hin). lia.
Qed.

Lemma inv_initial : inv initial.
Proof.
  split; simpl; try (intros i r Hr; now rewrite lookup_nil in Hr).
  - constructor.
  - constructor.
Qed.

Lemma scrollToPage_inv page s : inv s -> inv (scrollToPage page s).
Proof.
  intros [H1 H2 H4 H5 H6]. unfold scrollToPage.
  destruct (pageMounted s page); split; assumption.
Qed.

Lemma scrollToMatch_inv matches i s : inv s -> inv (scrollToMatch matches i s).
Proof.
  intros Hs. unfold scrollToMatch. destruct (at_index matches i); [|exact Hs].
  now apply scrollToPage_inv.
Qed.

Lemma set_index_inv index s : inv s -> inv (set_index index s).
Proof. intros [H1 H2 H4 H5 H6]. split; assumption. Qed.

(** The functions of an API object, whichever render made it, write the
    index and scroll; the invariant does not mention either. *)
Lemma apiNextMatch_inv api s : inv s -> inv (apiNextMatch api s).
Proof.
  intros Hs. unfold apiNextMatch.
  destruct (Z.of_nat (length (api_searchMatches api)) =? 0)%Z; [exact Hs|].
  now apply scrollToMatch_inv, set_index_inv.
Qed.

Lemma apiPrevMatch_inv api s : inv s -> inv (apiPrevMatch api s).
Proof.
  intros Hs. unfold apiPrevMatch.
  destruct (Z.of_nat (length (api_searchMatches api)) =? 0)%Z; [exact Hs|].
  now apply scrollToMatch_inv, set_index_inv.
Qed.

Lemma nextMatch_inv s : inv s -> inv (nextMatch s).
Proof. apply (apiNextMatch_inv (viewerApi s)). Qed.

Lemma prevMatch_inv s : inv s -> inv (prevMatch s).
Proof. apply (apiPrevMatch_inv (viewerApi s)). Qed.

Lemma cancel_ok r : run_ok r -> run_ok (cancel r).
Proof. intros [H1 H2 H3 H4]. split; assumption. Qed.

(** After the cleanup no run is live. *)
Lemma searchCleanup_cancels s :
  (forall i r, runs s !! i = Some r -> run_cancelled r = false -> activeRun s = Some i) ->
  forall i r, runs (searchCleanup s) !! i = Some r -> run_cancelled r = true.
Proof.
  intros Hlive i r. unfold searchCleanup.
  destruct (activeRun s) as [a|] eqn:Ha; cbn [runs set_runs].
  - destruct (decide (a = i)) as [->|Hne].
    + rewrite list_lookup_alter_eq. destruct (runs s !! i); [|discriminate].
      intros [= <-]. reflexivity.
    + rewrite list_lookup_alter_ne by exact Hne. intros Hr.
      destruct (run_cancelled r) eqn:Hc; [reflexivity|].
      specialize (Hlive i r Hr Hc). congruence.
  - intros Hr. destruct (run_cancelled r) eqn:Hc; [reflexivity|].
    specialize (Hlive i r Hr Hc). discriminate.
Qed.

Lemma searchCleanup_runs_ok s :
  (forall i r, runs s !! i = Some r -> run_ok r) ->
  forall i r, runs (searchCleanup s) !! i = Some r -> run_ok r.
Proof.
  intros Hok i r. unfold searchCleanup.
  destruct (activeRun s) as [a|]; cbn [runs set_runs]; [|apply Hok].
  destruct (decide (a = i)) as [->|Hne].
  - rewrite list_lookup_alter_eq. destruct (runs s !! i) as [r0|] eqn:Hr0; [|discriminate].
    intros [= <-]. apply cancel_ok. now apply (Hok i).
  - rewrite list_lookup_alter_ne by exact Hne. apply Hok.
Qed.

Lemma searchCleanup_published s : published (searchCleanup s) = published s.
Proof. unfold searchCleanup. now destruct (activeRun s). Qed.

Lemma searchCleanup_length s : length (runs (searchCleanup s)) = length (runs s).
Proof.
  unfold searchCleanup. destruct (activeRun s); [|reflexivity].
  cbn [runs set_runs]. apply length_alter.
Qed.

Section WithPlatform.
Context `{Platform}.

(** The effect re-runs on a state whose page count or query has just
    changed; what it needs of that state does not mention them. *)
Lemma rerunSearchEffect_inv s :
  ascending (searchMatches s) ->
  Forall (fun p => 1 <= p) (searchMatches s) ->
  (forall i r, runs s !! i = Some r -> run_ok r) ->
  (forall i r, runs s !! i = Some r -> run_cancelled r = false ->
               activeRun s = Some i) ->
  inv (rerunSearchEffect s).
Proof.
  intros Hasc Hpages Hruns Hlive. unfold rerunSearchEffect.
  pose proof (searchCleanup_cancels s Hlive) as Hcancelled.
  pose proof (searchCleanup_runs_ok s Hruns) as Hok.
  pose proof (searchCleanup_published s) as Hpub.
  unfold published in Hpub. injection Hpub as Hm Hi _ _.
  set (c := searchCleanup s) in *.
  assert (Hcleared : inv (set_runs (runs c) None (set_search [] 0%Z c))).
  { split; cbn [searchMatches searchIndex runs activeRun numPages set_runs set_search].
    - constructor.
    - constructor.
    - exact Hok.
    - intros i r Hr Hc. rewrite (Hcancelled i r Hr) in Hc. discriminate.
    - intros i r Hr Hc. rewrite (Hcancelled i r Hr) in Hc. discriminate. }
  unfold searchEffect. destruct (numPages c) as [[|n]|] eqn:Hn; try exact Hcleared.
  destruct (truthy _ && pdfLoaded c); [|exact Hcleared].
  split; cbn [searchMatches searchIndex runs activeRun numPages set_runs].
  - now rewrite Hm.
  - now rewrite Hm.
  - intros i r Hr. apply lookup_app_Some in Hr as [Hr | [_ Hr]]; [now apply (Hok i)|].
    apply list_lookup_singleton_Some in Hr as [_ <-].
    split; cbn; [constructor | constructor | lia | lia].
  - intros i r Hr Hc. apply lookup_app_Some in Hr as [Hr | [Hge Hr]].
    + rewrite (Hcancelled i r Hr) in Hc. discriminate.
    + apply list_lookup_singleton_Some in Hr as [Hi0 _].
      rewrite length_app. simpl. split; [f_equal|]; lia.
  - intros i r Hr Hc. apply lookup_app_Some in Hr as [Hr | [Hge Hr]].
    + rewrite (Hcancelled i r Hr) in Hc. discriminate.
    + apply list_lookup_singleton_Some in Hr as [_ <-]. exact Hn.
Qed.

Lemma pageSettled_inv i items s : inv s -> inv (pageSettled i items s).
Proof.
  intros Hs. unfold pageSettled.
  destruct (runs s !! i) as [r|] eqn:Hr; [|exact Hs].
  pose proof (inv_runs s Hs i r Hr) as [Hasc Hvis Hst1 Haw].
  assert (Hi : i < length (runs s)) by (eapply lookup_lt_Some; eassumption).
  destruct (run_status r) eqn:Hst; try exact Hs.
  destruct items as [its|].
  - set (matches := if pageMatches (run_query r) its
                    then (run_matches r ++ [run_pageNum r])%list else run_matches r).
    set (r' := {| run_query := run_query r; run_numPages := run_numPages r;
                  run_pageNum := run_pageNum r + 1; run_matches := matches;
                  run_cancelled := run_cancelled r;
                  run_status := if negb (run_pageNum r + 1 <=? run_numPages r)
                                then Finished else Running |}).
    assert (Hmasc : ascending matches).
    { subst matches. destruct (pageMatches _ _); [|exact Hasc].
      apply ascending_snoc; [exact Hasc|].
      eapply Forall_impl; [exact Hvis|]. simpl. intros; lia. }
    assert (Hmvis : Forall (fun p => 1 <= p < run_pageNum r + 1) matches).
    { subst matches. destruct (pageMatches _ _).
      - apply Forall_app. split.
        + eapply Forall_impl; [exact Hvis|]. simpl. intros; lia.
        + repeat constructor; lia.
      - eapply Forall_impl; [exact Hvis|]. simpl. intros; lia. }
    assert (Hr'ok : run_ok r').
    { split; cbn [run_matches run_pageNum run_status run_numPages r'];
        [exact Hmasc | exact Hmvis | lia |].
      destruct (Nat.leb_spec (run_pageNum r + 1) (run_numPages r));
        cbn [negb]; [intros _; lia | discriminate]. }
    assert (Hs' : inv (set_runs (<[i := r']> (runs s)) (activeRun s) s)).
    { destruct Hs as [H1 H2 H4 H5 H6].
      split; cbn [searchMatches searchIndex runs activeRun numPages set_runs];
        try assumption.
      - intros j rj Hj. destruct (decide (i = j)) as [<-|Hne].
        + rewrite list_lookup_insert_eq in Hj by exact Hi. now injection Hj as <-.
        + rewrite list_lookup_insert_ne in Hj by exact Hne. now apply (H4 j).
      - intros j rj Hj Hc. rewrite length_insert.
        destruct (decide (i = j)) as [<-|Hne].
        + rewrite list_lookup_insert_eq in Hj by exact Hi. injection Hj as <-.
          now apply (H5 i r).
        + rewrite list_lookup_insert_ne in Hj by exact Hne. now apply (H5 j rj).
      - intros j rj Hj Hc. destruct (decide (i = j)) as [<-|Hne].
        + rewrite list_lookup_insert_eq in Hj by exact Hi. injection Hj as <-.
          now apply (H6 i r).
        + rewrite list_lookup_insert_ne in Hj by exact Hne. now apply (H6 j rj). }
    fold matches. fold r'.
    destruct (negb (run_pageNum r + 1 <=? run_numPages r) && negb (run_cancelled r));
      [|exact Hs'].
    assert (Hcommitted :
      inv (set_search matches 0%Z (set_runs (<[i := r']> (runs s)) (activeRun s) s))).
    { destruct Hs' as [H1 H2 H4 H5 H6].
      split; cbn [searchMatches searchIndex runs activeRun numPages set_runs set_search]
               in *; try assumption.
      eapply Forall_impl; [exact Hmvis|]. simpl. intros; lia. }
    destruct matches; [exact Hcommitted | now apply scrollToPage_inv].
  - destruct Hs as [H1 H2 H4 H5 H6].
    split; cbn [searchMatches searchIndex runs activeRun numPages set_runs];
      try assumption.
    + intros j rj Hj. destruct (decide (i = j)) as [<-|Hne].
      * rewrite list_lookup_insert_eq in Hj by exact Hi. injection Hj as <-.
        split; cbn; [exact Hasc | exact Hvis | exact Hst1 | discriminate].
      * rewrite list_lookup_insert_ne in Hj by exact Hne. now apply (H4 j).
    + intros j rj Hj Hc. rewrite length_insert.
      destruct (decide (i = j)) as [<-|Hne].
      * rewrite list_lookup_insert_eq in Hj by exact Hi. injection Hj as <-.
        now apply (H5 i r).
      * rewrite list_lookup_insert_ne in Hj by exact Hne. now apply (H5 j rj).
    + intros j rj Hj Hc. destruct (decide (i = j)) as [<-|Hne].
      * rewrite list_lookup_insert_eq in Hj by exact Hi. injection Hj as <-.
        now apply (H6 i r).
      * rewrite list_lookup_insert_ne in Hj by exact Hne. now apply (H6 j rj).
Qed.

Lemma step_inv s e : inv s -> inv (step s e).
Proof.
  intros Hs. destruct e as [q|pages|i items| | |page|api|api]; cbn [step].
  - destruct (String.eqb q (searchQuery s)); [exact Hs|].
    destruct Hs as [H1 H2 H4 H5 H6].
    apply rerunSearchEffect_inv; cbn; try assumption.
    intros i r Hr Hc. now apply (H5 i r).
  - destruct Hs as [H1 H2 H4 H5 H6]. case_bool_decide as Hn.
    + split; cbn; try assumption. intros i r Hr Hc. rewrite <- Hn. now apply (H6 i r).
    + apply rerunSearchEffect_inv; cbn; try assumption.
      intros i r Hr Hc. now apply (H5 i r).
  - now apply pageSettled_inv.
  - now apply nextMatch_inv.
  - now apply prevMatch_inv.
  - now apply scrollToPage_inv.
  - now apply apiNextMatch_inv.
  - now apply apiPrevMatch_inv.
Qed.

Lemma exec_snoc events e : exec (events ++ [e]) = step (exec events) e.
Proof. unfold exec. now rewrite fold_left_app. Qed.

Lemma reachable_inv s : reachable s -> inv s.
Proof.
  intros [events ->]. induction events as [|e events IH] using rev_ind.
  - apply inv_initial.
  - rewrite exec_snoc. now apply step_inv.
Qed.

Lemma reachable_step s e : reachable s -> reachable (step s e).
Proof. intros [events ->]. exists (events ++ [e])%list. now rewrite exec_snoc. Qed.


Lemma scrollToPage_matches page s :
  searchMatches (scrollToPage page s) = searchMatches s
  /\ searchIndex (scrollToPage page s) = searchIndex s
  /\ runs (scrollToPage page s) = runs s
  /\ numPages (scrollToPage page s) = numPages s.
Proof. unfold scrollToPage. now destruct (pageMounted s page). Qed.

Lemma scrollToMatch_search matches i s :
  searchMatches (scrollToMatch matches i s) = searchMatches s
  /\ searchIndex (scrollToMatch matches i s) = searchIndex s.
Proof.
  unfold scrollToMatch. destruct (at_index matches i); [|now split].
  now destruct (scrollToPage_matches n s) as (-> & -> & _).
Qed.

(** A call of the host never writes the match list. *)
Lemma host_call_matches api s :
  searchMatches (apiNextMatch api s) = searchMatches s
  /\ searchMatches (apiPrevMatch api s) = searchMatches s.
Proof.
  unfold apiNextMatch, apiPrevMatch.
  destruct (Z.of_nat (length (api_searchMatches api)) =? 0)%Z; [now split|].
  split; now rewrite (proj1 (scrollToMatch_search _ _ _)).
Qed.

Lemma searchEffect_runs c i :
  i < length (runs c) -> runs (searchEffect c) !! i = runs c !! i.
Proof.
  intros Hi. unfold searchEffect.
  destruct (numPages c) as [[|n]|]; try reflexivity.
  destruct (truthy _ && pdfLoaded c); [|reflexivity].
  cbn [runs set_runs]. now apply lookup_app_l.
Qed.

Lemma rerunSearchEffect_matches s :
  searchMatches (rerunSearchEffect s) = searchMatches s
  \/ searchMatches (rerunSearchEffect s) = [].
Proof.
  unfold rerunSearchEffect, searchEffect.
  pose proof (searchCleanup_published s) as Hpub.
  unfold published in Hpub. injection Hpub as Hm _ _ _.
  destruct (numPages (searchCleanup s)) as [[|n]|]; try (now right).
  destruct (truthy _ && pdfLoaded _); [now left | now right].
Qed.

(** Every run that was started before a change of the query (or of the
    page count) is cancelled by the change. *)
Lemma rerunSearchEffect_supersedes s i r :
  (forall j rj, runs s !! j = Some rj -> run_cancelled rj = false ->
                activeRun s = Some j) ->
  runs (rerunSearchEffect s) !! i = Some r -> i < length (runs s) ->
  run_cancelled r = true.
Proof.
  intros Hlive Hr Hi. unfold rerunSearchEffect in Hr.
  rewrite searchEffect_runs in Hr by now rewrite searchCleanup_length.
  now apply (searchCleanup_cancels s Hlive i).
Qed.

(** A settled page of a cancelled run publishes nothing. *)
Lemma cancelled_run_silent s i r items :
  runs s !! i = Some r -> run_cancelled r = true ->
  published (pageSettled i items s) = published s.
Proof.
  intros Hr Hc. unfold pageSettled. rewrite Hr.
  destruct (run_status r); try reflexivity.
  destruct items; [|reflexivity].
  rewrite Hc. cbn [negb]. now rewrite andb_false_r.
Qed.

(** C1.  In every reachable state, a run other than the one started last
    is cancelled; setting a new query (or loading a document with a new
    page count) cancels every run started before; and a page that
    settles for a cancelled run leaves the match list, the active index,
    the scrolls and the current page as they are, whether the run is at
    its last page or not.  Hence only the run started last can publish. *)
Theorem superseded_search_never_publishes s :
  reachable s ->
  (forall i r, runs s !! i = Some r -> S i <> length (runs s) ->
               run_cancelled r = true)
  /\ (forall q i r, q <> searchQuery s ->
        runs (step s (SetSearchQuery q)) !! i = Some r ->
        i < length (runs s) -> run_cancelled r = true)
  /\ (forall pages i r, numPages s <> Some pages ->
        runs (step s (DocumentLoaded pages)) !! i = Some r ->
        i < length (runs s) -> run_cancelled r = true)
  /\ (forall i r items, runs s !! i = Some r -> run_cancelled r = true ->
        published (step s (PageSettled i items)) = published s).
Proof.
  intros Hreach. pose proof (reachable_inv s Hreach) as Hinv.
  split; [|split; [|split]].
  - intros i r Hr Hlast. destruct (run_cancelled r) eqn:Hc; [reflexivity|].
    destruct (inv_live s Hinv i r Hr Hc) as [_ Hlen]. contradiction.
  - intros q i r Hq Hr Hi. cbn [step] in Hr.
    apply String.eqb_neq in Hq. rewrite Hq in Hr.
    eapply rerunSearchEffect_supersedes; [|exact Hr|exact Hi].
    intros j rj Hj Hc. now apply (inv_live s Hinv j rj).
  - intros pages i r Hn Hr Hi. cbn [step] in Hr.
    rewrite bool_decide_eq_false_2 in Hr by exact Hn.
    eapply rerunSearchEffect_supersedes; [|exact Hr|exact Hi].
    intros j rj Hj Hc. now apply (inv_live s Hinv j rj).
  - intros i r items Hr Hc. now apply cancelled_run_silent with (r := r).
Qed.

(** When a settled page changes the match list, the new list holds pages
    of the run that committed it, which is live. *)
Lemma pageSettled_matches i items s :
  searchMatches (pageSettled i items s) = searchMatches s
  \/ exists r, runs s !! i = Some r /\ run_cancelled r = false
               /\ run_status r = Running
               /\ numPages (pageSettled i items s) = numPages s
               /\ (run_ok r ->
                   Forall (fun p => 1 <= p <= run_numPages r)
                          (searchMatches (pageSettled i items s))).
Proof.
  unfold pageSettled. destruct (runs s !! i) as [r|] eqn:Hr; [|now left].
  destruct (run_status r) eqn:Hst; try (now left).
  destruct items as [its|]; [|now left].
  destruct (Nat.leb_spec (run_pageNum r + 1) (run_numPages r)) as [|Hlast];
    cbn [negb andb]; [now left|].
  destruct (run_cancelled r) eqn:Hc; cbn [negb]; [now left|].
  right. exists r. split; [reflexivity|]. split; [exact Hc|]. split; [exact Hst|].
  set (matches := if pageMatches (run_query r) its
                  then (run_matches r ++ [run_pageNum r])%list else run_matches r).
  assert (Hbound : run_ok r -> Forall (fun p => 1 <= p <= run_numPages r) matches).
  { intros [_ Hvis Hst1 Haw]. specialize (Haw Hst). subst matches.
    destruct (pageMatches _ _).
    - apply Forall_app. split.
      + eapply Forall_impl; [exact Hvis|]. simpl. intros; lia.
      + repeat constructor; lia.
    - eapply Forall_impl; [exact Hvis|]. simpl. intros; lia. }
  destruct matches as [|first rest] eqn:Hm.
  - split; [reflexivity|]. intros _. constructor.
  - destruct (scrollToPage_matches first
                (set_search (first :: rest) 0%Z
                   (set_runs (<[i := {| run_query := run_query r;
                                        run_numPages := run_numPages r;
                                        run_pageNum := run_pageNum r + 1;
                                        run_matches := first :: rest;
                                        run_cancelled := false;
                                        run_status := Finished |}]> (runs s))
                             (activeRun s) s)))
      as (-> & _ & _ & ->).
    split; [reflexivity|]. exact Hbound.
Qed.

(** A run the effect starts has scanned nothing yet. *)
Lemma rerunSearchEffect_new_run s r :
  runs (rerunSearchEffect s) !! length (runs s) = Some r ->
  run_matches r = [] /\ run_pageNum r = 1
  /\ run_cancelled r = false /\ run_status r = Running.
Proof.
  unfold rerunSearchEffect. rewrite <- (searchCleanup_length s).
  set (c := searchCleanup s). unfold searchEffect.
  assert (Hnone : runs c !! length (runs c) = Some r -> False).
  { intros Hr. apply lookup_lt_Some in Hr. lia. }
  destruct (numPages c) as [[|n]|]; cbn [runs set_runs set_search];
    try (intros Hr; now destruct (Hnone Hr)).
  destruct (truthy _ && pdfLoaded c); cbn [runs set_runs set_search];
    [|intros Hr; now destruct (Hnone Hr)].
  rewrite lookup_app_r by lia. rewrite Nat.sub_diag. cbn.
  intros [= <-]. now repeat split.
Qed.

(** C4.  In every reachable state the match list is strictly ascending,
    hence free of duplicates, and holds page numbers from 1 on; and
    whenever a transition changes the list, every page of the new list
    is one of the pages [1..numPages] of the document.  The list is
    computed anew for each query: the run a new query starts begins at page
    1 with no matches, and its commit replaces the list as a whole. *)
Theorem committed_matches_ascending s :
  reachable s ->
  ascending (searchMatches s)
  /\ NoDup (searchMatches s)
  /\ Forall (fun p => 1 <= p) (searchMatches s)
  /\ (forall e, searchMatches (step s e) <> searchMatches s ->
        Forall (fun p => pageMounted (step s e) p = true)
               (searchMatches (step s e)))
  /\ (forall q r, q <> searchQuery s ->
        runs (step s (SetSearchQuery q)) !! length (runs s) = Some r ->
        run_matches r = [] /\ run_pageNum r = 1).
Proof.
  intros Hreach. pose proof (reachable_inv s Hreach) as Hinv.
  split; [exact (inv_ascending s Hinv)|].
  split; [exact (ascending_NoDup _ (inv_ascending s Hinv))|].
  split; [exact (inv_pages s Hinv)|].
  split; cycle 1.
  { intros q r Hq Hr. cbn [step] in Hr. apply String.eqb_neq in Hq. rewrite Hq in Hr.
    destruct (rerunSearchEffect_new_run (set_query q s) r Hr) as (Hm & Hp & _).
    now split. }
  intros e Hchanged.
  destruct e as [q|pages|i items| | |page|api|api]; cbn [step] in *.
  - destruct (String.eqb q (searchQuery s)); [contradiction|].
    destruct (rerunSearchEffect_matches (set_query q s)) as [Hm|Hm];
      [contradiction | rewrite Hm; constructor].
  - case_bool_decide; [contradiction|].
    destruct (rerunSearchEffect_matches (set_document pages s)) as [Hm|Hm];
      [contradiction | rewrite Hm; constructor].
  - destruct (pageSettled_matches i items s)
      as [Hm | (r & Hr & Hc & Hst & Hn & Hbound)]; [contradiction|].
    specialize (Hbound (inv_runs s Hinv i r Hr)).
    pose proof (inv_numPages s Hinv i r Hr Hc) as Hpages.
    eapply Forall_impl; [exact Hbound|]. intros p [Hlo Hhi].
    unfold pageMounted. rewrite Hn, Hpages.
    apply andb_true_intro. split; apply Nat.leb_le; assumption.
  - exfalso. apply Hchanged. unfold nextMatch.
    destruct (matchCount s =? 0)%Z; [reflexivity|]. unfold scrollToMatch.
    destruct (at_index _ _); [|reflexivity].
    now destruct (scrollToPage_matches n (set_index
      (Z.rem (searchIndex s + 1) (matchCount s)) s)) as (-> & _).
  - exfalso. apply Hchanged. unfold prevMatch.
    destruct (matchCount s =? 0)%Z; [reflexivity|]. unfold scrollToMatch.
    destruct (at_index _ _); [|reflexivity].
    now destruct (scrollToPage_matches n (set_index
      (Z.rem (searchIndex s - 1 + matchCount s) (matchCount s)) s)) as (-> & _).
  - exfalso. apply Hchanged. now destruct (scrollToPage_matches page s) as (-> & _).
  - exfalso. apply Hchanged. apply (host_call_matches api s).
  - exfalso. apply Hchanged. apply (host_call_matches api s).
Qed.


Lemma nextMatch_search s :
  (0 < matchCount s)%Z -> (0 <= searchIndex s)%Z ->
  searchMatches (nextMatch s) = searchMatches s
  /\ searchIndex (nextMatch s) = ((searchIndex s + 1) mod matchCount s)%Z.
Proof.
  intros Hn Hi. unfold nextMatch.
  destruct (Z.eqb_spec (matchCount s) 0); [lia|].
  destruct (scrollToMatch_search (searchMatches s)
              (Z.rem (searchIndex s + 1) (matchCount s))
              (set_index (Z.rem (searchIndex s + 1) (matchCount s)) s))
    as [-> ->].
  split; [reflexivity|]. cbn [searchIndex set_index set_search].
  apply Z.rem_mod_nonneg; lia.
Qed.

Lemma prevMatch_search s :
  (0 < matchCount s)%Z -> (0 <= searchIndex s)%Z ->
  searchMatches (prevMatch s) = searchMatches s
  /\ searchIndex (prevMatch s) = ((searchIndex s - 1) mod matchCount s)%Z.
Proof.
  intros Hn Hi. unfold prevMatch.
  destruct (Z.eqb_spec (matchCount s) 0); [lia|].
  destruct (scrollToMatch_search (searchMatches s)
              (Z.rem (searchIndex s - 1 + matchCount s) (matchCount s))
              (set_index (Z.rem (searchIndex s - 1 + matchCount s) (matchCount s)) s))
    as [-> ->].
  split; [reflexivity|]. cbn [searchIndex set_index set_search].
  rewrite Z.rem_mod_nonneg by lia.
  replace (searchIndex s - 1 + matchCount s)%Z
    with (searchIndex s - 1 + 1 * matchCount s)%Z by lia.
  apply Z.mod_add. lia.
Qed.

(** [k] presses of next-match advance the index by [k] modulo the match
    count. *)
Lemma nextMatch_iter k s :
  (0 <= searchIndex s < matchCount s)%Z ->
  searchMatches (Nat.iter k nextMatch s) = searchMatches s
  /\ searchIndex (Nat.iter k nextMatch s)
     = ((searchIndex s + Z.of_nat k) mod matchCount s)%Z.
Proof.
  intros Hi. induction k as [|k [IHm IHi]].
  - split; [reflexivity|]. cbn [Nat.iter nat_rect]. rewrite Z.add_0_r.
    symmetry. apply Z.mod_small. exact Hi.
  - cbn [Nat.iter nat_rect]. fold (Nat.iter k nextMatch s).
    set (t := Nat.iter k nextMatch s) in *.
    assert (Hcount : matchCount t = matchCount s)
      by (unfold matchCount; now rewrite IHm).
    assert (Hpos : (0 <= searchIndex t)%Z).
    { rewrite IHi. apply Z.mod_pos_bound. lia. }
    destruct (nextMatch_search t) as [Hm Hx]; [lia | exact Hpos |].
    split; [now rewrite Hm|].
    rewrite Hx, Hcount, IHi, Zplus_mod_idemp_l. f_equal. lia.
Qed.

(** *** The active index *)

(** The active index points into the match list, and is 0 when the list
    is empty. *)
Definition index_valid (s : Viewer) : Prop :=
  (0 <= searchIndex s < Z.max 1 (matchCount s))%Z.

(** A call by the host of a function of the API object it holds. *)
Definition host_call (e : Event) : bool :=
  match e with
  | HostNextMatch _ | HostPrevMatch _ => true
  | _ => false
  end.

Lemma rerunSearchEffect_index s :
  index_valid s -> index_valid (rerunSearchEffect s).
Proof.
  unfold index_valid, matchCount, rerunSearchEffect, searchEffect. intros Hi.
  pose proof (searchCleanup_published s) as Hpub.
  unfold published in Hpub. injection Hpub as Hm Hx _ _.
  destruct (numPages (searchCleanup s)) as [[|n]|]; cbn; try lia.
  destruct (truthy _ && pdfLoaded _); cbn; [now rewrite Hm, Hx | lia].
Qed.

Lemma pageSettled_index i items s :
  index_valid s -> index_valid (pageSettled i items s).
Proof.
  intros Hi. unfold pageSettled.
  destruct (runs s !! i) as [r|]; [|exact Hi].
  destruct (run_status r); try exact Hi.
  destruct items as [its|]; [|exact Hi].
  destruct (negb _ && negb _); [|exact Hi].
  destruct (if pageMatches (run_query r) its
            then (run_matches r ++ [run_pageNum r])%list else run_matches r)
    as [|first rest]; unfold index_valid, matchCount.
  - cbn. lia.
  - match goal with
    | |- context [scrollToPage first ?t] =>
        destruct (scrollToPage_matches first t) as (-> & -> & _)
    end.
    cbn. lia.
Qed.

Lemma nextMatch_index s : index_valid s -> index_valid (nextMatch s).
Proof.
  unfold index_valid, nextMatch. intros Hi.
  destruct (Z.eqb_spec (matchCount s) 0) as [|Hn]; [exact Hi|].
  unfold matchCount in *.
  match goal with
  | |- context [scrollToMatch ?m ?i ?t] =>
      destruct (scrollToMatch_search m i t) as [-> ->]
  end.
  cbn [searchMatches searchIndex set_index set_search].
  pose proof (Z.rem_bound_pos (searchIndex s + 1)
                (Z.of_nat (length (searchMatches s)))). lia.
Qed.

Lemma prevMatch_index s : index_valid s -> index_valid (prevMatch s).
Proof.
  unfold index_valid, prevMatch. intros Hi.
  destruct (Z.eqb_spec (matchCount s) 0) as [|Hn]; [exact Hi|].
  unfold matchCount in *.
  match goal with
  | |- context [scrollToMatch ?m ?i ?t] =>
      destruct (scrollToMatch_search m i t) as [-> ->]
  end.
  cbn [searchMatches searchIndex set_index set_search].
  pose proof (Z.rem_bound_pos
                (searchIndex s - 1 + Z.of_nat (length (searchMatches s)))
                (Z.of_nat (length (searchMatches s)))). lia.
Qed.

(** Every transition other than a call by the host keeps the index
    within the match list. *)
Lemma step_index_valid s e :
  host_call e = false -> index_valid s -> index_valid (step s e).
Proof.
  intros He Hi. destruct e as [q|pages|i items| | |page|api|api];
    try discriminate He; cbn [step].
  - destruct (String.eqb q (searchQuery s)); [exact Hi|].
    now apply rerunSearchEffect_index.
  - case_bool_decide; [exact Hi|]. now apply rerunSearchEffect_index.
  - now apply pageSettled_index.
  - now apply nextMatch_index.
  - now apply prevMatch_index.
  - unfold index_valid, matchCount.
    now destruct (scrollToPage_matches page s) as (-> & -> & _).
Qed.

Lemma exec_index_valid events :
  Forall (fun e => host_call e = false) events -> index_valid (exec events).
Proof.
  induction events as [|e events IH] using rev_ind; intros Hevents.
  - unfold index_valid, matchCount. cbn. lia.
  - apply Forall_app in Hevents as [Hevents He].
    apply Forall_cons in He as [He _].
    rewrite exec_snoc. apply step_index_valid; [exact He | now apply IH].
Qed.

(** The handlers of a render called in the state of that render, as the
    buttons of the toolbar call them, on a state whose index is within
    the match list: with no matches they leave the state as it is; with
    at least one match they move the index by one modulo the match count
    and keep the list, and next-match applied match-count times brings
    the index back to where it was. *)
Lemma toolbar_navigation_circular s :
  index_valid s ->
  (matchCount s = 0%Z -> nextMatch s = s /\ prevMatch s = s)
  /\ ((1 <= matchCount s)%Z ->
      (0 <= searchIndex s < matchCount s)%Z
      /\ searchIndex (nextMatch s) = ((searchIndex s + 1) mod matchCount s)%Z
      /\ searchIndex (prevMatch s) = ((searchIndex s - 1) mod matchCount s)%Z
      /\ searchMatches (nextMatch s) = searchMatches s
      /\ searchMatches (prevMatch s) = searchMatches s
      /\ searchIndex (Nat.iter (length (searchMatches s)) nextMatch s)
         = searchIndex s).
Proof.
  intros Hi. unfold index_valid in Hi.
  split.
  - intros Hz. unfold nextMatch, prevMatch. now rewrite Hz.
  - intros Hn. assert (Hvalid : (0 <= searchIndex s < matchCount s)%Z) by lia.
    destruct (nextMatch_search s) as [Hnm Hni]; [lia | lia |].
    destruct (prevMatch_search s) as [Hpm Hpi]; [lia | lia |].
    destruct (nextMatch_iter (length (searchMatches s)) s Hvalid) as [_ Hiter].
    repeat split; try assumption; try lia.
    rewrite Hiter. fold (matchCount s).
    replace (searchIndex s + matchCount s)%Z
      with (searchIndex s + 1 * matchCount s)%Z by lia.
    rewrite Z.mod_add by lia. apply Z.mod_small. exact Hvalid.
Qed.

(** With matches present and the index within the list, the page of the
    active match, which the renderer highlights as active, is one of the
    matches. *)
Lemma activeMatchPage_valid s :
  index_valid s -> searchMatches s <> [] ->
  exists page, activeMatchPage (searchMatches s) (searchIndex s) = Some page
               /\ page ∈ searchMatches s.
Proof.
  intros Hi Hne.
  unfold index_valid, matchCount in Hi. unfold activeMatchPage, at_index.
  destruct (searchMatches s) as [|first rest] eqn:Hm; [contradiction|].
  cbn [length Nat.ltb Nat.leb]. destruct (Z.ltb_spec (searchIndex s) 0); [lia|].
  destruct (lookup_lt_is_Some_2 (first :: rest) (Z.to_nat (searchIndex s)))
    as [page Hpage]; [cbn [length] in *; lia|].
  exists page. split; [exact Hpage|]. eapply list_elem_of_lookup_2. exact Hpage.
Qed.

(** The pages a scan starting at [pageNum] finds in the texts of the
    consecutive pages. *)
Fixpoint scanPages (query : string) (pageNum : nat)
    (texts : list (list (option string))) : list nat :=
  match texts with
  | [] => []
  | items :: rest =>
      ((if pageMatches query items then [pageNum] else [])
       ++ scanPages query (S pageNum) rest)%list
  end.

(** The successive extractions of a run all succeeding. *)
Definition settleAll (i : nat) (texts : list (list (option string))) : list Event :=
  map (fun items => PageSettled i (Some items)) texts.

(** A failed run is over: whatever settles for it later is ignored. *)
Lemma failed_run_ignored s i r later :
  runs s !! i = Some r -> run_status r = Failed ->
  fold_left step (map (PageSettled i) later) s = s.
Proof.
  intros Hr Hst. induction later as [|items later IH]; [reflexivity|].
  cbn [map fold_left].
  replace (step s (PageSettled i items)) with s; [exact IH|].
  cbn [step]. unfold pageSettled. now rewrite Hr, Hst.
Qed.

(** A live run whose remaining extractions all succeed scans every
    remaining page and commits the matches of the whole document. *)
Lemma run_completes texts : forall s i r,
  runs s !! i = Some r -> run_status r = Running -> run_cancelled r = false ->
  texts <> [] -> run_pageNum r + length texts = S (run_numPages r) ->
  let s' := fold_left step (settleAll i texts) s in
  searchMatches s'
  = (run_matches r ++ scanPages (run_query r) (run_pageNum r) texts)%list
  /\ searchIndex s' = 0%Z
  /\ exists r', runs s' !! i = Some r' /\ run_status r' = Finished.
Proof.
  induction texts as [|items rest IH]; intros s i r Hr Hst Hc Hne Hlen;
    [contradiction|].
  assert (Hi : i < length (runs s)) by (eapply lookup_lt_Some; eassumption).
  cbv zeta. cbn [settleAll map fold_left scanPages]. fold (settleAll i rest).
  set (matches := if pageMatches (run_query r) items
                  then (run_matches r ++ [run_pageNum r])%list else run_matches r).
  assert (Hmatches : forall tail,
            (matches ++ tail
             = run_matches r
               ++ (if pageMatches (run_query r) items then [run_pageNum r] else [])
               ++ tail)%list).
  { intros tail. subst matches.
    destruct (pageMatches _ _); [now rewrite <- List.app_assoc | reflexivity]. }
  destruct rest as [|items' rest].
  - cbn [length] in Hlen.
    set (r' := {| run_query := run_query r; run_numPages := run_numPages r;
                  run_pageNum := run_pageNum r + 1; run_matches := matches;
                  run_cancelled := false; run_status := Finished |}).
    set (s1 := set_search matches 0%Z
                 (set_runs (<[i := r']> (runs s)) (activeRun s) s)).
    assert (Hstep : step s (PageSettled i (Some items))
                    = match matches with
                      | first :: _ => scrollToPage first s1
                      | [] => s1
                      end).
    { cbn [step]. unfold pageSettled. rewrite Hr, Hst, Hc.
      destruct (Nat.leb_spec (run_pageNum r + 1) (run_numPages r)); [lia|].
      reflexivity. }
    rewrite Hstep. cbn [settleAll map fold_left scanPages].
    rewrite <- Hmatches, List.app_nil_r.
    assert (Hfinal : forall t : Viewer,
              searchMatches t = matches -> searchIndex t = 0%Z ->
              runs t = <[i := r']> (runs s) ->
              searchMatches t = matches /\ searchIndex t = 0%Z
              /\ exists r'', runs t !! i = Some r'' /\ run_status r'' = Finished).
    { intros t Hm Hx Hruns. split; [exact Hm|]. split; [exact Hx|].
      exists r'. rewrite Hruns, list_lookup_insert_eq by exact Hi. now split. }
    destruct matches as [|first more] eqn:Hmeq.
    + now apply Hfinal.
    + destruct (scrollToPage_matches first s1) as (Hm & Hx & Hruns & _).
      apply Hfinal; [now rewrite Hm | now rewrite Hx | now rewrite Hruns].
  - cbn [length] in Hlen.
    set (r' := {| run_query := run_query r; run_numPages := run_numPages r;
                  run_pageNum := run_pageNum r + 1; run_matches := matches;
                  run_cancelled := run_cancelled r; run_status := Running |}).
    set (s1 := set_runs (<[i := r']> (runs s)) (activeRun s) s).
    assert (Hstep : step s (PageSettled i (Some items)) = s1).
    { cbn [step]. unfold pageSettled. rewrite Hr, Hst.
      destruct (Nat.leb_spec (run_pageNum r + 1) (run_numPages r)); [|lia].
      reflexivity. }
    rewrite Hstep.
    destruct (IH s1 i r') as (Hm & Hx & Hfin).
    + subst s1. cbn [runs set_runs]. now apply list_lookup_insert_eq.
    + reflexivity.
    + exact Hc.
    + discriminate.
    + cbn [run_pageNum run_numPages r' length] in *. lia.
    + cbn [run_matches run_query run_pageNum r'] in Hm.
      replace (run_pageNum r + 1) with (S (run_pageNum r)) in Hm by lia.
      split; [|split; [exact Hx | exact Hfin]].
      rewrite Hm. apply Hmatches.
Qed.

(** C8, amended.  When the extraction of a page fails, the run ends
    there: nothing is published, the run is marked failed, and whatever
    settles for it afterwards is ignored, so the remaining pages are not
    scanned and the run never commits.  When the remaining extractions of
    a live run all succeed, every remaining page is scanned in ascending
    order and the run commits exactly the matching pages, with the active
    index at 0.  When no pages are available, the search effect commits
    the empty match list and index 0 without starting a run. *)
Theorem page_failure_ends_run s i r :
  runs s !! i = Some r -> run_status r = Running ->
  (published (step s (PageSettled i None)) = published s
   /\ (exists r', runs (step s (PageSettled i None)) !! i = Some r'
                  /\ run_status r' = Failed)
   /\ (forall later,
         fold_left step (map (PageSettled i) later) (step s (PageSettled i None))
         = step s (PageSettled i None)))
  /\ (forall texts,
        run_cancelled r = false -> texts <> [] ->
        run_pageNum r + length texts = S (run_numPages r) ->
        searchMatches (fold_left step (settleAll i texts) s)
        = (run_matches r ++ scanPages (run_query r) (run_pageNum r) texts)%list
        /\ searchIndex (fold_left step (settleAll i texts) s) = 0%Z)
  /\ (forall s0, numPages s0 = None \/ numPages s0 = Some 0 ->
        searchMatches (searchEffect s0) = []
        /\ searchIndex (searchEffect s0) = 0%Z
        /\ runs (searchEffect s0) = runs s0
        /\ activeRun (searchEffect s0) = None).
Proof.
  intros Hr Hst.
  assert (Hi : i < length (runs s)) by (eapply lookup_lt_Some; eassumption).
  assert (Hfailed : exists r', runs (step s (PageSettled i None)) !! i = Some r'
                               /\ run_status r' = Failed).
  { cbn [step]. unfold pageSettled. rewrite Hr, Hst. cbn [runs set_runs].
    eexists. rewrite list_lookup_insert_eq by exact Hi. now split. }
  split; [|split].
  - split; [|split; [exact Hfailed|]].
    + cbn [step]. unfold pageSettled. now rewrite Hr, Hst.
    + intros later. destruct Hfailed as (r' & Hr' & Hst').
      now apply failed_run_ignored with (r := r').
  - intros texts Hc Hne Hlen.
    destruct (run_completes texts s i r Hr Hst Hc Hne Hlen) as (Hm & Hx & _).
    now split.
  - intros s0 [Hn | Hn]; unfold searchEffect; rewrite Hn; now repeat split.
Qed.

End WithPlatform.

(** *** Scenarios on the reference platform *)

Section Scenarios.
Import ReferencePlatform.

(** The query "market" is replaced by "budget" while the first search
    has scanned one of two pages. *)
Definition marketThenBudget : list Event :=
  [ DocumentLoaded 2;
    SetSearchQuery "market";
    PageSettled 0 (Some [Some "Market "; Some "report"]);
    SetSearchQuery "budget" ].

Lemma superseded_search_never_publishes_witness :
  reachable (exec marketThenBudget)
  /\ published (step (exec marketThenBudget)
                    (PageSettled 0 (Some [Some "market share"])))
     = published (exec marketThenBudget)
  /\ searchMatches (exec (marketThenBudget ++
                          [ PageSettled 0 (Some [Some "market share"]);
                            PageSettled 1 (Some [Some "Budget"]);
                            PageSettled 1 (Some [Some "bud"; Some "get"]) ]))
     = [1; 2].
Proof.
  assert (Hreach : reachable (exec marketThenBudget)) by (now eexists).
  split; [exact Hreach|]. split; [|reflexivity].
  destruct (superseded_search_never_publishes _ Hreach) as (_ & _ & _ & Hsilent).
  eapply Hsilent; reflexivity.
Defined.

Definition searchedTwoPages : list Event :=
  [ DocumentLoaded 3;
    SetSearchQuery "a";
    PageSettled 0 (Some [Some "A"]);
    PageSettled 0 (Some [Some "b"]);
    PageSettled 0 (Some [None; Some "xa"]) ].

Lemma committed_matches_ascending_witness :
  reachable (exec searchedTwoPages)
  /\ searchMatches (exec searchedTwoPages) = [1; 3]
  /\ ascending (searchMatches (exec searchedTwoPages))
  /\ NoDup (searchMatches (exec searchedTwoPages)).
Proof.
  assert (Hreach : reachable (exec searchedTwoPages)) by (now eexists).
  split; [exact Hreach|]. split; [reflexivity|].
  destruct (committed_matches_ascending _ Hreach) as (Hasc & Hnodup & _).
  split; assumption.
Defined.

(** The toolbar on the two matches of [searchedTwoPages]. *)
Example toolbar_navigation_example :
  matchCount (exec searchedTwoPages) = 2%Z
  /\ searchIndex (nextMatch (exec searchedTwoPages)) = 1%Z
  /\ searchIndex (prevMatch (exec searchedTwoPages)) = 1%Z
  /\ searchIndex (Nat.iter 2 nextMatch (exec searchedTwoPages))
     = searchIndex (exec searchedTwoPages).
Proof.
  split; [reflexivity|].
  assert (Hvalid : index_valid (exec searchedTwoPages))
    by (apply exec_index_valid; repeat constructor).
  destruct (toolbar_navigation_circular _ Hvalid) as [_ Hnav].
  assert (Hcount : (1 <= matchCount (exec searchedTwoPages))%Z)
    by (vm_compute; discriminate).
  destruct (Hnav Hcount) as (_ & Hnext & Hprev & _ & _ & Hiter).
  split; [exact Hnext|]. split; [exact Hprev | exact Hiter].
Qed.

(** The query "a" is found on both pages of a document. *)
Definition foundOnBothPages : list Event :=
  [ DocumentLoaded 2;
    SetSearchQuery "a";
    PageSettled 0 (Some [Some "a"]);
    PageSettled 0 (Some [Some "ab"]) ].

(** The query becomes "b", which only page 2 contains. *)
Definition narrowedToOnePage : list Event :=
  [ SetSearchQuery "b";
    PageSettled 1 (Some [Some "a"]);
    PageSettled 1 (Some [Some "ab"]) ].

(** C5.  The functions [nextMatch] and [prevMatch] that the host is handed
    do not navigate circularly over the matches of the viewer: they are
    the closures of the one render whose API object was delivered and
    keep the match list and the index of that render.
    (1) When [onViewerReady] is supplied from the first render, the host
    holds the API of the first render; after a search has found pages 1
    and 3, with the active index 0, its [nextMatch] and [prevMatch] leave
    the state as it is, where the button of the toolbar moves the index
    to 1.
    (2) When [onViewerReady] is first supplied while pages 1 and 2 match,
    the host holds the API of that render; after a new query has left the
    single match on page 2, with the active index 0, its [nextMatch] sets
    the index to 1 although there is one match only: the index does not
    point into the match list and no page is the active match. *)
Theorem stale_api_breaks_match_navigation :
  (PdfControls.deliveries
     (fold_left PdfControls.viewerReadyEffect
        [(Some 0, initial); (Some 0, exec searchedTwoPages)]
        PdfControls.ready_initial)
   = [(0, viewerApi initial)]
   /\ searchMatches (exec searchedTwoPages) = [1; 3]
   /\ searchIndex (exec searchedTwoPages) = 0%Z
   /\ step (exec searchedTwoPages) (HostNextMatch (viewerApi initial))
      = exec searchedTwoPages
   /\ step (exec searchedTwoPages) (HostPrevMatch (viewerApi initial))
      = exec searchedTwoPages
   /\ searchIndex (step (exec searchedTwoPages) NextMatch) = 1%Z)
  /\ (let captured := exec foundOnBothPages in
      let current := exec (foundOnBothPages ++ narrowedToOnePage) in
      let after := step current (HostNextMatch (viewerApi captured)) in
      PdfControls.deliveries
        (fold_left PdfControls.viewerReadyEffect
           [(None, initial); (Some 0, captured); (Some 0, current)]
           PdfControls.ready_initial)
      = [(0, viewerApi captured)]
      /\ searchMatches captured = [1; 2]
      /\ searchIndex captured = 0%Z
      /\ searchMatches current = [2]
      /\ searchIndex current = 0%Z
      /\ searchMatches after = [2]
      /\ matchCount after = 1%Z
      /\ searchIndex after = 1%Z
      /\ ~ index_valid after
      /\ activeMatchPage (searchMatches after) (searchIndex after) = None).
Proof.
  split.
  - repeat split; reflexivity.
  - cbv zeta. repeat split; try reflexivity.
    unfold index_valid. vm_compute. intros [_ Hlt]. discriminate.
Qed.

(** Two pages; the extraction of page 1 fails, page 2 contains the query. *)
Definition firstPageFails : list Event :=
  [ DocumentLoaded 2;
    SetSearchQuery "a";
    PageSettled 0 None;
    PageSettled 0 (Some [Some "a"]) ].

(** C8, as stated, fails: page 2 matches the query and its extraction
    succeeds, yet after the failure on page 1 the run is over, page 2 is
    never scanned and no match list is committed. *)
Lemma page_failure_counterexample :
  pageMatches "a" [Some "a"] = true
  /\ searchMatches (exec firstPageFails) = []
  /\ scrolls (exec firstPageFails) = []
  /\ (run_status <$> runs (exec firstPageFails) !! 0) = Some Failed
  /\ (run_pageNum <$> runs (exec firstPageFails) !! 0) = Some 1.
Proof. repeat split; reflexivity. Qed.

Definition searchStarted : Viewer := exec [DocumentLoaded 2; SetSearchQuery "a"].

Lemma page_failure_ends_run_witness :
  (exists r, runs searchStarted !! 0 = Some r /\ run_status r = Running)
  /\ published (step searchStarted (PageSettled 0 None)) = published searchStarted
  /\ searchMatches (fold_left step
                      (settleAll 0 [[Some "b"]; [Some "xA"; None]]) searchStarted)
     = [2].
Proof.
  assert (Hrun : exists r, runs searchStarted !! 0 = Some r /\ run_status r = Running)
    by (eexists; split; reflexivity).
  split; [exact Hrun|]. destruct Hrun as (r & Hr & Hst).
  destruct (page_failure_ends_run searchStarted 0 r Hr Hst)
    as ((Hpub & _ & _) & Hall & _).
  split; [exact Hpub|].
  injection Hr as <-.
  destruct (Hall [[Some "b"]; [Some "xA"; None]]) as [Hm _];
    [reflexivity | discriminate | reflexivity | exact Hm].
Defined.

End Scenarios.
End SearchProofs.

(** ** External links *)

Module LinkProofs.
Import PdfRenderer.

Section WithPlatform.
Context `{Platform}.

(** The listener intercepts a click on an anchor exactly when the
    [href] attribute is not empty and resolves, against the location of
    the page, to a URL with one of the three protocols. *)
Lemma onClick_intercepts location attribute href :
  onClick location (Some attribute) = OpenedInNewContext href
  <-> attribute = Some href /\ truthy href = true
      /\ exists protocol, url_protocol href location = Some protocol
                          /\ protocol ∈ EXTERNAL_LINK_PROTOCOLS.
Proof.
  unfold onClick, isExternalLinkHref. cbv zeta. split.
  - destruct attribute as [a|]; [|discriminate].
    destruct (truthy a) eqn:Ha; [|discriminate]. rewrite Ha. cbn [negb].
    destruct (url_protocol a location) as [p|] eqn:Hp; [|discriminate].
    case_bool_decide as Hin; [|discriminate].
    intros [= <-]. split; [reflexivity|]. split; [exact Ha|]. now exists p.
  - intros (-> & Ht & p & Hp & Hin). rewrite !Ht. cbn [negb]. rewrite Hp.
    now rewrite bool_decide_eq_true_2.
Qed.

(** A relative reference is intercepted as soon as the page itself is
    served over one of the three protocols. *)
Lemma relative_href_intercepted location href protocol :
  truthy href = true -> url_protocol href location = Some protocol ->
  protocol ∈ EXTERNAL_LINK_PROTOCOLS ->
  onClick location (Some (Some href)) = OpenedInNewContext href.
Proof. intros Ht Hp Hin. apply onClick_intercepts. eauto. Qed.
End WithPlatform.

Import ReferencePlatform.

(** C9.  That only external links are intercepted fails on the code: on a
    page served from [https://example.com/viewer], the document-internal
    anchor [#page=3]
    resolves against the location of the page to a URL whose protocol is
    [https:], so the listener suppresses the default navigation and opens
    the reference in a new browsing context.  The same anchor on a page
    opened from a file falls through. *)
Theorem internal_anchor_intercepted :
  url_protocol "#page=3" "https://example.com/viewer" = Some "https:"
  /\ isExternalLinkHref "https://example.com/viewer" "#page=3" = true
  /\ onClick "https://example.com/viewer" (Some (Some "#page=3"))
     = OpenedInNewContext "#page=3"
  /\ onClick "file:///home/user/viewer.html" (Some (Some "#page=3"))
     = DefaultNavigation.
Proof. repeat split; reflexivity. Qed.

Example absolute_links_intercepted :
  onClick "https://example.com/viewer" (Some (Some "https://rocq-prover.org/"))
  = OpenedInNewContext "https://rocq-prover.org/"
  /\ onClick "https://example.com/viewer" (Some (Some "mailto:someone@example.com"))
     = OpenedInNewContext "mailto:someone@example.com"
  /\ onClick "https://example.com/viewer" (Some (Some "javascript:void(0)"))
     = DefaultNavigation
  /\ onClick "https://example.com/viewer" (Some None) = DefaultNavigation
  /\ onClick "https://example.com/viewer" None = DefaultNavigation.
Proof. repeat split; reflexivity. Qed.

End LinkProofs.

(** ** Highlighting *)

Module HighlightProofs.
Import PdfRenderer JsFacts.

Definition escapeChar (c : ascii) : string :=
  if Ascii.eqb c "&" then "&amp;"
  else if Ascii.eqb c "<" then "&lt;"
  else if Ascii.eqb c ">" then "&gt;"
  else if Ascii.eqb c dquote then "&quot;"
  else if Ascii.eqb c "'" then "&#039;"
  else String c EmptyString.

Lemma replace_all_app c rep a b :
  replace_all c rep (a +:+ b) = replace_all c rep a +:+ replace_all c rep b.
Proof.
  induction a as [|x a IH]; [reflexivity|].
  rewrite app_cons. cbn [replace_all]. rewrite IH.
  destruct (Ascii.eqb x c); [now rewrite app_assoc | reflexivity].
Qed.

Lemma replace_all_cons c rep x s :
  replace_all c rep (String x s)
  = (if Ascii.eqb x c then rep else String x EmptyString) +:+ replace_all c rep s.
Proof. cbn [replace_all]. now destruct (Ascii.eqb x c). Qed.

(** The five replacements in sequence act on each character separately:
    no replacement text contains a character a later pass replaces. *)
Lemma escapeHtml_cons c s : escapeHtml (String c s) = escapeChar c +:+ escapeHtml s.
Proof.
  unfold escapeHtml, escapeChar.
  rewrite (replace_all_cons "&"). rewrite !replace_all_app.
  f_equal.
  destruct (Ascii.eqb_spec c "&") as [->|H1]; [reflexivity|].
  cbn [replace_all]. 
  destruct (Ascii.eqb_spec c "<") as [->|H2]; [reflexivity|].
  cbn [replace_all].
  destruct (Ascii.eqb_spec c ">") as [->|H3]; [reflexivity|].
  cbn [replace_all].
  destruct (Ascii.eqb_spec c dquote) as [->|H4]; [reflexivity|].
  cbn [replace_all].
  destruct (Ascii.eqb_spec c "'") as [->|H5]; reflexivity.
Qed.

Lemma escapeHtml_app a b : escapeHtml (a +:+ b) = escapeHtml a +:+ escapeHtml b.
Proof. unfold escapeHtml. now rewrite !replace_all_app. Qed.

Lemma has_char_app c a b : has_char c (a +:+ b) = has_char c a || has_char c b.
Proof.
  induction a as [|x a IH]; [reflexivity|].
  rewrite app_cons. cbn [has_char]. now destruct (Ascii.eqb x c).
Qed.

(** Escaped text contains none of the characters that delimit markup. *)
Lemma escapeHtml_inert s :
  has_char "<" (escapeHtml s) = false /\ has_char ">" (escapeHtml s) = false
  /\ has_char dquote (escapeHtml s) = false /\ has_char "'" (escapeHtml s) = false.
Proof.
  induction s as [|c s (IH1 & IH2 & IH3 & IH4)]; [now repeat split|].
  rewrite escapeHtml_cons, !has_char_app, IH1, IH2, IH3, IH4, !orb_false_r.
  unfold escapeChar.
  destruct (Ascii.eqb_spec c "&") as [|_]; [now repeat split|].
  destruct (Ascii.eqb_spec c "<") as [|Hlt]; [now repeat split|].
  destruct (Ascii.eqb_spec c ">") as [|Hgt]; [now repeat split|].
  destruct (Ascii.eqb_spec c dquote) as [|Hdq]; [now repeat split|].
  destruct (Ascii.eqb_spec c "'") as [|Hsq]; [now repeat split|].
  cbn [has_char]. apply Ascii.eqb_neq in Hlt, Hgt, Hdq, Hsq.
  rewrite Hlt, Hgt, Hdq, Hsq. repeat split.
Qed.

(** [markup] is a piece of markup that reads back as [text], whatever
    follows it. *)
Definition chunk (markup text : string) : Prop :=
  forall rest, scan InText (markup +:+ rest) = text +:+ scan InText rest.

Lemma chunk_nil : chunk "" "".
Proof. intros rest. reflexivity. Qed.

Lemma chunk_app m1 t1 m2 t2 : chunk m1 t1 -> chunk m2 t2 -> chunk (m1 +:+ m2) (t1 +:+ t2).
Proof. intros H1 H2 rest. now rewrite !app_assoc, H1, H2. Qed.

Lemma chunk_textContent markup text : chunk markup text -> textContent markup = text.
Proof.
  intros Hc. unfold textContent. specialize (Hc ""). rewrite app_nil_r in Hc.
  rewrite Hc. apply app_nil_r.
Qed.

Lemma chunk_escapeChar c : chunk (escapeChar c) (String c "").
Proof.
  intros rest. unfold escapeChar.
  destruct (Ascii.eqb_spec c "&") as [->|H1]; [reflexivity|].
  destruct (Ascii.eqb_spec c "<") as [->|H2]; [reflexivity|].
  destruct (Ascii.eqb_spec c ">") as [->|H3]; [reflexivity|].
  destruct (Ascii.eqb_spec c dquote) as [->|H4]; [reflexivity|].
  destruct (Ascii.eqb_spec c "'") as [->|H5]; [reflexivity|].
  rewrite !app_cons, !app_nil_l. cbn [scan].
  apply Ascii.eqb_neq in H1, H2. now rewrite H1, H2.
Qed.

Lemma chunk_escapeHtml s : chunk (escapeHtml s) s.
Proof.
  induction s as [|c s IH]; [apply chunk_nil|].
  rewrite escapeHtml_cons. change (String c s) with (String c "" +:+ s).
  apply chunk_app; [apply chunk_escapeChar | exact IH].
Qed.

(** [piece] is a part of a tag that ends outside of an attribute value. *)
Definition tag_part (piece : string) : Prop :=
  forall rest, scan InTag (piece +:+ rest) = scan InTag rest.

Lemma tag_part_app a b : tag_part a -> tag_part b -> tag_part (a +:+ b).
Proof. intros Ha Hb rest. now rewrite app_assoc, Ha, Hb. Qed.

(** A double-quoted value extends to the next double quote. *)
Lemma scan_value value rest :
  has_char dquote value = false ->
  scan InValue (value +:+ String dquote rest) = scan InTag rest.
Proof.
  induction value as [|c v IH]; intros Hsafe; [reflexivity|].
  cbn [has_char] in Hsafe. rewrite app_cons. cbn [scan].
  destruct (Ascii.eqb c dquote); [discriminate | now apply IH].
Qed.

Lemma tag_part_quoted value : has_char dquote value = false -> tag_part (quoted value).
Proof.
  intros Hsafe rest. unfold quoted. rewrite app_cons, app_assoc, app_cons, app_nil_l.
  change (scan InValue (value +:+ String dquote rest) = scan InTag rest).
  now apply scan_value.
Qed.

Lemma chunk_tag content : tag_part content -> chunk ("<" +:+ content +:+ ">") "".
Proof.
  intros Hpart rest. rewrite !app_assoc, app_cons, app_nil_l.
  change (scan InTag (content +:+ ">" +:+ rest) = scan InText rest).
  now rewrite Hpart.
Qed.

Lemma chunk_matchSpanOpen className style :
  has_char dquote className = false -> has_char dquote style = false ->
  chunk (matchSpanOpen className style) "".
Proof.
  intros Hc Hs. unfold matchSpanOpen.
  replace ("<span class=" +:+ quoted className +:+ " style=" +:+ quoted style +:+ ">")
    with ("<" +:+ ("span class=" +:+ quoted className +:+ " style=" +:+ quoted style)
          +:+ ">")
    by (now rewrite !app_assoc).
  apply chunk_tag.
  repeat apply tag_part_app;
    first [ now apply tag_part_quoted | intros rest; reflexivity ].
Qed.

Lemma chunk_pageSpanOpen style :
  has_char dquote style = false -> chunk (pageSpanOpen style) "".
Proof.
  intros Hs. unfold pageSpanOpen.
  replace ("<span style=" +:+ quoted style +:+ ">")
    with ("<" +:+ ("span style=" +:+ quoted style) +:+ ">")
    by (now rewrite !app_assoc).
  apply chunk_tag.
  apply tag_part_app; [intros rest; reflexivity | now apply tag_part_quoted].
Qed.

Lemma chunk_spanClose : chunk spanClose "".
Proof. intros rest. reflexivity. Qed.

(** Markup that consists of escaped pieces of [text], in order and without
    gaps, some of them enclosed in a span opened by [openTag]. *)
Inductive escaped_tiling (openTag : string) : string -> string -> Prop :=
| tiling_plain text : escaped_tiling openTag text (escapeHtml text)
| tiling_match before matched rest markup :
    escaped_tiling openTag rest markup ->
    escaped_tiling openTag (before +:+ matched +:+ rest)
      (escapeHtml before +:+ openTag +:+ escapeHtml matched +:+ spanClose +:+ markup).

Lemma escaped_tiling_chunk openTag text markup :
  chunk openTag "" -> escaped_tiling openTag text markup -> chunk markup text.
Proof.
  intros Hopen. induction 1 as [text | before matched rest markup _ IH].
  - apply chunk_escapeHtml.
  - apply chunk_app; [apply chunk_escapeHtml|].
    replace (matched +:+ rest) with ("" +:+ matched +:+ "" +:+ rest) by reflexivity.
    repeat apply chunk_app;
      first [exact Hopen | apply chunk_escapeHtml | apply chunk_spanClose | exact IH].
Qed.

(** The loop leaves within its fuel, and what it appends to the markup
    built so far is an escaped tiling of the fragment from [idx] on. *)
Lemma highlightLoop_tiling openTag str lower queryLower queryLength :
  truthy queryLower = true -> 1 <= queryLength ->
  forall fuel idx result,
    1 <= fuel -> String.length lower + 1 <= idx + fuel ->
    exists markup,
      highlightLoop fuel openTag str lower queryLower queryLength idx result
      = Some (result +:+ markup)
      /\ escaped_tiling openTag (drop idx str) markup.
Proof.
  intros Hq Hlen.
  induction fuel as [|fuel IH]; intros idx result Hfuel Hbound; [lia|].
  cbn [highlightLoop].
  destruct (indexOf queryLower lower idx) as [found|] eqn:Hfound.
  - destruct (indexOf_bounds _ _ _ _ Hq Hfound) as [Hlo Hhi].
    destruct (IH (found + queryLength)
                 (result +:+ escapeHtml (slice idx found str) +:+ openTag
                  +:+ escapeHtml (slice found (found + queryLength) str) +:+ spanClose))
      as (markup & Hloop & Htiling); [lia | lia |].
    exists (escapeHtml (slice idx found str) +:+ openTag
            +:+ escapeHtml (slice found (found + queryLength) str) +:+ spanClose
            +:+ markup).
    split; [rewrite Hloop; f_equal; now rewrite !app_assoc|].
    rewrite <- (slice_then_rest str idx found) by lia.
    rewrite <- (slice_then_rest str found (found + queryLength)) by lia.
    now apply tiling_match.
  - eexists. split; [reflexivity | apply tiling_plain].
Qed.

(** The class names and style strings, which come from the options of the
    host, do not contain the double quote that ends an attribute value. *)
Record attributes_safe (o : HighlightOptions) : Prop := {
  safe_className : has_char dquote (searchHighlightClassName o) = false;
  safe_style : has_char dquote (searchHighlightStyleString o) = false;
  safe_activeClassName : has_char dquote (searchActiveHighlightClassName o) = false;
  safe_activeStyle : has_char dquote (searchActiveHighlightStyleString o) = false;
  safe_pageStyle : has_char dquote (highlightPageTextStyleString o) = false
}.

Section WithPlatform.
Context `{Platform}.

Lemma trim_has_char c s : has_char c s = false -> has_char c (trim s) = false.
Proof.
  intros Hs. destruct (trim_substring s) as (before & after & Heq).
  rewrite Heq, !has_char_app in Hs.
  apply orb_false_elim in Hs as [_ Hs]. now apply orb_false_elim in Hs as [Hs _].
Qed.

Lemma matchClassName_safe o active :
  attributes_safe o -> has_char dquote (matchClassName o active) = false.
Proof.
  intros [Hc _ Ha _ _]. unfold matchClassName. destruct active; [|exact Hc].
  apply trim_has_char. now rewrite !has_char_app, Hc, Ha.
Qed.

Lemma matchStyle_safe o active :
  attributes_safe o -> has_char dquote (matchStyle o active) = false.
Proof.
  intros [_ Hs _ Ha _]. unfold matchStyle. destruct active; [|exact Hs].
  rewrite !filter_cons, filter_nil. repeat case_decide; cbn [join];
    rewrite ?has_char_app, ?Hs, ?Ha; reflexivity.
Qed.

(** The renderer is installed unless the trimmed query is empty and
    page highlighting is off; when installed it is [renderFragment]. *)
Lemma customTextRenderer_installed o searchQuery activePage currentPage :
  (customTextRenderer o searchQuery activePage currentPage = None
   /\ truthy (trim searchQuery) = false /\ highlightPageTextMode o = modeNone)
  \/ customTextRenderer o searchQuery activePage currentPage
     = Some (renderFragment o searchQuery activePage currentPage).
Proof.
  unfold customTextRenderer, enableFullHighlight.
  destruct (truthy (trim searchQuery)); [now right|].
  destruct (highlightPageTextMode o); [now left | now right ..].
Qed.

(** C10, amended.  For every fragment, every query, every page and all
    options of the host, the renderer returns markup (the loop always
    leaves).  The markup is an escaped tiling of the fragment, possibly
    enclosed in the page-highlight span: the parts outside the highlight
    spans and the matched parts inside them are escaped pieces of the
    fragment, in order and without gaps, and escaped text contains no angle
    bracket and no quote, so the text of the fragment adds no markup.
    When the trimmed query is empty and the page is not one of the
    highlighted pages, the markup is the escaped fragment.  The class
    names and style strings of the options are written into the span tags
    as they are: provided they contain no double quote, the text content
    of the markup is the fragment itself. *)
Theorem highlight_preserves_text (o : HighlightOptions) (searchQuery : string)
    (activePage : option nat) (currentPage : nat) (str : string)
    (pageNumber : option nat) :
  exists markup inner active,
    renderFragment o searchQuery activePage currentPage str pageNumber = Some markup
    /\ escaped_tiling (matchSpanOpen (matchClassName o active) (matchStyle o active))
         str inner
    /\ (markup = inner
        \/ markup = pageSpanOpen (highlightPageTextStyleString o) +:+ inner +:+ spanClose)
    /\ (truthy (trim searchQuery) = false ->
        (forall p, pageNumber = Some p -> p ∉ highlightPageSet o currentPage) ->
        markup = escapeHtml str)
    /\ (forall part, has_char "<" (escapeHtml part) = false
                     /\ has_char ">" (escapeHtml part) = false
                     /\ has_char dquote (escapeHtml part) = false
                     /\ has_char "'" (escapeHtml part) = false)
    /\ (attributes_safe o -> textContent markup = str).
Proof.
  assert (Hopen : forall active, attributes_safe o ->
            chunk (matchSpanOpen (matchClassName o active) (matchStyle o active)) "").
  { intros active Hsafe. apply chunk_matchSpanOpen;
      [now apply matchClassName_safe | now apply matchStyle_safe]. }
  assert (Hwrap : forall inner (flag : bool),
            (attributes_safe o -> chunk inner str) ->
            (let markup := if flag
                           then pageSpanOpen (highlightPageTextStyleString o)
                                +:+ inner +:+ spanClose
                           else inner in
             (markup = inner
              \/ markup = pageSpanOpen (highlightPageTextStyleString o)
                          +:+ inner +:+ spanClose)
             /\ (attributes_safe o -> textContent markup = str))).
  { intros inner [|] Hinner; cbv zeta.
    - split; [now right|]. intros Hsafe. apply chunk_textContent.
      replace str with ("" +:+ str +:+ "") by (now rewrite app_nil_l, app_nil_r).
      repeat apply chunk_app;
        [apply chunk_pageSpanOpen, (safe_pageStyle o Hsafe)
        | now apply Hinner | apply chunk_spanClose].
    - split; [now left|]. intros Hsafe. now apply chunk_textContent, Hinner. }
  unfold renderFragment. destruct (truthy str) eqn:Hstr; cbn [negb].
  - destruct (truthy (trim searchQuery)) eqn:Hquery.
    + set (isActivePage := match pageNumber, activePage with
                           | Some p, Some a => p =? a
                           | _, _ => false
                           end).
      assert (Hlower : truthy (toLowerCase (trim searchQuery)) = true)
        by now apply toLowerCase_truthy.
      assert (Hlength : 1 <= String.length (trim searchQuery))
        by now apply truthy_length.
      destruct (highlightLoop_tiling
                  (matchSpanOpen (matchClassName o isActivePage)
                                 (matchStyle o isActivePage))
                  str (toLowerCase str) _ _ Hlower Hlength
                  (S (String.length (toLowerCase str))) 0 "")
        as (inner & Hloop & Hinner); [lia | lia |].
      rewrite Hloop, app_nil_l. cbn [drop] in Hinner.
      eexists _, inner, isActivePage. split; [reflexivity|].
      split; [exact Hinner|].
      destruct (Hwrap inner
                  (enableFullHighlight o &&
                   match pageNumber with
                   | Some p => bool_decide (p ∈ highlightPageSet o currentPage)
                   | None => false
                   end)) as [Hshape Htext].
      { intros Hsafe.
        eapply escaped_tiling_chunk; [now apply Hopen | exact Hinner]. }
      split; [exact Hshape|].
      split; [discriminate|]. split; [apply escapeHtml_inert | exact Htext].
    + eexists _, (escapeHtml str), false. split; [reflexivity|].
      split; [apply tiling_plain|].
      destruct (Hwrap (escapeHtml str)
                  (enableFullHighlight o &&
                   match pageNumber with
                   | Some p => bool_decide (p ∈ highlightPageSet o currentPage)
                   | None => false
                   end)) as [Hshape Htext]; [intros _; apply chunk_escapeHtml|].
      split; [exact Hshape|].
      split; [|split; [apply escapeHtml_inert | exact Htext]].
      intros _ Hpage. destruct pageNumber as [p|]; [|now rewrite andb_false_r].
      rewrite bool_decide_eq_false_2 by now apply Hpage.
      now rewrite andb_false_r.
  - destruct str; [|discriminate]. exists "", "", false.
    split; [reflexivity|]. split; [apply (tiling_plain _ "")|].
    split; [now left|]. split; [reflexivity|].
    split; [apply escapeHtml_inert | reflexivity].
Qed.

End WithPlatform.

Import ReferencePlatform.

Definition sampleOptions : HighlightOptions :=
  {| searchHighlightClassName := "document-viewer-search-hit";
     searchHighlightStyleString := "";
     searchActiveHighlightClassName := "document-viewer-search-hit-active";
     searchActiveHighlightStyleString := "outline:1px solid";
     highlightPageTextMode := modeBoth;
     highlightPageNumber := Some 2;
     highlightPageTextStyleString := "background-color:#daf0f6" |}.

Lemma highlight_preserves_text_witness :
  attributes_safe sampleOptions
  /\ exists markup,
       renderFragment sampleOptions " ab " (Some 1) 2 "xAb<ab>&AB" (Some 1)
       = Some markup
       /\ textContent markup = "xAb<ab>&AB".
Proof.
  assert (Hsafe : attributes_safe sampleOptions) by (split; reflexivity).
  split; [exact Hsafe|].
  destruct (highlight_preserves_text sampleOptions " ab " (Some 1) 2
              "xAb<ab>&AB" (Some 1))
    as (markup & inner & active & Hrender & _ & _ & _ & _ & Htext).
  exists markup. split; [exact Hrender | exact (Htext Hsafe)].
Defined.

(** Options whose class name for a match holds a double quote followed by
    a closing angle bracket, which end the attribute value and the tag. *)
Definition quotedClassOptions : HighlightOptions :=
  {| searchHighlightClassName := "hit" +:+ String dquote ">!";
     searchHighlightStyleString := "";
     searchActiveHighlightClassName := "";
     searchActiveHighlightStyleString := "";
     highlightPageTextMode := modeNone;
     highlightPageNumber := None;
     highlightPageTextStyleString := "" |}.

(** C10, as stated, fails: the fragment "a" with the query "a" is escaped
    and wrapped, yet the class name of the options is written into the tag
    as it is, and the text content of the markup is not the fragment. *)
Lemma highlight_preserves_text_counterexample :
  renderFragment quotedClassOptions "a" None 1 "a" (Some 1)
  = Some ("<span class=" +:+ quoted ("hit" +:+ String dquote ">!")
          +:+ " style=" +:+ quoted "" +:+ ">a</span>")
  /\ textContent ("<span class=" +:+ quoted ("hit" +:+ String dquote ">!")
                  +:+ " style=" +:+ quoted "" +:+ ">a</span>")
     = "!" +:+ String dquote (" style=" +:+ quoted "" +:+ ">a")
  /\ textContent ("<span class=" +:+ quoted ("hit" +:+ String dquote ">!")
                  +:+ " style=" +:+ quoted "" +:+ ">a</span>")
     <> "a".
Proof. split; [reflexivity|]. split; [reflexivity | discriminate]. Qed.

Example rendered_fragment :
  renderFragment sampleOptions " ab " (Some 1) 2 "x<Ab" (Some 2)
  = Some ("<span style=" +:+ quoted "background-color:#daf0f6" +:+ ">x&lt;"
          +:+ "<span class=" +:+ quoted "document-viewer-search-hit"
          +:+ " style=" +:+ quoted "" +:+ ">Ab</span></span>").
Proof. reflexivity. Qed.

End HighlightProofs.

(** * Further properties of the code *)

(** ** Format resolver: the OCR variant, precedence, coherence of the tables *)

Module FormatRouterMore.
Import FormatRouter.

Lemma MIME_TO_RENDERER_entries m k :
  MIME_TO_RENDERER !! m = Some k ->
  (m, k) ∈ [ ("application/pdf", pdf);
             ("application/vnd.openxmlformats-officedocument.wordprocessingml.document", docx);
             ("application/vnd.openxmlformats-officedocument.presentationml.presentation", office_pdf);
             ("application/vnd.ms-powerpoint", office_pdf);
             ("application/msword", office_pdf) ].
Proof. apply elem_of_list_to_map_2. Qed.

Lemma EXT_TO_RENDERER_entries e k :
  EXT_TO_RENDERER !! e = Some k ->
  (e, k) ∈ [ ("pdf", pdf); ("docx", docx); ("doc", office_pdf);
             ("pptx", office_pdf); ("ppt", office_pdf) ].
Proof. apply elem_of_list_to_map_2. Qed.

Lemma EXT_TO_MIME_entries e m :
  EXT_TO_MIME !! e = Some m ->
  (e, m) ∈ [ ("pdf", "application/pdf");
             ("docx", "application/vnd.openxmlformats-officedocument.wordprocessingml.document");
             ("doc", "application/msword");
             ("pptx", "application/vnd.openxmlformats-officedocument.presentationml.presentation");
             ("ppt", "application/vnd.ms-powerpoint") ].
Proof. apply elem_of_list_to_map_2. Qed.

(** Case analysis on membership in a list given by its elements. *)
Ltac entries H :=
  repeat (apply elem_of_cons in H as [H | H]; [injection H as ? ?; subst |]);
  try (now apply elem_of_nil in H).

(** Reads the entry a goal asks for off the tables. *)
Ltac table_entry :=
  lazymatch goal with
  | |- exists x, ?table !! ?key = Some x /\ _ =>
      let v := eval vm_compute in (table !! key) in
      lazymatch v with
      | Some ?x => exists x; split; vm_compute; reflexivity
      end
  end.

Lemma object_get_Val {A} (table : gmap string A) key a :
  object_get table key = Some (Val a) -> table !! key = Some a.
Proof.
  unfold object_get. destruct (table !! key); [now intros [= ->]|].
  now destruct (bool_decide _).
Qed.

(** The three tables agree: an extension that has a renderer has a mime
    type, and that mime type has the same renderer. *)
Lemma extension_tables_agree e k :
  EXT_TO_RENDERER !! e = Some k ->
  exists m, EXT_TO_MIME !! e = Some m /\ MIME_TO_RENDERER !! m = Some k.
Proof.
  intros He. apply EXT_TO_RENDERER_entries in He. entries He;
    table_entry.
Qed.

Lemma mime_of_extension_agrees e m :
  EXT_TO_MIME !! e = Some m ->
  truthy m = true
  /\ exists k, MIME_TO_RENDERER !! m = Some k /\ EXT_TO_RENDERER !! e = Some k.
Proof.
  intros He. apply EXT_TO_MIME_entries in He. entries He;
    (split; [reflexivity | table_entry]).
Qed.

Lemma MIME_TO_RENDERER_no_ocr m : MIME_TO_RENDERER !! m <> Some pdf_ocr.
Proof. intros Hm. apply MIME_TO_RENDERER_entries in Hm. entries Hm; discriminate. Qed.

Lemma ocr_variant_false key : ocr_variant key false = key.
Proof. now destruct key as [[]|]. Qed.

Lemma ocr_variant_true_not_pdf key : ocr_variant key true <> Val pdf.
Proof. now destruct key as [[]|]. Qed.

(** What a lookup in a table gives: nothing, an entry of the table, or a
    member of the prototype. *)
Lemma object_get_cases {A} (table : gmap string A) key :
  (table !! key = None /\ object_get table key = None)
  \/ (exists a, table !! key = Some a /\ object_get table key = Some (Val a))
  \/ (table !! key = None /\ object_get table key = Some (Proto key)).
Proof.
  unfold object_get. destruct (table !! key) as [a|]; [right; left; eauto|].
  destruct (bool_decide _); auto.
Qed.

Section WithPlatform.
Context `{Platform}.

(** The local [fallback] of [getRendererKey]. *)
Definition fallback (src : DocumentSource) (resolved : option (js string))
    (enableOCR : bool) : RendererSelection :=
  match src with
  | SrcUrl s =>
      let ext := source_extension s in
      match (if truthy ext then object_get EXT_TO_RENDERER ext else None) with
      | Some key =>
          {| rendererKey := ocr_variant key enableOCR;
             mimeType := match object_get EXT_TO_MIME ext with
                         | Some m => Some m
                         | None => resolved
                         end |}
      | None => {| rendererKey := Val unsupported; mimeType := resolved |}
      end
  | SrcBlob type =>
      match (if truthy type then object_get MIME_TO_RENDERER type else None) with
      | Some key =>
          {| rendererKey := ocr_variant key enableOCR;
             mimeType := Some (Val type) |}
      | None => {| rendererKey := Val unsupported; mimeType := resolved |}
      end
  end.

Lemma getRendererKey_fallback src mimeType ocr :
  getRendererKey src mimeType ocr
  = let resolved := FormatRouterProofs.resolvedMime src mimeType in
    match resolved with
    | Some m =>
        match (if truthy_mime (Some m) then renderer_of_mime m else None) with
        | Some key =>
            {| rendererKey := ocr_variant key ocr;
               FormatRouter.mimeType := Some m |}
        | None => fallback src resolved ocr
        end
    | None => fallback src resolved ocr
    end.
Proof. reflexivity. Qed.

(** The three shapes of a selection, each the same for both values of the
    OCR flag: a renderer of the table with a mime type mapped to it; a
    member of the prototype; ["unsupported"]. *)
Definition supported_shape (select : bool -> RendererSelection) : Prop :=
  exists m k, MIME_TO_RENDERER !! m = Some k
              /\ forall ocr, select ocr
                             = {| rendererKey := ocr_variant (Val k) ocr;
                                  mimeType := Some (Val m) |}.

Definition inherited_shape (select : bool -> RendererSelection) : Prop :=
  exists name m, forall ocr, select ocr
                             = {| rendererKey := Proto name; mimeType := m |}.

Definition unsupported_shape (select : bool -> RendererSelection) : Prop :=
  exists m, forall ocr, select ocr
                        = {| rendererKey := Val unsupported; mimeType := m |}.

Lemma fallback_shape src resolved :
  supported_shape (fallback src resolved)
  \/ inherited_shape (fallback src resolved)
  \/ unsupported_shape (fallback src resolved).
Proof.
  destruct src as [s|type]; unfold fallback; cbv zeta.
  - set (ext := source_extension s).
    destruct (truthy ext);
      [|right; right; exists resolved; reflexivity].
    destruct (object_get_cases EXT_TO_RENDERER ext)
      as [[_ Hnone] | [(k & Hk & Hget) | [Hk Hget]]].
    + right; right. exists resolved. intros ocr. now rewrite Hnone.
    + left. destruct (extension_tables_agree _ _ Hk) as (m & Hm & Hmk).
      exists m, k. split; [exact Hmk|]. intros ocr. rewrite Hget.
      unfold object_get. now rewrite Hm.
    + right; left. eexists ext, _. intros ocr. rewrite Hget. reflexivity.
  - destruct (truthy type);
      [|right; right; exists resolved; reflexivity].
    destruct (object_get_cases MIME_TO_RENDERER type)
      as [[_ Hnone] | [(k & Hk & Hget) | [Hk Hget]]].
    + right; right. exists resolved. intros ocr. now rewrite Hnone.
    + left. exists type, k. split; [exact Hk|]. intros ocr. now rewrite Hget.
    + right; left. eexists type, _. intros ocr. rewrite Hget. reflexivity.
Qed.

Lemma getRendererKey_shape src mimeType :
  supported_shape (getRendererKey src mimeType)
  \/ inherited_shape (getRendererKey src mimeType)
  \/ unsupported_shape (getRendererKey src mimeType).
Proof.
  assert (Hfallback :
            (forall ocr, getRendererKey src mimeType ocr
                         = fallback src (FormatRouterProofs.resolvedMime src mimeType) ocr) ->
            supported_shape (getRendererKey src mimeType)
            \/ inherited_shape (getRendererKey src mimeType)
            \/ unsupported_shape (getRendererKey src mimeType)).
  { intros Heq.
    destruct (fallback_shape src (FormatRouterProofs.resolvedMime src mimeType))
      as [(m & k & Hk & Hs) | [(name & m & Hs) | (m & Hs)]].
    - left. exists m, k. split; [exact Hk|]. intros ocr. now rewrite Heq.
    - right; left. exists name, m. intros ocr. now rewrite Heq.
    - right; right. exists m. intros ocr. now rewrite Heq. }
  destruct (FormatRouterProofs.resolvedMime src mimeType) as [[m|name]|] eqn:Hresolved.
  - destruct (truthy m) eqn:Ht.
    + destruct (object_get_cases MIME_TO_RENDERER m)
        as [[_ Hnone] | [(k & Hk & Hget) | [Hk Hget]]].
      * apply Hfallback. intros ocr. rewrite getRendererKey_fallback. cbv zeta.
        rewrite Hresolved. cbn [truthy_mime renderer_of_mime]. now rewrite Ht, Hnone.
      * left. exists m, k. split; [exact Hk|]. intros ocr.
        rewrite getRendererKey_fallback. cbv zeta.
        rewrite Hresolved. cbn [truthy_mime renderer_of_mime]. now rewrite Ht, Hget.
      * right; left. exists m, (Some (Val m)). intros ocr.
        rewrite getRendererKey_fallback. cbv zeta.
        rewrite Hresolved. cbn [truthy_mime renderer_of_mime]. now rewrite Ht, Hget.
    + apply Hfallback. intros ocr. rewrite getRendererKey_fallback. cbv zeta.
      rewrite Hresolved. cbn [truthy_mime renderer_of_mime]. now rewrite Ht.
  - apply Hfallback. intros ocr. rewrite getRendererKey_fallback. cbv zeta.
    now rewrite Hresolved.
  - apply Hfallback. intros ocr. rewrite getRendererKey_fallback. cbv zeta.
    now rewrite Hresolved.
Qed.

(** X1.  The OCR flag does nothing but exchange the key ["pdf"] for
    ["pdf-ocr"]: the selection with the flag is the selection without it
    with [ocr_variant] applied to the key, and the mime type is the same.
    With the flag set the plain key ["pdf"] is never returned; without it
    the key ["pdf-ocr"] is never returned. *)
Theorem enableOCR_exchanges_the_pdf_key src mimeType ocr :
  getRendererKey src mimeType ocr
  = {| rendererKey := ocr_variant (rendererKey (getRendererKey src mimeType false)) ocr;
       FormatRouter.mimeType := FormatRouter.mimeType (getRendererKey src mimeType false) |}
  /\ rendererKey (getRendererKey src mimeType true) <> Val pdf
  /\ rendererKey (getRendererKey src mimeType false) <> Val pdf_ocr.
Proof.
  destruct (getRendererKey_shape src mimeType)
    as [(m & k & Hk & Hs) | [(name & m & Hs) | (m & Hs)]];
    rewrite !Hs; cbn [rendererKey FormatRouter.mimeType].
  - rewrite ocr_variant_false. split; [reflexivity|].
    split; [apply ocr_variant_true_not_pdf|].
    intros [= ->]. now apply (MIME_TO_RENDERER_no_ocr m).
  - repeat split; discriminate.
  - repeat split; discriminate.
Qed.

(** X2.  A supported selection carries a mime type of the table, mapped to
    the selected renderer, and that mime type alone reproduces the
    selection: given back as the explicit mime type it yields the same
    selection for every source. *)
Theorem resolved_mime_reproduces_selection src mimeType ocr k :
  rendererKey (getRendererKey src mimeType ocr) = Val k ->
  k <> unsupported ->
  exists m k0,
    FormatRouter.mimeType (getRendererKey src mimeType ocr) = Some (Val m)
    /\ MIME_TO_RENDERER !! m = Some k0
    /\ Val k = ocr_variant (Val k0) ocr
    /\ forall src', getRendererKey src' (Some m) ocr = getRendererKey src mimeType ocr.
Proof.
  destruct (getRendererKey_shape src mimeType)
    as [(m & k0 & Hk0 & Hs) | [(name & m & Hs) | (m & Hs)]];
    rewrite !Hs; cbn [rendererKey FormatRouter.mimeType].
  - intros Hkey _. exists m, k0. split; [reflexivity|]. split; [exact Hk0|].
    split; [now rewrite Hkey|]. intros src'.
    now apply FormatRouterProofs.getRendererKey_explicit_mime.
  - discriminate.
  - intros [= <-] Hk. contradiction.
Qed.

(** X3.  An explicit mime type that the table maps decides the selection
    for every source: the key is the renderer of the mime type (its OCR
    variant when requested) and the mime type is returned unchanged. *)
Theorem explicit_mime_overrides_source src m k ocr :
  MIME_TO_RENDERER !! m = Some k ->
  getRendererKey src (Some m) ocr
  = {| rendererKey := ocr_variant (Val k) ocr;
       FormatRouter.mimeType := Some (Val m) |}
  /\ forall src', getRendererKey src' (Some m) ocr = getRendererKey src (Some m) ocr.
Proof.
  intros Hk. split; [now apply FormatRouterProofs.getRendererKey_explicit_mime|].
  intros src'. now rewrite !(FormatRouterProofs.getRendererKey_explicit_mime _ m k).
Qed.

(** X4.  An explicit mime type that reaches nothing in the table has no
    part in the choice of the renderer: the key is the one the source
    alone gives. *)
Theorem unmapped_mime_leaves_key_to_source src m ocr :
  object_get MIME_TO_RENDERER m = None ->
  rendererKey (getRendererKey src (Some m) ocr)
  = rendererKey (getRendererKey src None ocr).
Proof.
  intros Hm. rewrite !getRendererKey_fallback. cbv zeta.
  unfold FormatRouterProofs.resolvedMime at 1.
  cbn [truthy_mime renderer_of_mime]. rewrite Hm.
  replace (if truthy m then None else None) with (@None (js RendererKey))
    by now destruct (truthy m).
  assert (Hkey : forall resolved resolved',
            rendererKey (fallback src resolved ocr)
            = rendererKey (fallback src resolved' ocr)).
  { intros resolved resolved'. unfold fallback.
    destruct src as [s|type]; cbv zeta.
    - now destruct (if truthy (source_extension s) then _ else _).
    - now destruct (if truthy type then _ else _). }
  destruct (FormatRouterProofs.resolvedMime src None) as [[m'|name]|] eqn:Hresolved;
    [| apply Hkey ..].
  (* the source alone resolves to a mime type: it gives the key of the fallback *)
  cbn [truthy_mime renderer_of_mime].
  destruct (truthy m') eqn:Ht; [|apply Hkey].
  destruct (object_get MIME_TO_RENDERER m') as [key|] eqn:Hlookup; [|apply Hkey].
  cbn [rendererKey].
  unfold FormatRouterProofs.resolvedMime in Hresolved.
  destruct src as [s|type]; cbn [inferMimeType fallback] in *; cbv zeta in *.
  - set (ext := source_extension s) in *.
    destruct (object_get EXT_TO_MIME ext) as [[m0|name]|] eqn:Hget;
      cbn [truthy_mime] in Hresolved;
      destruct (truthy ext); cbn [andb] in Hresolved; try discriminate Hresolved.
    destruct (truthy m0); [|discriminate Hresolved].
    injection Hresolved as ->.
    apply object_get_Val in Hget.
    destruct (mime_of_extension_agrees _ _ Hget) as (_ & k & Hk & Hext).
    unfold object_get in Hlookup |- *. rewrite Hk in Hlookup. rewrite Hext.
    now injection Hlookup as <-.
  - destruct (truthy type) eqn:Htype; [|discriminate Hresolved].
    injection Hresolved as ->. now rewrite Hlookup.
Qed.

End WithPlatform.

Section Witnesses.
Import ReferencePlatform.

Lemma resolved_mime_reproduces_selection_witness :
  exists m k0,
    FormatRouter.mimeType
      (getRendererKey (SrcUrl "https://example.com/doc.pdf") None true)
    = Some (Val m)
    /\ MIME_TO_RENDERER !! m = Some k0
    /\ Val pdf_ocr = ocr_variant (Val k0) true
    /\ forall src', getRendererKey src' (Some m) true
                    = getRendererKey (SrcUrl "https://example.com/doc.pdf") None true.
Proof.
  apply (resolved_mime_reproduces_selection
           (SrcUrl "https://example.com/doc.pdf") None true pdf_ocr);
    [reflexivity | discriminate].
Defined.

Lemma explicit_mime_overrides_source_witness :
  getRendererKey (SrcUrl "https://example.com/doc.pdf") (Some "application/msword") false
  = {| rendererKey := Val office_pdf;
       FormatRouter.mimeType := Some (Val "application/msword") |}
  /\ forall src', getRendererKey src' (Some "application/msword") false
                  = getRendererKey (SrcUrl "https://example.com/doc.pdf")
                      (Some "application/msword") false.
Proof.
  apply (explicit_mime_overrides_source
           (SrcUrl "https://example.com/doc.pdf") "application/msword" office_pdf false).
  reflexivity.
Defined.

Lemma unmapped_mime_leaves_key_to_source_witness :
  rendererKey (getRendererKey (SrcUrl "https://example.com/doc.pdf")
                 (Some "application/unknown") false)
  = rendererKey (getRendererKey (SrcUrl "https://example.com/doc.pdf") None false).
Proof.
  apply (unmapped_mime_leaves_key_to_source
           (SrcUrl "https://example.com/doc.pdf") "application/unknown" false).
  reflexivity.
Defined.

End Witnesses.

End FormatRouterMore.

(** ** Conversion client: when it succeeds *)

Module ConversionMore.
Import FormatRouter ConversionWorker DocumentViewer JsFacts ConversionProofs.

(** X5.  [convertViaWorker] fulfils in exactly two cases, both with a
    success status: the content type mentions PDF and the body is not
    empty, and then the result is the object URL of the body together with
    its release; or the content type mentions JSON and not PDF, and the
    body is a JSON value with a string [url], and then the result is that
    URL with nothing to release. *)
Theorem worker_success_contract (res : Response) (objectUrl : string)
    (r : ConversionResult) :
  convertViaWorker res objectUrl = Fulfilled r
  <-> ok res = true
      /\ ((isPdf res = true /\ blob_size res <> 0
           /\ r = {| pdfUrl := objectUrl; revoke := Some objectUrl |})
          \/ (isPdf res = false /\ isJson res = true
              /\ exists u, json res = JsonValue (Some u)
                           /\ r = {| pdfUrl := u; revoke := None |})).
Proof.
  unfold convertViaWorker.
  fold (declaredType res). fold (isPdf res). fold (isJson res).
  destruct (ok res); cbn [negb].
  2:{ split; [discriminate | now intros [? _]]. }
  destruct (isPdf res).
  - destruct (blob_size res =? 0) eqn:Hsize.
    + apply Nat.eqb_eq in Hsize. split; [discriminate|].
      intros [_ [(_ & Hne & _) | (? & _)]]; [contradiction | discriminate].
    + apply Nat.eqb_neq in Hsize. split.
      * intros [= <-]. split; [reflexivity|]. left. now repeat split.
      * intros [_ [(_ & _ & ->) | (? & _)]]; [reflexivity | discriminate].
  - destruct (isJson res).
    + destruct (json res) as [message | [u|]].
      * split; [discriminate|].
        intros [_ [(? & _) | (_ & _ & u & ? & _)]]; discriminate.
      * split.
        -- intros [= <-]. split; [reflexivity|]. right.
           repeat split. now exists u.
        -- intros [_ [(? & _) | (_ & _ & u' & [= <-] & ->)]];
             [discriminate | reflexivity].
      * split; [discriminate|].
        intros [_ [(? & _) | (_ & _ & u & ? & _)]]; discriminate.
    + split; [discriminate|].
      intros [_ [(? & _) | (_ & ? & _)]]; discriminate.
Qed.

End ConversionMore.

(** ** Renderer registry *)

Module RegistryProofs.
Import FormatRouter RendererRegistry.

(** The last registration for a key is the one that is found, the
    registrations of the other keys are untouched, and registrations for
    different keys can be made in either order. *)
Lemma registerRenderer_last_wins (registry : Registry) key factory :
  getRendererFactory key (registerRenderer key factory registry) = Some factory
  /\ hasRenderer key (registerRenderer key factory registry) = true
  /\ (forall other, other <> key ->
        getRendererFactory other (registerRenderer key factory registry)
        = getRendererFactory other registry
        /\ hasRenderer other (registerRenderer key factory registry)
           = hasRenderer other registry)
  /\ (forall earlier,
        registerRenderer key factory (registerRenderer key earlier registry)
        = registerRenderer key factory registry)
  /\ (forall other factory', other <> key ->
        registerRenderer key factory (registerRenderer other factory' registry)
        = registerRenderer other factory' (registerRenderer key factory registry)).
Proof.
  unfold getRendererFactory, hasRenderer, registerRenderer.
  split; [apply lookup_insert_eq|].
  split; [now rewrite lookup_insert_eq|].
  split.
  { intros other Hne. now rewrite lookup_insert_ne by congruence. }
  split.
  { intros earlier. apply insert_insert_eq. }
  intros other factory' Hne. apply insert_insert_ne. congruence.
Qed.

(** Every renderer key but ["unsupported"] has a renderer once the
    registrations of [renderers/index.ts] have run. *)
Lemma default_registry_keys key :
  hasRenderer key default_registry = true <-> key <> unsupported.
Proof. destruct key; vm_compute; split; congruence. Qed.

End RegistryProofs.

(** ** Viewer shell: what a conversion leads to on screen *)

Module ShellProofs.
Import FormatRouter ConversionWorker DocumentViewer RendererRegistry
  DocumentViewerRender JsFacts ConversionProofs.

(** The source passes the first check of the render: a string, or a binary
    source whose object URL is not empty. *)
Definition usable (p : Props) (source : Normalized) : Prop :=
  isBlobOrFile (src p) = false \/ truthy (url source) = true.

Lemma usable_passes p source :
  usable p source -> negb (truthy (url source)) && isBlobOrFile (src p) = false.
Proof.
  intros [-> | ->]; [now destruct (negb _) | reflexivity].
Qed.

Section WithPlatform.
Context `{Platform}.

(** X6.  A failing response of the conversion worker that reaches a live
    run of the effect replaces whatever the shell showed by the error view
    with the message of the rejection; no renderer is mounted and the
    progress view is not shown. *)
Theorem failed_conversion_is_displayed (registry : Registry) (p : Props)
    (source : Normalized) (res : Response) (objectUrl : string) (s : Shell) :
  usable p source ->
  failing res ->
  exists message,
    convertViaWorker res objectUrl = Rejected message
    /\ view registry p source (workerResponded p false res objectUrl s)
       = ErrorView message.
Proof.
  intros Hu Hfail.
  assert (Hshow : forall message,
            truthy message = true ->
            convertViaWorker res objectUrl = Rejected message ->
            view registry p source (workerResponded p false res objectUrl s)
            = ErrorView message).
  { intros message Ht Hrej. unfold workerResponded, view. rewrite Hrej.
    cbn [workerSettled negb conversionError default].
    rewrite (usable_passes _ _ Hu). cbn [default from_option id]. now rewrite Ht. }
  unfold convertViaWorker in *.
  fold (declaredType res) in *. fold (isPdf res) in *. fold (isJson res) in *.
  destruct Hfail as [Hok | Hok Hpdf Hjson | Hok Hpdf Hsize].
  - rewrite Hok in *. cbn [negb] in *.
    eexists. split; [reflexivity|]. now apply Hshow.
  - rewrite Hok, Hpdf, Hjson in *. cbn [negb] in *.
    eexists. split; [reflexivity|]. now apply Hshow.
  - rewrite Hok, Hpdf, Hsize in *. cbn [negb Nat.eqb] in *.
    eexists. split; [reflexivity|]. now apply Hshow.
Qed.

(** X7.  For a source that is to be converted, in every state of the
    shell: a fulfilled conversion that arrives for a cancelled run leaves
    the view as it is.  While no conversion error is on display, the shell
    shows the progress view as long as no converted document is stored,
    and when the worker fulfils on a live run it mounts the renderer
    registered for ["pdf"] on the converted URL with the mime type
    ["application/pdf"], although the key of the source is
    ["office-pdf"].  A conversion error on display stays on display when
    a later run fulfils: the converted document is stored behind the error
    view. *)
Theorem conversion_progress_then_pdf (registry : Registry) (p : Props)
    (source : Normalized) (res : Response) (objectUrl : string) (s : Shell)
    (r : ConversionResult) (factory : RendererFactory) :
  usable p source ->
  shouldConvertOffice p = true ->
  convertViaWorker res objectUrl = Fulfilled r ->
  getRendererFactory pdf registry = Some factory ->
  view registry p source (workerResponded p true res objectUrl s)
  = view registry p source s
  /\ (truthy (default "" (conversionError s)) = false ->
      (convertedPdfUrl s = None -> view registry p source s = ConvertingView)
      /\ view registry p source (workerResponded p false res objectUrl s)
         = RendererView factory
             {| rendererSrc := pdfUrl r;
                originalSrc := SrcUrl (pdfUrl r);
                rendererMimeType := Val "application/pdf" |})
  /\ (forall message,
        conversionError s = Some message -> truthy message = true ->
        view registry p source s = ErrorView message
        /\ view registry p source (workerResponded p false res objectUrl s)
           = ErrorView message
        /\ convertedPdfUrl (workerResponded p false res objectUrl s)
           = Some (pdfUrl r)).
Proof.
  intros Hu Hconv Hful Hpdf.
  assert (Hkey : rendererKey (getRendererKey (src p) (mimeType p) (enableOCR p))
                 = Val office_pdf).
  { unfold shouldConvertOffice in Hconv.
    destruct (rendererKey _) as [[]|]; try discriminate. reflexivity. }
  unfold workerResponded. rewrite Hful. cbn [workerSettled negb].
  split; [|split].
  - destruct (revoke r); reflexivity.
  - intros Herr. split.
    + intros Hnone. unfold view.
      rewrite (usable_passes _ _ Hu), Herr, Hconv, Hnone. reflexivity.
    + unfold view, LazyRenderer, effectiveRendererKey.
      cbn [conversionError convertedPdfUrl default from_option id is_Some_b].
      cbn [default from_option id] in Herr.
      rewrite (usable_passes _ _ Hu), Herr, Hconv, Hkey, Hpdf. reflexivity.
  - intros message Herr Hmessage. unfold view.
    cbn [conversionError convertedPdfUrl].
    rewrite (usable_passes _ _ Hu), Herr. cbn [default from_option id].
    rewrite Hmessage. now repeat split.
Qed.

(** X8.  With the registrations of [renderers/index.ts], a usable source
    without conversion error is told that no renderer is available only
    when the resolver returned a member of [Object.prototype] in place of
    a key, and then always: each of the five keys leads to a renderer, to
    the progress view or to the message for unsupported documents. *)
Theorem no_renderer_only_for_inherited_key (p : Props) (source : Normalized)
    (s : Shell) :
  usable p source ->
  conversionError s = None ->
  convertedPdfUrl s = None ->
  view default_registry p source s
  = ErrorView "No renderer available for this format"
  <-> exists name,
        rendererKey (getRendererKey (src p) (mimeType p) (enableOCR p))
        = Proto name.
Proof.
  intros Hu Herr Hnone. unfold view, LazyRenderer, effectiveRendererKey.
  rewrite (usable_passes _ _ Hu), Herr, Hnone. cbn [default from_option id truthy is_Some_b negb].
  unfold shouldConvertOffice.
  destruct (rendererKey _) as [[]|name]; cbn [is_unsupported andb].
  all: try (destruct (_ && _)).
  all: split; try discriminate; try (now intros [name' [=]]).
  all: try (intros _; now exists name).
  all: try (intros _; reflexivity).
Qed.

End WithPlatform.

Section Witnesses.
Import ReferencePlatform.

Lemma failed_conversion_is_displayed_witness :
  exists message,
    convertViaWorker serverError "blob:2" = Rejected message
    /\ view default_registry docProps
         {| url := "blob:1"; revokeUrl := Some "blob:1" |}
         (workerResponded docProps false serverError "blob:2" initial)
       = ErrorView message.
Proof.
  apply (failed_conversion_is_displayed default_registry docProps
           {| url := "blob:1"; revokeUrl := Some "blob:1" |}
           serverError "blob:2" initial).
  - right. reflexivity.
  - apply failing_status. reflexivity.
Defined.

Definition convertedPdf : Response :=
  {| status := 200; statusText := "OK"; text := "%PDF-1.7";
     contentType := Some "application/pdf"; blob_size := 1024;
     json := JsonSyntaxError "Unexpected token" |}.

(** The shell after a conversion of an earlier run has failed. *)
Definition afterFailure : Shell :=
  workerResponded docProps false serverError "blob:2" initial.

Definition failureMessage : string :=
  "Conversion failed: 500 bad file. Check conversion worker URL and CORS.".

Lemma conversion_progress_then_pdf_witness :
  (view default_registry docProps
     {| url := "blob:1"; revokeUrl := Some "blob:1" |} initial
   = ConvertingView
   /\ view default_registry docProps
        {| url := "blob:1"; revokeUrl := Some "blob:1" |}
        (workerResponded docProps true convertedPdf "blob:2" initial)
      = ConvertingView
   /\ view default_registry docProps
        {| url := "blob:1"; revokeUrl := Some "blob:1" |}
        (workerResponded docProps false convertedPdf "blob:2" initial)
      = RendererView LoadPdfRenderer
          {| rendererSrc := "blob:2";
             originalSrc := SrcUrl "blob:2";
             rendererMimeType := Val "application/pdf" |})
  /\ (conversionError afterFailure = Some failureMessage
      /\ view default_registry docProps
           {| url := "blob:1"; revokeUrl := Some "blob:1" |}
           (workerResponded docProps false convertedPdf "blob:3" afterFailure)
         = ErrorView failureMessage).
Proof.
  split.
  - destruct (conversion_progress_then_pdf default_registry docProps
                {| url := "blob:1"; revokeUrl := Some "blob:1" |}
                convertedPdf "blob:2" initial
                {| pdfUrl := "blob:2"; revoke := Some "blob:2" |} LoadPdfRenderer)
      as (Hcancelled & Hclean & _);
      [right; reflexivity | reflexivity | reflexivity | reflexivity |].
    destruct (Hclean eq_refl) as [Hwait Hmount].
    split; [exact (Hwait eq_refl)|]. split; [|exact Hmount].
    rewrite Hcancelled. exact (Hwait eq_refl).
  - split; [reflexivity|].
    destruct (conversion_progress_then_pdf default_registry docProps
                {| url := "blob:1"; revokeUrl := Some "blob:1" |}
                convertedPdf "blob:3" afterFailure
                {| pdfUrl := "blob:3"; revoke := Some "blob:3" |} LoadPdfRenderer)
      as (_ & _ & Hfailed);
      [right; reflexivity | reflexivity | reflexivity | reflexivity |].
    destruct (Hfailed failureMessage
                eq_refl eq_refl) as (_ & Hstays & _).
    exact Hstays.
Defined.

Lemma no_renderer_only_for_inherited_key_witness :
  view default_registry
    {| src := SrcUrl "https://example.com/x"; mimeType := Some "constructor";
       enableOCR := false; conversionWorkerUrl := None;
       onRequestPdfConversion := false; onConversionError := false |}
    {| url := "https://example.com/x"; revokeUrl := None |} initial
  = ErrorView "No renderer available for this format"
  <-> exists name,
        rendererKey (getRendererKey (SrcUrl "https://example.com/x")
                       (Some "constructor") false)
        = Proto name.
Proof.
  apply (no_renderer_only_for_inherited_key
           {| src := SrcUrl "https://example.com/x"; mimeType := Some "constructor";
              enableOCR := false; conversionWorkerUrl := None;
              onRequestPdfConversion := false; onConversionError := false |}
           {| url := "https://example.com/x"; revokeUrl := None |} initial);
    solve [reflexivity | left; reflexivity].
Defined.

End Witnesses.

End ShellProofs.

(** ** Viewer shell: object URLs are released once and not while in use *)

Module LifecycleProofs.
Import FormatRouter ConversionWorker DocumentViewer DocumentViewerRender
  DocumentViewerEffects.

(** What every reachable state of the component satisfies. *)
Record lifecycle_inv (c : Component) : Prop := {
  held_once : NoDup (revoked (shell c));
  held_created : forall u, u ∈ revoked (shell c) -> u ∈ created c;
  held_ref : forall u, convertedPdfUrlRevokeRef (shell c) = Some u ->
            u ∈ created c /\ u ∉ revoked (shell c);
  held_source : mounted c = true ->
               forall u, revokeUrl (source c) = Some u ->
               u ∈ created c /\ (u ∉ revoked (shell c))
               /\ convertedPdfUrlRevokeRef (shell c) <> Some u;
  held_shown : mounted c = true ->
              forall u, convertedPdfUrl (shell c) = Some u ->
              u ∉ revoked (shell c);
  held_unmounted : mounted c = false ->
                  convertedPdfUrlRevokeRef (shell c) = None
                  /\ forall u, revokeUrl (source c) = Some u ->
                               u ∈ revoked (shell c);
  held_live : forall i r, conversions c !! i = Some r ->
             conv_cancelled r = false ->
             activeConversion c = Some i /\ mounted c = true
}.

Lemma release_elem u log x :
  x ∈ release u log <-> x ∈ log \/ u = Some x.
Proof.
  destruct u as [y|]; cbn [release].
  - rewrite elem_of_app, list_elem_of_singleton. split.
    + intros [? | ->]; auto.
    + intros [? | [= ->]]; auto.
  - split; [auto | intros [? | ?]; [assumption | discriminate]].
Qed.

Lemma release_NoDup u log :
  NoDup log -> (forall x, u = Some x -> x ∉ log) -> NoDup (release u log).
Proof.
  intros Hlog Hnew. destruct u as [x|]; [|exact Hlog]. cbn [release].
  apply NoDup_app. split; [exact Hlog|]. split; [|apply NoDup_singleton].
  intros y Hy Hyx. apply list_elem_of_singleton in Hyx as ->.
  now apply (Hnew x).
Qed.

Lemma conversionCleanup_cancels c :
  (forall i r, conversions c !! i = Some r -> conv_cancelled r = false ->
               activeConversion c = Some i) ->
  forall i r, conversions (conversionCleanup c) !! i = Some r ->
              conv_cancelled r = true.
Proof.
  intros Hlive i r. unfold conversionCleanup.
  destruct (activeConversion c) as [a|] eqn:Ha; cbn [conversions].
  - destruct (decide (i = a)) as [-> | Hne].
    + rewrite list_lookup_alter_eq.
      destruct (conversions c !! a); [|discriminate]. now intros [= <-].
    + rewrite list_lookup_alter_ne by congruence. intros Hr.
      destruct (conv_cancelled r) eqn:Hc; [reflexivity|].
      specialize (Hlive i r Hr Hc). congruence.
  - intros Hr. destruct (conv_cancelled r) eqn:Hc; [reflexivity|].
    specialize (Hlive i r Hr Hc). discriminate.
Qed.

Lemma conversionCleanup_fields c :
  shell (conversionCleanup c) = shell c
  /\ source (conversionCleanup c) = source c
  /\ created (conversionCleanup c) = created c
  /\ mounted (conversionCleanup c) = mounted c
  /\ activeConversion (conversionCleanup c) = None
  /\ length (conversions (conversionCleanup c)) = length (conversions c).
Proof.
  unfold conversionCleanup. destruct (activeConversion c) eqn:Ha;
    cbn; rewrite ?length_alter; auto 10.
Qed.

Section WithPlatform.
Context `{Platform}.

Lemma conversionEffect_fields p c :
  shell (conversionEffect p c) = shell c
  /\ source (conversionEffect p c) = source c
  /\ created (conversionEffect p c) = created c
  /\ mounted (conversionEffect p c) = mounted c.
Proof. unfold conversionEffect. now destruct (conversionStarts p). Qed.

(** The body of the conversion effect after its cleanup keeps the
    invariant when the state it starts from does, apart from the runs. *)
Lemma conversionEffect_inv p c :
  mounted c = true ->
  (forall i r, conversions c !! i = Some r -> conv_cancelled r = true) ->
  NoDup (revoked (shell c)) ->
  (forall u, u ∈ revoked (shell c) -> u ∈ created c) ->
  (forall u, convertedPdfUrlRevokeRef (shell c) = Some u ->
             u ∈ created c /\ u ∉ revoked (shell c)) ->
  (forall u, revokeUrl (source c) = Some u ->
             u ∈ created c /\ (u ∉ revoked (shell c))
             /\ convertedPdfUrlRevokeRef (shell c) <> Some u) ->
  (forall u, convertedPdfUrl (shell c) = Some u -> u ∉ revoked (shell c)) ->
  lifecycle_inv (conversionEffect p c).
Proof.
  intros Hm Hcancelled Honce Hcreated Href Hsource Hshown.
  destruct (conversionEffect_fields p c) as (Hs & Hsrc & Hc & Hmo).
  split; rewrite ?Hs, ?Hsrc, ?Hc, ?Hmo; auto.
  - intros Hfalse. congruence.
  - intros i r. unfold conversionEffect.
    destruct (conversionStarts p); cbn [conversions activeConversion mounted].
    + intros Hr Hlive. apply lookup_app_Some in Hr as [Hr | [Hlen Hr]].
      * rewrite (Hcancelled i r Hr) in Hlive. discriminate.
      * split; [|exact Hm]. f_equal.
        apply list_lookup_singleton_Some in Hr as [Hi _]. lia.
    + intros Hr Hlive. rewrite (Hcancelled i r Hr) in Hlive. discriminate.
Qed.

Lemma mount_inv p objectUrl : lifecycle_inv (mount p objectUrl).
Proof.
  unfold mount. apply conversionEffect_inv; cbn.
  - reflexivity.
  - intros i r Hr. now rewrite lookup_nil in Hr.
  - apply NoDup_nil_2.
  - intros u Hu. now apply elem_of_nil in Hu.
  - discriminate.
  - intros u Hu. rewrite Hu. cbn [release]. split; [set_solver|].
    split; [apply not_elem_of_nil | discriminate].
  - discriminate.
Qed.


Lemma normalizeSrcToUrl_revoke src objectUrl u :
  revokeUrl (normalizeSrcToUrl src objectUrl) = Some u ->
  u = objectUrl /\ isBlobOrFile src = true.
Proof. destruct src; [discriminate | now intros [= <-]]. Qed.

(** The two releases a change of source or an unmount makes. *)
Lemma releases_once c :
  lifecycle_inv c -> mounted c = true ->
  NoDup (release (convertedPdfUrlRevokeRef (shell c))
           (release (revokeUrl (source c)) (revoked (shell c))))
  /\ forall u, u ∈ release (convertedPdfUrlRevokeRef (shell c))
                     (release (revokeUrl (source c)) (revoked (shell c))) ->
               u ∈ created c.
Proof.
  intros Hinv Hm. split.
  - apply release_NoDup; [apply release_NoDup; [apply (held_once c Hinv)|]|].
    + intros x Hx. now apply (held_source c Hinv Hm x Hx).
    + intros x Hx Hin. apply release_elem in Hin as [Hin | Hin].
      * now apply (held_ref c Hinv x Hx).
      * destruct (held_source c Hinv Hm x Hin) as (_ & _ & Hne). congruence.
  - intros u Hu. apply release_elem in Hu as [Hu | Hu];
      [apply release_elem in Hu as [Hu | Hu]|].
    + now apply (held_created c Hinv).
    + now apply (held_source c Hinv Hm u Hu).
    + now apply (held_ref c Hinv u Hu).
Qed.

Lemma step_SourceChanged_inv c p objectUrl :
  lifecycle_inv c -> event_ok c (SourceChanged p objectUrl) ->
  lifecycle_inv (step c (SourceChanged p objectUrl)).
Proof.
  intros Hinv Hok. cbn [step event_ok] in *.
  destruct (mounted c) eqn:Hm; [|exact Hinv]. cbv zeta.
  set (cleaned := conversionCleanup
                    (set_shell (releaseSource (source c) (shell c)) c)).
  destruct (conversionCleanup_fields
              (set_shell (releaseSource (source c) (shell c)) c))
    as (Hs & _ & _ & _ & _ & _). fold cleaned in Hs.
  destruct (releases_once c Hinv Hm) as [Honce Hcreated].
  apply conversionEffect_inv; cbn [mounted conversions shell source created];
    rewrite ?Hs; cbn [set_shell shell releaseSource resetEffect revoked
                      convertedPdfUrlRevokeRef convertedPdfUrl].
  - reflexivity.
  - apply conversionCleanup_cancels. cbn [set_shell conversions activeConversion].
    intros i r Hr Hlive. now apply (held_live c Hinv i r).
  - exact Honce.
  - intros u Hu. apply release_elem. left. now apply Hcreated.
  - discriminate.
  - intros u Hu. destruct (normalizeSrcToUrl_revoke _ _ _ Hu) as [-> Hblob].
    split; [apply release_elem; now right|].
    split; [|discriminate].
    intros Hin. apply Hcreated in Hin. now apply Hok.
  - discriminate.
Qed.

Lemma reset_once c :
  lifecycle_inv c -> mounted c = true ->
  NoDup (release (convertedPdfUrlRevokeRef (shell c)) (revoked (shell c)))
  /\ (forall u, u ∈ release (convertedPdfUrlRevokeRef (shell c)) (revoked (shell c)) ->
                u ∈ created c)
  /\ (forall u, revokeUrl (source c) = Some u ->
                u ∈ created c
                /\ u ∉ release (convertedPdfUrlRevokeRef (shell c)) (revoked (shell c))).
Proof.
  intros Hinv Hm. split; [|split].
  - apply release_NoDup; [apply (held_once c Hinv)|].
    intros x Hx. now apply (held_ref c Hinv x Hx).
  - intros u Hu. apply release_elem in Hu as [Hu | Hu].
    + now apply (held_created c Hinv).
    + now apply (held_ref c Hinv u Hu).
  - intros u Hu. destruct (held_source c Hinv Hm u Hu) as (Hc & Hr & Hne).
    split; [exact Hc|]. intros Hin. apply release_elem in Hin as [Hin | Hin];
      [contradiction | congruence].
Qed.

Lemma step_KeyChanged_inv c p reruns :
  lifecycle_inv c -> lifecycle_inv (step c (KeyChanged p reruns)).
Proof.
  intros Hinv. cbn [step].
  destruct (mounted c) eqn:Hm; [|exact Hinv].
  destruct (reset_once c Hinv Hm) as (Honce & Hcreated & Hsource).
  destruct reruns.
  - cbv zeta.
    destruct (conversionCleanup_fields c) as (Hs & Hsrc & Hc & Hmo & _ & _).
    apply conversionEffect_inv;
      cbn [set_shell mounted conversions shell source created];
      rewrite ?Hs, ?Hsrc, ?Hc, ?Hmo;
      cbn [resetEffect revoked convertedPdfUrlRevokeRef convertedPdfUrl].
    + exact Hm.
    + apply conversionCleanup_cancels.
      intros i r Hr Hlive. now apply (held_live c Hinv i r).
    + exact Honce.
    + exact Hcreated.
    + discriminate.
    + intros u Hu. destruct (Hsource u Hu) as [Hin Hout].
      split; [exact Hin|]. split; [exact Hout | discriminate].
    + discriminate.
  - split; cbn [shell source created mounted conversions activeConversion
                resetEffect revoked convertedPdfUrlRevokeRef convertedPdfUrl].
    + exact Honce.
    + exact Hcreated.
    + discriminate.
    + intros _ u Hu. destruct (Hsource u Hu) as [Hin Hout].
      split; [exact Hin|]. split; [exact Hout | discriminate].
    + discriminate.
    + discriminate.
    + intros i r Hr Hlive. destruct (held_live c Hinv i r Hr Hlive) as [Ha _].
      now split.
Qed.

Lemma step_ConversionDepsChanged_inv c p :
  lifecycle_inv c -> lifecycle_inv (step c (ConversionDepsChanged p)).
Proof.
  intros Hinv. cbn [step].
  destruct (mounted c) eqn:Hm; [|exact Hinv].
  destruct (conversionCleanup_fields c) as (Hs & Hsrc & Hc & Hmo & _ & _).
  apply conversionEffect_inv; rewrite ?Hs, ?Hsrc, ?Hc, ?Hmo.
  - exact Hm.
  - apply conversionCleanup_cancels.
    intros i r Hr Hlive. now apply (held_live c Hinv i r).
  - apply (held_once c Hinv).
  - apply (held_created c Hinv).
  - apply (held_ref c Hinv).
  - apply (held_source c Hinv Hm).
  - apply (held_shown c Hinv Hm).
Qed.

Lemma step_Unmount_inv c : lifecycle_inv c -> lifecycle_inv (step c Unmount).
Proof.
  intros Hinv. cbn [step].
  destruct (mounted c) eqn:Hm; [|exact Hinv]. cbv zeta.
  set (cleaned := conversionCleanup
                    (set_shell (releaseConverted (releaseSource (source c) (shell c))) c)).
  destruct (conversionCleanup_fields
              (set_shell (releaseConverted (releaseSource (source c) (shell c))) c))
    as (Hs & Hsrc & Hc & _ & _ & _). fold cleaned in Hs, Hsrc, Hc.
  destruct (releases_once c Hinv Hm) as [Honce Hcreated].
  split; cbn [shell source created mounted conversions activeConversion];
    rewrite ?Hs, ?Hsrc, ?Hc;
    cbn [set_shell shell source created releaseConverted releaseSource revoked
         convertedPdfUrlRevokeRef convertedPdfUrl].
  - exact Honce.
  - exact Hcreated.
  - discriminate.
  - discriminate.
  - discriminate.
  - intros _. split; [reflexivity|].
    intros u Hu. apply release_elem. left. apply release_elem. now right.
  - intros i r Hr Hlive. exfalso.
    assert (Hcancelled : conv_cancelled r = true).
    { apply (conversionCleanup_cancels
               (set_shell (releaseConverted (releaseSource (source c) (shell c))) c))
        with (i := i); [|exact Hr].
      cbn [set_shell conversions activeConversion].
      intros j rj Hj Hl. now apply (held_live c Hinv j rj). }
    congruence.
Qed.

Lemma settle_live c i r j rj :
  lifecycle_inv c -> conversions c !! i = Some r ->
  <[i := settleConversion r]> (conversions c) !! j = Some rj ->
  conv_cancelled rj = false ->
  activeConversion c = Some j /\ mounted c = true.
Proof.
  intros Hinv Hr Hj Hlive.
  apply list_lookup_insert_Some in Hj as [(<- & <- & _) | [_ Hj]].
  - now apply (held_live c Hinv i r).
  - now apply (held_live c Hinv j rj).
Qed.

Lemma step_ConversionSettled_inv c i outcome :
  lifecycle_inv c -> event_ok c (ConversionSettled i outcome) ->
  lifecycle_inv (step c (ConversionSettled i outcome)).
Proof.
  intros Hinv Hok. cbn [step event_ok] in *.
  destruct (conversions c !! i) as [r|] eqn:Hr; [|exact Hinv].
  destruct (conv_settled r); [exact Hinv|].
  destruct outcome as [result | message]; cbn [workerSettled].
  - destruct (conv_cancelled r) eqn:Hcancelled; cbn [negb].
    + (* a cancelled run: the object URL of the result is released at once *)
      destruct (revoke result) as [u|] eqn:Hrevoke.
      * destruct Hok as (_ & Hnew & Hshown).
        split; cbn [shell source created mounted conversions activeConversion
                    revoked convertedPdfUrlRevokeRef convertedPdfUrl release].
        -- apply NoDup_app. split; [apply (held_once c Hinv)|].
           split; [|apply NoDup_singleton].
           intros x Hx Hxu. apply list_elem_of_singleton in Hxu as ->.
           now apply Hnew, (held_created c Hinv).
        -- intros x Hx. apply elem_of_app in Hx as [Hx | Hx];
             apply elem_of_app; [left; now apply (held_created c Hinv) | now right].
        -- intros x Hx. destruct (held_ref c Hinv x Hx) as [Hin Hout].
           split; [apply elem_of_app; now left|].
           intros Hin'. apply elem_of_app in Hin' as [? | Hxu]; [contradiction|].
           apply list_elem_of_singleton in Hxu as ->. contradiction.
        -- intros Hm x Hx. destruct (held_source c Hinv Hm x Hx) as (Hin & Hout & Hne).
           split; [apply elem_of_app; now left|]. split; [|exact Hne].
           intros Hin'. apply elem_of_app in Hin' as [? | Hxu]; [contradiction|].
           apply list_elem_of_singleton in Hxu as ->. contradiction.
        -- intros Hm x Hx Hin'.
           apply elem_of_app in Hin' as [Hin' | Hxu];
             [now apply (held_shown c Hinv Hm x Hx)|].
           apply list_elem_of_singleton in Hxu as ->. contradiction.
        -- intros Hm. destruct (held_unmounted c Hinv Hm) as [Hnone Hsrc].
           split; [exact Hnone|]. intros x Hx. apply elem_of_app. left.
           now apply Hsrc.
        -- intros j rj. apply (settle_live c i r j rj Hinv Hr).
      * split; cbn [shell source created mounted conversions activeConversion release];
          try apply Hinv.
        intros j rj. apply (settle_live c i r j rj Hinv Hr).
    + (* a live run: the result is shown, and held when it can be released *)
      destruct (held_live c Hinv i r Hr Hcancelled) as [_ Hm].
      assert (Hfresh : (pdfUrl result ∉ created c)
                       /\ forall u, revoke result = Some u ->
                                    u = pdfUrl result).
      { destruct (revoke result) as [u|]; [|split; [exact Hok | discriminate]].
        destruct Hok as (-> & Hnew & _). split; [exact Hnew|]. now intros ? [= ->]. }
      destruct Hfresh as [Hnew Hsame].
      split; cbn [shell source created mounted conversions activeConversion
                  revoked convertedPdfUrlRevokeRef convertedPdfUrl].
      * apply (held_once c Hinv).
      * intros x Hx. apply release_elem. left. now apply (held_created c Hinv).
      * intros x Hx. destruct (revoke result) as [u|] eqn:Hrevoke.
        -- injection Hx as ->. rewrite (Hsame x eq_refl) in *.
           split; [apply release_elem; now right|].
           intros Hin. now apply Hnew, (held_created c Hinv).
        -- destruct (held_ref c Hinv x Hx) as [Hin Hout].
           split; [exact Hin | exact Hout].
      * intros _ x Hx. destruct (held_source c Hinv Hm x Hx) as (Hin & Hout & Hne).
        split; [apply release_elem; now left|]. split; [exact Hout|].
        destruct (revoke result) as [u|] eqn:Hrevoke; [|exact Hne].
        intros [= ->]. rewrite (Hsame x eq_refl) in *. contradiction.
      * intros _ x [= <-] Hin. now apply Hnew, (held_created c Hinv).
      * intros Hfalse. congruence.
      * intros j rj. apply (settle_live c i r j rj Hinv Hr).
  - assert (Hshell : forall s',
              revoked s' = revoked (shell c) ->
              convertedPdfUrlRevokeRef s' = convertedPdfUrlRevokeRef (shell c) ->
              convertedPdfUrl s' = convertedPdfUrl (shell c) ->
              lifecycle_inv {| props := props c; source := source c; shell := s';
                     conversions := <[i := settleConversion r]> (conversions c);
                     activeConversion := activeConversion c;
                     created := created c; mounted := mounted c |}).
    { intros s' Hrev Href Hconv.
      split; cbn [shell source created mounted conversions activeConversion];
        rewrite ?Hrev, ?Href, ?Hconv; try apply Hinv.
      intros j rj. apply (settle_live c i r j rj Hinv Hr). }
    destruct (conv_cancelled r); cbn [negb]; now apply Hshell.
Qed.

Lemma lifecycle_step_inv c e : lifecycle_inv c -> event_ok c e -> lifecycle_inv (step c e).
Proof.
  intros Hinv Hok. destruct e.
  - now apply step_SourceChanged_inv.
  - now apply step_KeyChanged_inv.
  - now apply step_ConversionDepsChanged_inv.
  - now apply step_ConversionSettled_inv.
  - now apply step_Unmount_inv.
Qed.

Lemma lifecycle_run_inv p objectUrl events :
  trace_ok (mount p objectUrl) events -> lifecycle_inv (run p objectUrl events).
Proof.
  unfold run. generalize (mount_inv p objectUrl).
  generalize (mount p objectUrl).
  induction events as [|e events IH]; intros c Hinv Hok; [exact Hinv|].
  destruct Hok as [He Hok]. cbn [fold_left]. apply IH; [|exact Hok].
  now apply lifecycle_step_inv.
Qed.

(** X9.  Whatever sequence of renders, settled conversions and unmount
    the component lives through, no object URL is released twice, and only
    object URLs the component or its worker client made are released. *)
Theorem object_urls_are_released_at_most_once (p : Props) (objectUrl : string)
    (events : list Event) :
  trace_ok (mount p objectUrl) events ->
  NoDup (revoked (shell (run p objectUrl events)))
  /\ forall u, u ∈ revoked (shell (run p objectUrl events)) ->
               u ∈ created (run p objectUrl events).
Proof.
  intros Hok. pose proof (lifecycle_run_inv p objectUrl events Hok) as Hinv.
  split; [apply (held_once _ Hinv) | apply (held_created _ Hinv)].
Qed.

(** X10.  While the component is mounted, the URLs it uses have not been
    released: not the object URL of a binary source, not the converted
    document on display, and not the URL the ref holds for a later
    release. *)
Theorem urls_in_use_are_not_released (p : Props) (objectUrl : string)
    (events : list Event) :
  trace_ok (mount p objectUrl) events ->
  mounted (run p objectUrl events) = true ->
  (forall u, revokeUrl (source (run p objectUrl events)) = Some u ->
             u ∉ revoked (shell (run p objectUrl events)))
  /\ (forall u, convertedPdfUrl (shell (run p objectUrl events)) = Some u ->
                u ∉ revoked (shell (run p objectUrl events)))
  /\ (forall u, convertedPdfUrlRevokeRef (shell (run p objectUrl events)) = Some u ->
                u ∉ revoked (shell (run p objectUrl events))).
Proof.
  intros Hok Hm. pose proof (lifecycle_run_inv p objectUrl events Hok) as Hinv.
  split; [|split].
  - intros u Hu. now apply (held_source _ Hinv Hm u Hu).
  - apply (held_shown _ Hinv Hm).
  - intros u Hu. now apply (held_ref _ Hinv u Hu).
Qed.

(** X11.  Unmounting releases what the component holds: the object URL of
    a binary source and the converted document the ref holds are released,
    the ref is emptied and every conversion is cancelled, so that an
    object URL a conversion delivers afterwards is released on arrival and
    never shown. *)
Theorem unmount_releases_what_is_held (p : Props) (objectUrl : string)
    (events : list Event) :
  trace_ok (mount p objectUrl) events ->
  mounted (run p objectUrl events) = true ->
  let before := run p objectUrl events in
  let after := step before Unmount in
  (forall u, revokeUrl (source before) = Some u -> u ∈ revoked (shell after))
  /\ (forall u, convertedPdfUrlRevokeRef (shell before) = Some u ->
                u ∈ revoked (shell after))
  /\ convertedPdfUrlRevokeRef (shell after) = None
  /\ (forall i r, conversions after !! i = Some r -> conv_cancelled r = true)
  /\ (forall i r u url,
        conversions after !! i = Some r -> conv_settled r = false ->
        let late := step after (ConversionSettled i
                                  (Fulfilled {| pdfUrl := url; revoke := Some u |})) in
        u ∈ revoked (shell late)
        /\ convertedPdfUrl (shell late) = convertedPdfUrl (shell after)).
Proof.
  intros Hok Hm. cbv zeta.
  pose proof (lifecycle_run_inv p objectUrl events Hok) as Hinv.
  set (c := run p objectUrl events) in *.
  assert (Hcancelled : forall i r, conversions (step c Unmount) !! i = Some r ->
                                   conv_cancelled r = true).
  { intros i r Hr. pose proof (step_Unmount_inv c Hinv) as Hafter.
    destruct (conv_cancelled r) eqn:Hc; [reflexivity|].
    destruct (held_live _ Hafter i r Hr Hc) as [_ Hmounted].
    cbn [step] in Hmounted. rewrite Hm in Hmounted. discriminate. }
  split; [|split; [|split; [|split]]].
  - intros u Hu. apply (held_unmounted _ (step_Unmount_inv c Hinv)).
    + cbn [step]. now rewrite Hm.
    + cbn [step]. rewrite Hm. cbv zeta. cbn [source].
      destruct (conversionCleanup_fields
                  (set_shell (releaseConverted (releaseSource (source c) (shell c))) c))
        as (_ & -> & _). exact Hu.
  - intros u Hu. cbn [step]. rewrite Hm. cbv zeta. cbn [shell].
    destruct (conversionCleanup_fields
                (set_shell (releaseConverted (releaseSource (source c) (shell c))) c))
      as (-> & _).
    cbn [set_shell shell releaseConverted releaseSource revoked
         convertedPdfUrlRevokeRef].
    apply release_elem. now right.
  - apply (held_unmounted _ (step_Unmount_inv c Hinv)).
    cbn [step]. now rewrite Hm.
  - exact Hcancelled.
  - intros i r u url Hr Hsettled. pose proof (Hcancelled i r Hr) as Hc.
    remember (step c Unmount) as after eqn:Hafter. clear Hafter.
    cbn [step]. rewrite Hr, Hsettled, Hc.
    cbn [workerSettled negb revoke shell revoked convertedPdfUrl].
    split; [|reflexivity]. apply elem_of_app. right. apply list_elem_of_singleton.
    reflexivity.
Qed.

End WithPlatform.

(** A word document is mounted, its conversion answers with a PDF, the
    host passes another document, and the conversion of that one answers
    too. *)
Section Scenario.
Import ReferencePlatform ConversionProofs.

Definition twoDocuments : list Event :=
  [ ConversionSettled 0 (Fulfilled {| pdfUrl := "blob:2"; revoke := Some "blob:2" |});
    SourceChanged docProps "blob:3";
    ConversionSettled 1 (Fulfilled {| pdfUrl := "blob:4"; revoke := Some "blob:4" |}) ].

Lemma twoDocuments_ok : trace_ok (mount docProps "blob:1") twoDocuments.
Proof.
  unfold twoDocuments. cbn [trace_ok]. repeat split.
  all: vm_compute; repeat split; try reflexivity; try discriminate.
  all: lazymatch goal with |- true = true -> _ => intros _ | _ => idtac end;
    intros Hin;
    repeat (apply elem_of_cons in Hin as [Hin | Hin]; [discriminate Hin|]);
    now apply elem_of_nil in Hin.
Qed.

Lemma object_urls_are_released_at_most_once_witness :
  revoked (shell (run docProps "blob:1" twoDocuments)) = ["blob:1"; "blob:2"]
  /\ NoDup (revoked (shell (run docProps "blob:1" twoDocuments)))
  /\ forall u, u ∈ revoked (shell (run docProps "blob:1" twoDocuments)) ->
               u ∈ created (run docProps "blob:1" twoDocuments).
Proof.
  split; [reflexivity|].
  apply (object_urls_are_released_at_most_once docProps "blob:1" twoDocuments).
  exact twoDocuments_ok.
Defined.

Lemma urls_in_use_are_not_released_witness :
  source (run docProps "blob:1" twoDocuments)
  = {| url := "blob:3"; revokeUrl := Some "blob:3" |}
  /\ convertedPdfUrl (shell (run docProps "blob:1" twoDocuments)) = Some "blob:4"
  /\ ("blob:3" ∉ revoked (shell (run docProps "blob:1" twoDocuments)))
  /\ "blob:4" ∉ revoked (shell (run docProps "blob:1" twoDocuments)).
Proof.
  destruct (urls_in_use_are_not_released docProps "blob:1" twoDocuments
              twoDocuments_ok eq_refl) as (Hsource & Hshown & _).
  split; [reflexivity|]. split; [reflexivity|].
  split; [now apply Hsource | now apply Hshown].
Defined.

Lemma unmount_releases_what_is_held_witness :
  revoked (shell (step (run docProps "blob:1" twoDocuments) Unmount))
  = ["blob:1"; "blob:2"; "blob:3"; "blob:4"]
  /\ "blob:3" ∈ revoked (shell (step (run docProps "blob:1" twoDocuments) Unmount))
  /\ "blob:4" ∈ revoked (shell (step (run docProps "blob:1" twoDocuments) Unmount)).
Proof.
  destruct (unmount_releases_what_is_held docProps "blob:1" twoDocuments
              twoDocuments_ok eq_refl) as (Hsource & Href & _).
  split; [reflexivity|].
  split; [now apply Hsource | now apply Href].
Defined.

End Scenario.
End LifecycleProofs.

(** ** Zoom: progress, limits and the page-fit multiplier *)

Module ZoomMore.
Import PdfRenderer ZoomProofs.
Local Open Scope Q_scope.

(** X12.  Below the upper bound every zoom-in enlarges the multiplier, and
    above the lower bound every zoom-out reduces it; at the bounds the
    steps change nothing. *)
Theorem zoom_steps_make_progress z :
  (z < 5 -> z < handleZoomIn z)
  /\ (0.25 < z -> handleZoomOut z < z)
  /\ (z == 5 -> handleZoomIn z == 5)
  /\ (z == 0.25 -> handleZoomOut z == 0.25).
Proof.
  repeat split; intros Hz.
  - unfold handleZoomIn, ZOOM_STEPS. cbn [find].
    zoom_cases; min_max_cases; lra.
  - unfold handleZoomOut. rewrite rev_ZOOM_STEPS. cbn [find].
    zoom_cases; min_max_cases; lra.
  - unfold handleZoomIn, ZOOM_STEPS. cbn [find].
    zoom_cases; min_max_cases; lra.
  - unfold handleZoomOut. rewrite rev_ZOOM_STEPS. cbn [find].
    zoom_cases; min_max_cases; lra.
Qed.

Lemma handleZoomIn_monotone a b : a <= b -> handleZoomIn a <= handleZoomIn b.
Proof.
  intros Hab. unfold handleZoomIn, ZOOM_STEPS. cbn [find].
  zoom_cases; min_max_cases; lra.
Qed.

Lemma handleZoomOut_monotone a b : a <= b -> handleZoomOut a <= handleZoomOut b.
Proof.
  intros Hab. unfold handleZoomOut. rewrite rev_ZOOM_STEPS. cbn [find].
  zoom_cases; min_max_cases; lra.
Qed.

Lemma iter_monotone (f : Q -> Q) n a b :
  (forall x y, x <= y -> f x <= f y) -> a <= b -> Nat.iter n f a <= Nat.iter n f b.
Proof.
  intros Hf Hab. induction n as [|n IH]; [exact Hab|].
  cbn [Nat.iter nat_rect]. now apply Hf.
Qed.

Lemma iter_handleZoomIn_le n z : z <= 5 -> Nat.iter n handleZoomIn z <= 5.
Proof.
  intros Hz. induction n as [|n IH]; [exact Hz|].
  cbn [Nat.iter nat_rect]. now apply handleZoomIn_bounds.
Qed.

Lemma iter_handleZoomOut_ge n z : 0.25 <= z -> 0.25 <= Nat.iter n handleZoomOut z.
Proof.
  intros Hz. induction n as [|n IH]; [exact Hz|].
  cbn [Nat.iter nat_rect]. now apply handleZoomOut_bounds.
Qed.

(** X13.  From any multiplier between the bounds, fifteen zoom-ins reach
    500 % and fifteen zoom-outs reach 25 %. *)
Theorem zoom_reaches_the_bounds z :
  0.25 <= z <= 5 ->
  Nat.iter 15 handleZoomIn z == 5 /\ Nat.iter 15 handleZoomOut z == 0.25.
Proof.
  intros [Hlo Hhi]. split.
  - apply Qle_antisym; [now apply iter_handleZoomIn_le|].
    assert (Hfloor : Nat.iter 15 handleZoomIn 0.25 == 5) by (vm_compute; reflexivity).
    rewrite <- Hfloor. apply iter_monotone; [apply handleZoomIn_monotone | exact Hlo].
  - apply Qle_antisym; [|now apply iter_handleZoomOut_ge].
    assert (Hceil : Nat.iter 15 handleZoomOut 5 == 0.25) by (vm_compute; reflexivity).
    rewrite <- Hceil. apply iter_monotone; [apply handleZoomOut_monotone | exact Hhi].
Qed.

Lemma zoom_reaches_the_bounds_witness :
  Nat.iter 15 handleZoomIn 1.1 == 5 /\ Nat.iter 15 handleZoomOut 1.1 == 0.25.
Proof. apply (zoom_reaches_the_bounds 1.1). split; lra. Defined.

(** Two presets that follow each other in the list of steps. *)
Inductive consecutive : list Q -> Q -> Q -> Prop :=
| consecutive_here p q rest : consecutive (p :: q :: rest) p q
| consecutive_later r steps p q : consecutive steps p q -> consecutive (r :: steps) p q.

(** X14.  On the presets the two buttons walk along the list of steps:
    zoom-in takes a preset to the next one and zoom-out takes that one
    back. *)
Theorem presets_are_walked_in_order p q :
  consecutive ZOOM_STEPS p q ->
  handleZoomIn p = q /\ handleZoomOut q = p.
Proof.
  unfold ZOOM_STEPS. intros Hc.
  repeat match goal with
         | Hc : consecutive (_ :: _) _ _ |- _ =>
             inversion Hc; subst; clear Hc; try (split; reflexivity)
         | Hc : consecutive [] _ _ |- _ => inversion Hc
         end.
Qed.

Lemma presets_are_walked_in_order_witness :
  handleZoomIn 1.5 = 2 /\ handleZoomOut 2 = 1.5.
Proof.
  apply (presets_are_walked_in_order 1.5 2).
  do 4 apply consecutive_later. apply consecutive_here.
Defined.

(** The multiplier of the page-fit mode for a measured width. *)
Definition fitZoom (width : Q) : Q :=
  effectiveZoom {| zoom := 1; zoomMode := pageFit; containerWidth := width |}.

Lemma fit_zoom_at_cap (s : ZoomState) :
  zoomMode s = pageFit -> 1636 <= containerWidth s -> effectiveZoom s == 2.
Proof.
  intros Hmode Hw. unfold effectiveZoom. rewrite Hmode.
  assert (Hb : Qltb 0 (containerWidth s) = true) by (apply Qltb_true; lra).
  rewrite Hb. unfold A4_WIDTH_PX.
  assert (Hdiv : (containerWidth s - 48) / 794 == (containerWidth s - 48) * (1 # 794))
    by reflexivity.
  rewrite Hdiv. min_max_cases; lra.
Qed.

(** X15.  In page-fit mode with a measured container the multiplier does
    not depend on the stored zoom, never exceeds 200 %, equals 200 % exactly
    from a width of 1636 pixels on, and grows with the width. *)
Theorem page_fit_zoom_is_capped (s : ZoomState) :
  zoomMode s = pageFit ->
  0 < containerWidth s ->
  effectiveZoom s = fitZoom (containerWidth s)
  /\ effectiveZoom s <= 2
  /\ (effectiveZoom s == 2 <-> 1636 <= containerWidth s)
  /\ (forall wider, containerWidth s <= wider -> effectiveZoom s <= fitZoom wider).
Proof.
  intros Hmode Hw. unfold fitZoom, effectiveZoom.
  cbn [zoomMode containerWidth zoom]. rewrite Hmode.
  pose proof Hw as Hb. apply Qltb_true in Hb. rewrite Hb.
  unfold A4_WIDTH_PX.
  set (w := containerWidth s) in *.
  assert (Hdiv : forall x, (x - 48) / 794 == (x - 48) * (1 # 794)).
  { intros x. reflexivity. }
  split; [reflexivity|]. split; [|split].
  - rewrite Hdiv. min_max_cases; lra.
  - rewrite Hdiv. split; intros Hq; revert Hq; min_max_cases; lra.
  - intros wider Hwider.
    assert (Hbw : Qltb 0 wider = true) by (apply Qltb_true; lra).
    rewrite Hbw, !Hdiv. min_max_cases; lra.
Qed.

Lemma page_fit_zoom_is_capped_witness :
  effectiveZoom {| zoom := 3; zoomMode := pageFit; containerWidth := 842 |}
  = fitZoom 842
  /\ effectiveZoom {| zoom := 3; zoomMode := pageFit; containerWidth := 842 |} <= 2
  /\ (effectiveZoom {| zoom := 3; zoomMode := pageFit; containerWidth := 842 |} == 2
      <-> 1636 <= 842)
  /\ (forall wider, 842 <= wider ->
        effectiveZoom {| zoom := 3; zoomMode := pageFit; containerWidth := 842 |}
        <= fitZoom wider).
Proof.
  apply (page_fit_zoom_is_capped
           {| zoom := 3; zoomMode := pageFit; containerWidth := 842 |});
    [reflexivity | reflexivity].
Defined.

(** X16.  The zoom buttons step from the stored multiplier, not from the
    one page-fit mode displays: pressed in page-fit mode they leave the
    mode and show the step of the stored value.  On a wide container,
    where page-fit shows 200 %, zoom-in from a stored value below 149 %
    therefore makes the page smaller. *)
Theorem zoom_in_from_page_fit_can_shrink (s : ZoomState) :
  effectiveZoom (zoom_step s ZoomIn) = handleZoomIn (zoom s)
  /\ effectiveZoom (zoom_step s ZoomOut) = handleZoomOut (zoom s)
  /\ (zoomMode s = pageFit -> 1636 <= containerWidth s -> zoom s < 1.49 ->
      effectiveZoom (zoom_step s ZoomIn) < effectiveZoom s).
Proof.
  split; [reflexivity|]. split; [reflexivity|].
  intros Hmode Hw Hz.
  rewrite (fit_zoom_at_cap s Hmode Hw).
  cbn [zoom_step effectiveZoom zoomMode zoom].
  unfold handleZoomIn, ZOOM_STEPS. cbn [find].
  zoom_cases; min_max_cases; lra.
Qed.

End ZoomMore.

(** ** Inline styles *)

Module StyleProofs.
Import PdfRenderer PdfControls JsFacts HighlightProofs.

(** The property has a value: it is not [null] or [undefined]. *)
Definition is_set (entry : string * CssValue) : bool :=
  match entry.2 with CssNull => false | _ => true end.

Lemma truthy_app_r a b : truthy b = true -> truthy (a +:+ b) = true.
Proof. destruct a; [now rewrite app_nil_l | reflexivity]. Qed.

Lemma declaration_truthy entry : truthy (declaration entry) = is_set entry.
Proof.
  unfold declaration, is_set. destruct (entry.2); [reflexivity| |].
  - case_bool_decide; now apply truthy_app_r.
  - now apply truthy_app_r.
Qed.

Lemma filter_declarations entries :
  filter (fun d => truthy d = true) (map declaration entries)
  = map declaration (filter (fun e => is_set e = true) entries).
Proof.
  induction entries as [|e entries IH]; [reflexivity|].
  cbn [map]. rewrite !filter_cons, IH, declaration_truthy.
  destruct (is_set e); repeat case_decide; try congruence; reflexivity.
Qed.

(** X17.  [styleToInline] skips the properties that are [null] or
    [undefined] and turns every other property into exactly one
    declaration, in the order of the entries and separated by semicolons;
    no declaration is empty, and an absent or empty style gives the empty
    string. *)
Theorem styleToInline_lists_set_properties
    (entries : list (string * CssValue)) :
  styleToInline (Some entries)
  = join ";" (map declaration (filter (fun e => is_set e = true) entries))
  /\ Forall (fun e => truthy (declaration e) = true)
       (filter (fun e => is_set e = true) entries)
  /\ (Forall (fun e => is_set e = false) entries ->
      styleToInline (Some entries) = styleToInline None).
Proof.
  unfold styleToInline. rewrite filter_declarations.
  split; [reflexivity|]. split.
  - apply Forall_forall. intros e He.
    apply list_elem_of_filter in He as [He _].
    now rewrite declaration_truthy.
  - intros Hnone. induction Hnone as [|e entries He _ IH]; [reflexivity|].
    rewrite filter_cons. case_decide; [congruence | exact IH].
Qed.

(** The text of a value. *)
Definition value_text (v : CssValue) : string :=
  match v with CssNull => "" | CssNumber text | CssText text => text end.

(** Neither the name nor the value of the property holds a double quote. *)
Definition quote_free (entry : string * CssValue) : Prop :=
  has_char dquote entry.1 = false /\ has_char dquote (value_text entry.2) = false.

Lemma lower_char_not_dquote c :
  ReferencePlatform.is_upper c = true ->
  Ascii.eqb (ReferencePlatform.lower_char c) dquote = false.
Proof.
  destruct c as [[] [] [] [] [] [] [] []]; vm_compute; congruence.
Qed.

Lemma cssKey_quote_free key :
  has_char dquote key = false -> has_char dquote (cssKey key) = false.
Proof.
  induction key as [|c key IH]; [reflexivity|].
  cbn [has_char cssKey].
  destruct (Ascii.eqb c dquote) eqn:Hc; [discriminate|]. intros Hkey.
  destruct (ReferencePlatform.is_upper c) eqn:Hu; cbn [has_char].
  - rewrite (lower_char_not_dquote c Hu). replace (Ascii.eqb "-" dquote) with false
      by reflexivity. now apply IH.
  - rewrite Hc. now apply IH.
Qed.

Lemma declaration_quote_free entry :
  quote_free entry -> has_char dquote (declaration entry) = false.
Proof.
  intros [Hkey Hvalue]. apply cssKey_quote_free in Hkey.
  unfold declaration. destruct (entry.2) as [|text|text]; [reflexivity| |];
    cbn [value_text] in Hvalue; try case_bool_decide;
    rewrite !has_char_app, Hkey, Hvalue; reflexivity.
Qed.

Lemma join_quote_free sep items :
  has_char dquote sep = false ->
  Forall (fun d => has_char dquote d = false) items ->
  has_char dquote (join sep items) = false.
Proof.
  intros Hsep Hitems. induction Hitems as [|d items Hd Hitems IH]; [reflexivity|].
  cbn [join]. destruct items as [|d' items]; [exact Hd|].
  now rewrite !has_char_app, Hd, Hsep, IH.
Qed.

Lemma styleToInline_quote_free style :
  (forall entries, style = Some entries -> Forall quote_free entries) ->
  has_char dquote (styleToInline style) = false.
Proof.
  intros Hfree. destruct style as [entries|]; [|reflexivity].
  specialize (Hfree entries eq_refl). unfold styleToInline.
  apply join_quote_free; [reflexivity|].
  apply Forall_forall. intros d Hd.
  apply list_elem_of_filter in Hd as [_ Hd].
  apply list_elem_of_fmap in Hd as (e & -> & He).
  apply declaration_quote_free.
  rewrite Forall_forall in Hfree. now apply Hfree.
Qed.

(** X18.  The style strings [styleToInline] makes of style objects without
    a double quote in their property names and values contain no double
    quote; with class names free of double quotes, the options of the text
    renderer then meet the condition under which the highlighted markup
    reads back as the text of the fragment. *)
Theorem inline_styles_keep_attributes_safe
    (className activeClassName : string)
    (style activeStyle pageStyle : option (list (string * CssValue)))
    (mode : PageTextMode) (page : option nat) :
  has_char dquote className = false ->
  has_char dquote activeClassName = false ->
  (forall entries, style = Some entries -> Forall quote_free entries) ->
  (forall entries, activeStyle = Some entries -> Forall quote_free entries) ->
  (forall entries, pageStyle = Some entries -> Forall quote_free entries) ->
  attributes_safe
    {| searchHighlightClassName := className;
       searchHighlightStyleString := styleToInline style;
       searchActiveHighlightClassName := activeClassName;
       searchActiveHighlightStyleString := styleToInline activeStyle;
       highlightPageTextMode := mode;
       highlightPageNumber := page;
       highlightPageTextStyleString := styleToInline pageStyle |}.
Proof.
  intros Hclass Hactive Hstyle HactiveStyle HpageStyle.
  split; cbn; auto using styleToInline_quote_free.
Qed.

Lemma inline_styles_keep_attributes_safe_witness :
  styleToInline (Some [("backgroundColor", CssText "#ffeb3b"); ("zIndex", CssNumber "2");
                       ("borderRadius", CssNumber "2"); ("color", CssNull)])
  = "background-color:#ffeb3b;z-index:2;border-radius:2px"
  /\ attributes_safe
       {| searchHighlightClassName := "hit";
          searchHighlightStyleString :=
            styleToInline (Some [("backgroundColor", CssText "#ffeb3b");
                                 ("zIndex", CssNumber "2");
                                 ("borderRadius", CssNumber "2"); ("color", CssNull)]);
          searchActiveHighlightClassName := "hit-active";
          searchActiveHighlightStyleString := styleToInline None;
          highlightPageTextMode := modeNone;
          highlightPageNumber := None;
          highlightPageTextStyleString := styleToInline (Some []) |}.
Proof.
  split; [reflexivity|].
  apply (inline_styles_keep_attributes_safe "hit" "hit-active"
           (Some [("backgroundColor", CssText "#ffeb3b"); ("zIndex", CssNumber "2");
                  ("borderRadius", CssNumber "2"); ("color", CssNull)])
           None (Some []) modeNone None);
    try reflexivity; intros entries [= <-]; repeat constructor.
Defined.

End StyleProofs.

(** ** Page tracking *)

Module PageTrackingProofs.
Import PdfRenderer PdfControls ZoomProofs.
Local Open Scope Q_scope.

(** Names the minima and maxima of the goal, innermost first, and keeps
    what [Q.min_spec] and [Q.max_spec] say of them. *)
Ltac name_min_max :=
  repeat match goal with
    | |- context [Qmin ?a ?b] =>
        lazymatch a with context [Qmin _ _] => fail | context [Qmax _ _] => fail | _ => idtac end;
        lazymatch b with context [Qmin _ _] => fail | context [Qmax _ _] => fail | _ => idtac end;
        let m := fresh "m" in
        pose proof (Q.min_spec a b); set (m := Qmin a b) in *; clearbody m
    | |- context [Qmax ?a ?b] =>
        lazymatch a with context [Qmin _ _] => fail | context [Qmax _ _] => fail | _ => idtac end;
        lazymatch b with context [Qmin _ _] => fail | context [Qmax _ _] => fail | _ => idtac end;
        let m := fresh "m" in
        pose proof (Q.max_spec a b); set (m := Qmax a b) in *; clearbody m
    end.

Ltac min_max_lra :=
  name_min_max;
  repeat match goal with
    | H : _ /\ _ \/ _ /\ _ |- _ => destruct H as [[? ?] | [? ?]]
    end;
  lra.

(** The visible part of a page is a fraction of its height. *)
Lemma visibleRatio_bounds viewerRect rect :
  0 <= visibleRatio viewerRect rect <= 1.
Proof.
  unfold visibleRatio, rect_bottom.
  destruct (Qltb 0 (rect_height rect)) eqn:Hh; [|split; lra].
  apply Qltb_true in Hh. split.
  - apply Qle_shift_div_l; [exact Hh|]. min_max_lra.
  - apply Qle_shift_div_r; [exact Hh|]. min_max_lra.
Qed.

(** What the loop over the pages leaves in the accumulator: either nothing
    beat the initial ratio, or the accumulator holds the first entry of
    greatest ratio. *)
Lemma measurePage_fold viewerRect pageRefs : forall acc,
  let result := fold_left (measurePage viewerRect) pageRefs acc in
  (result = acc
   /\ forall entry, entry ∈ pageRefs -> visibleRatio viewerRect entry.2 <= acc.2)
  \/ exists before rect after,
       pageRefs = (before ++ (result.1, rect) :: after)%list
       /\ result.2 = visibleRatio viewerRect rect
       /\ acc.2 < visibleRatio viewerRect rect
       /\ (forall entry, entry ∈ before ->
             visibleRatio viewerRect entry.2 < visibleRatio viewerRect rect)
       /\ (forall entry, entry ∈ after ->
             visibleRatio viewerRect entry.2 <= visibleRatio viewerRect rect).
Proof.
  induction pageRefs as [|e pageRefs IH]; intros acc; cbn [fold_left].
  { left. split; [reflexivity|]. intros entry He. now apply elem_of_nil in He. }
  destruct (Qltb acc.2 (visibleRatio viewerRect e.2)) eqn:Hbeats.
  - assert (Hstep : measurePage viewerRect acc e = (e.1, visibleRatio viewerRect e.2))
      by (unfold measurePage; now rewrite Hbeats).
    rewrite Hstep. clear Hstep. apply Qltb_true in Hbeats.
    destruct (IH (e.1, visibleRatio viewerRect e.2)) as [[Hres Hle] | Hlater];
      cbv zeta in *.
    + right. exists [], e.2, pageRefs. rewrite Hres. cbn [fst snd app].
      split; [now destruct e|]. split; [reflexivity|]. split; [exact Hbeats|].
      split; [intros entry He; now apply elem_of_nil in He | exact Hle].
    + destruct Hlater as (before & rect & after & Hrefs & Hratio & Hgt & Hbefore & Hafter).
      cbn [snd] in Hgt.
      right. exists (e :: before), rect, after.
      split; [cbn [app]; f_equal; exact Hrefs|]. split; [exact Hratio|]. split; [lra|].
      split; [|exact Hafter].
      intros entry He. apply elem_of_cons in He as [-> | He];
        [exact Hgt | now apply Hbefore].
  - assert (Hstep : measurePage viewerRect acc e = acc)
      by (unfold measurePage; now rewrite Hbeats).
    rewrite Hstep. clear Hstep. apply Qltb_false in Hbeats.
    destruct (IH acc) as [[Hres Hle] | Hlater]; cbv zeta in *.
    + left. split; [exact Hres|].
      intros entry He. apply elem_of_cons in He as [-> | He];
        [exact Hbeats | now apply Hle].
    + destruct Hlater as (before & rect & after & Hrefs & Hratio & Hgt & Hbefore & Hafter).
      right. exists (e :: before), rect, after.
      split; [cbn [app]; f_equal; exact Hrefs|]. split; [exact Hratio|]. split; [exact Hgt|].
      split; [|exact Hafter].
      intros entry He. apply elem_of_cons in He as [-> | He];
        [lra | now apply Hbefore].
Qed.

(** X19.  The page the scroll listener reports is the first page, in the
    order of the page map, whose visible fraction is the greatest, and a
    part of it is visible; when no page is visible at all the current page is
    left as it is. *)
Theorem detected_page_is_most_visible viewerRect pageRefs :
  match detectPage viewerRect pageRefs with
  | Some page =>
      exists before rect after,
        pageRefs = (before ++ (page, rect) :: after)%list
        /\ 0 < visibleRatio viewerRect rect <= 1
        /\ (forall entry, entry ∈ before ->
              visibleRatio viewerRect entry.2 < visibleRatio viewerRect rect)
        /\ (forall entry, entry ∈ after ->
              visibleRatio viewerRect entry.2 <= visibleRatio viewerRect rect)
  | None =>
      forall entry, entry ∈ pageRefs -> visibleRatio viewerRect entry.2 == 0
  end.
Proof.
  unfold detectPage. cbv zeta.
  destruct (measurePage_fold viewerRect pageRefs (1%nat, 0))
    as [[Hres Hle] | (before & rect & after & Hrefs & Hratio & Hgt & Hbefore & Hafter)];
    cbv zeta in *.
  - rewrite Hres. cbn [snd] in *.
    replace (Qltb 0 0) with false by reflexivity.
    intros entry He. apply Qle_antisym; [now apply Hle|].
    apply visibleRatio_bounds.
  - cbn [snd] in Hgt. rewrite Hratio.
    apply Qltb_true in Hgt as Hb. rewrite Hb.
    exists before, rect, after. split; [exact Hrefs|].
    split; [|split; assumption].
    split; [exact Hgt | apply visibleRatio_bounds].
Qed.

End PageTrackingProofs.

(** ** Page navigation and the page box *)

Module PageNavigationProofs.
Import PdfRenderer PdfControls.







End PageNavigationProofs.

(** ** The page box *)

Module PageBoxProofs.
Import PdfRenderer PdfControls PageNavigationProofs.







End PageBoxProofs.

(** ** The API handed to the host *)

Module ViewerApiProofs.
Import PdfRenderer PdfControls.

Lemma viewerReadyEffect_called renders : forall r,
  viewerReadyCalled r = true ->
  fold_left viewerReadyEffect renders r = r.
Proof.
  induction renders as [|render renders IH]; intros r Hr; [reflexivity|].
  cbn [fold_left]. unfold viewerReadyEffect at 2. rewrite Hr.
  destruct (render.1); now apply IH.
Qed.

(** X22.  [onViewerReady] is called at most once, whatever the number of
    renders and however often the callback or the API object change: the
    call is made after the first render at which the callback is supplied,
    with the API object of that render. *)
Theorem viewer_api_is_delivered_once (renders : list (option nat * Viewer)) :
  length (deliveries (fold_left viewerReadyEffect renders ready_initial)) <= 1
  /\ (forall before callback s after,
        renders = (before ++ (Some callback, s) :: after)%list ->
        Forall (fun render => render.1 = None) before ->
        deliveries (fold_left viewerReadyEffect renders ready_initial)
        = [(callback, viewerApi s)])
  /\ (Forall (fun render => render.1 = None) renders ->
      deliveries (fold_left viewerReadyEffect renders ready_initial) = []).
Proof.
  assert (Hskip : forall before r,
            Forall (fun render : option nat * Viewer => render.1 = None) before ->
            fold_left viewerReadyEffect before r = r).
  { induction before as [|render before IH]; intros r Hnone; [reflexivity|].
    apply Forall_cons in Hnone as [Hrender Hnone]. cbn [fold_left].
    unfold viewerReadyEffect at 2. rewrite Hrender. now apply IH. }
  assert (Hfirst : forall before callback s after,
            Forall (fun render : option nat * Viewer => render.1 = None) before ->
            deliveries (fold_left viewerReadyEffect
                          (before ++ (Some callback, s) :: after)%list ready_initial)
            = [(callback, viewerApi s)]).
  { intros before callback s after Hnone.
    rewrite fold_left_app, (Hskip before _ Hnone). cbn [fold_left].
    now rewrite viewerReadyEffect_called. }
  assert (Hcases : Forall (fun render : option nat * Viewer => render.1 = None) renders
                   \/ exists before callback s after,
                        renders = (before ++ (Some callback, s) :: after)%list
                        /\ Forall (fun render : option nat * Viewer => render.1 = None)
                             before).
  { induction renders as [|[[callback|] s] renders IH].
    - left. constructor.
    - right. exists [], callback, s, renders. split; [reflexivity | constructor].
    - destruct IH as [Hnone | (before & callback & s' & after & -> & Hnone)].
      + left. now constructor.
      + right. exists ((None, s) :: before), callback, s', after.
        split; [reflexivity | now constructor]. }
  split; [|split].
  - destruct Hcases as [Hnone | (before & callback & s & after & -> & Hnone)].
    + rewrite (Hskip _ _ Hnone). cbn. lia.
    + rewrite (Hfirst _ _ _ _ Hnone). cbn. lia.
  - intros before callback s after -> Hnone. now apply Hfirst.
  - intros Hnone. now rewrite Hskip.
Qed.

(** The functions of the API object of a render, called in the state of
    that render, are the handlers of the toolbar. *)
Lemma api_of_current_render s :
  apiNextMatch (viewerApi s) s = nextMatch s
  /\ apiPrevMatch (viewerApi s) s = prevMatch s.
Proof. split; reflexivity. Qed.

(** X23.  When the callback is supplied from the first render on, the host
    receives the API object of the first render, made before any search
    has run: its [nextMatch] and [prevMatch] see an empty list of matches
    and do nothing, in whatever state the viewer is when they are called
    and whatever was rendered since. *)
Theorem host_match_navigation_is_inert (callback : nat)
    (later : list (option nat * Viewer)) :
  exists api,
    deliveries (fold_left viewerReadyEffect ((Some callback, initial) :: later)
                  ready_initial)
    = [(callback, api)]
    /\ forall s, apiNextMatch api s = s /\ apiPrevMatch api s = s.
Proof.
  exists (viewerApi initial). split.
  - cbn [fold_left]. now rewrite viewerReadyEffect_called.
  - intros s. split; reflexivity.
Qed.

End ViewerApiProofs.

(** ** Search: clearing the query *)

Module SearchMore.
Import PdfRenderer SearchProofs.

Section WithPlatform.
Context `{Platform}.

Definition all_cancelled (s : Viewer) : Prop :=
  forall i r, runs s !! i = Some r -> run_cancelled r = true.

Lemma pageSettled_all_cancelled i items s :
  all_cancelled s ->
  all_cancelled (pageSettled i items s)
  /\ published (pageSettled i items s) = published s.
Proof.
  intros Hall.
  destruct (runs s !! i) as [r|] eqn:Hr.
  2:{ unfold pageSettled. rewrite Hr. now split. }
  pose proof (Hall i r Hr) as Hc.
  split; [|now apply (cancelled_run_silent s i r)].
  unfold pageSettled. rewrite Hr, Hc.
  destruct (run_status r); [|exact Hall..].
  destruct items as [its|]; cbn [negb andb];
    rewrite ?andb_false_r;
    intros j rj Hj; cbn [set_runs runs] in Hj;
    (destruct (decide (j = i)) as [-> | Hne];
     [ apply list_lookup_insert_Some in Hj as [(_ & <- & _) | [Hne _]];
       [reflexivity | congruence]
     | rewrite list_lookup_insert_ne in Hj by congruence; now apply (Hall j) ]).
Qed.

(** X24.  Clearing the search box, or leaving only white space in it,
    empties the list of matches, resets the index and cancels every run;
    no text extraction that settles afterwards brings a match back or
    scrolls the viewer. *)
Theorem cleared_query_stays_empty (s : Viewer) (q : string)
    (settles : list (nat * option (list (option string)))) :
  reachable s ->
  q <> searchQuery s ->
  truthy (toLowerCase (trim q)) = false ->
  let cleared := step s (SetSearchQuery q) in
  let later :=
    fold_left step (map (fun settle => PageSettled settle.1 settle.2) settles)
      cleared in
  searchMatches cleared = []
  /\ searchIndex cleared = 0%Z
  /\ scrolls cleared = scrolls s
  /\ (forall i r, runs cleared !! i = Some r -> run_cancelled r = true)
  /\ published later = published cleared.
Proof.
  intros Hreach Hq Hempty. cbv zeta.
  apply reachable_inv in Hreach.
  assert (Hstep : step s (SetSearchQuery q)
                  = searchEffect (searchCleanup (set_query q s))).
  { cbn [step]. destruct (String.eqb q (searchQuery s)) eqn:Heq; [|reflexivity].
    apply String.eqb_eq in Heq. contradiction. }
  rewrite Hstep.
  set (c := searchCleanup (set_query q s)).
  assert (Hquery : searchQuery c = q).
  { unfold c, searchCleanup. destruct (activeRun _); reflexivity. }
  assert (Hscrolls : scrolls c = scrolls s).
  { unfold c, searchCleanup. destruct (activeRun _); reflexivity. }
  assert (Hcancelled : all_cancelled c).
  { unfold c. intros i r. apply searchCleanup_cancels. intros j rj Hr Hlive.
    now apply (inv_live s Hreach j rj). }
  assert (Heffect : searchEffect c = set_runs (runs c) None (set_search [] 0%Z c)).
  { unfold searchEffect. rewrite Hquery, Hempty.
    destruct (numPages c) as [[|n]|]; reflexivity. }
  rewrite Heffect.
  split; [reflexivity|]. split; [reflexivity|]. split; [exact Hscrolls|].
  split; [exact Hcancelled|].
  assert (Hall : all_cancelled (set_runs (runs c) None (set_search [] 0%Z c)))
    by exact Hcancelled.
  revert Hall. generalize (set_runs (runs c) None (set_search [] 0%Z c)).
  induction settles as [|[i items] settles IH]; intros v Hall; [reflexivity|].
  cbn [map fold_left step fst snd].
  destruct (pageSettled_all_cancelled i items v Hall) as [Hall' Hsame].
  rewrite (IH _ Hall'). exact Hsame.
Qed.

End WithPlatform.

Section Witness.
Import ReferencePlatform.

Lemma cleared_query_stays_empty_witness :
  searchMatches (exec searchedTwoPages) = [1; 3]
  /\ searchMatches (step (exec searchedTwoPages) (SetSearchQuery "  ")) = []
  /\ published (fold_left step [PageSettled 0 (Some [Some "a"])]
                  (step (exec searchedTwoPages) (SetSearchQuery "  ")))
     = published (step (exec searchedTwoPages) (SetSearchQuery "  ")).
Proof.
  split; [reflexivity|].
  destruct (cleared_query_stays_empty (exec searchedTwoPages) "  "
              [(0, Some [Some "a"])])
    as (Hmatches & _ & _ & _ & Hlater);
    [now exists searchedTwoPages | discriminate | reflexivity |].
  split; [exact Hmatches | exact Hlater].
Defined.

End Witness.

End SearchMore.

(** ** Link interception: the whole contract of the listener *)

Module LinkMore.
Import PdfRenderer LinkProofs.

Section WithPlatform.
Context `{Platform}.

(** X25.  The click listener acts on a click exactly when the click is
    inside an anchor whose [href] attribute is not empty and resolves,
    against the location of the page, to a URL with the protocol [http:],
    [https:] or [mailto:]; it then opens the text of the attribute, not the
    resolved URL.  Every other click is left to the browser. *)
Theorem click_interception_contract (location : string)
    (anchor : option (option string)) :
  (forall href,
     onClick location anchor = OpenedInNewContext href
     <-> anchor = Some (Some href) /\ truthy href = true
         /\ exists protocol, url_protocol href location = Some protocol
                             /\ protocol ∈ EXTERNAL_LINK_PROTOCOLS)
  /\ (onClick location anchor = DefaultNavigation
      \/ exists href, onClick location anchor = OpenedInNewContext href).
Proof.
  split.
  - intros href. destruct anchor as [attribute|].
    + rewrite onClick_intercepts. split.
      * intros (-> & Ht & Hp). now split.
      * intros ([= ->] & Ht & Hp). now split.
    + split; [discriminate | now intros [? _]].
  - destruct (onClick location anchor) as [|href]; [now left | right; now exists href].
Qed.

End WithPlatform.
End LinkMore.

(** ** Highlighting: which fragments get a match span *)

Module HighlightMore.
Import PdfRenderer JsFacts HighlightProofs.

Section WithPlatform.
Context `{Platform}.

(** The markup around the result of the match loop: the span of a
    highlighted page, or nothing. *)
Definition pageWrap (o : HighlightOptions) (currentPage : nat)
    (pageNumber : option nat) (inner : string) : string :=
  if enableFullHighlight o
     && match pageNumber with
        | Some p => bool_decide (p ∈ highlightPageSet o currentPage)
        | None => false
        end
  then pageSpanOpen (highlightPageTextStyleString o) +:+ inner +:+ spanClose
  else inner.

(** The opening tag of the match spans of a fragment. *)
Definition matchTag (o : HighlightOptions) (activePage pageNumber : option nat)
    : string :=
  let isActivePage :=
    match pageNumber, activePage with
    | Some p, Some a => p =? a
    | _, _ => false
    end in
  matchSpanOpen (matchClassName o isActivePage) (matchStyle o isActivePage).

Lemma trimmed_query_length searchQuery :
  truthy (trim searchQuery) = true ->
  truthy (toLowerCase (trim searchQuery)) = true
  /\ 1 <= String.length (trim searchQuery).
Proof.
  intros Ht. split; [now apply toLowerCase_truthy|].
  apply truthy_length in Ht. lia.
Qed.

(** X26.  With a query in the search box, a fragment whose lower-cased
    text does not contain the lower-cased query gets no match span: its
    markup is its escaped text, inside the span of the page when the page
    is highlighted. *)
Theorem fragment_without_match_stays_plain (o : HighlightOptions)
    (searchQuery : string) (activePage : option nat) (currentPage : nat)
    (str : string) (pageNumber : option nat) :
  truthy str = true ->
  truthy (trim searchQuery) = true ->
  includes (toLowerCase (trim searchQuery)) (toLowerCase str) = false ->
  renderFragment o searchQuery activePage currentPage str pageNumber
  = Some (pageWrap o currentPage pageNumber (escapeHtml str)).
Proof.
  intros Hstr Hq Hnone. unfold renderFragment, pageWrap.
  rewrite Hstr, Hq. cbn [negb highlightLoop].
  unfold includes in Hnone.
  destruct (indexOf (toLowerCase (trim searchQuery)) (toLowerCase str) 0);
    [discriminate|].
  rewrite app_nil_l. reflexivity.
Qed.

(** X27.  A fragment whose lower-cased text contains the lower-cased query
    has its first occurrence wrapped in a match span: the markup is the
    escaped text before the occurrence, the span around the escaped text
    at the occurrence, in its original case and as long as the trimmed
    query, and then the markup of the rest of the fragment, which is again
    escaped text and match spans. *)
Theorem first_match_is_wrapped (o : HighlightOptions)
    (searchQuery : string) (activePage : option nat) (currentPage : nat)
    (str : string) (pageNumber : option nat) (found : nat) :
  truthy str = true ->
  truthy (trim searchQuery) = true ->
  indexOf (toLowerCase (trim searchQuery)) (toLowerCase str) 0 = Some found ->
  exists rest,
    renderFragment o searchQuery activePage currentPage str pageNumber
    = Some (pageWrap o currentPage pageNumber
              (escapeHtml (take found str)
               +:+ matchTag o activePage pageNumber
               +:+ escapeHtml (slice found (found + String.length (trim searchQuery)) str)
               +:+ spanClose +:+ rest))
    /\ escaped_tiling (matchTag o activePage pageNumber)
         (drop (found + String.length (trim searchQuery)) str) rest.
Proof.
  intros Hstr Hq Hfound.
  destruct (trimmed_query_length _ Hq) as [Hlower Hlen].
  destruct (indexOf_bounds _ _ _ _ Hlower Hfound) as [_ Hbound].
  destruct (highlightLoop_tiling (matchTag o activePage pageNumber) str
              (toLowerCase str) (toLowerCase (trim searchQuery))
              (String.length (trim searchQuery)) Hlower Hlen
              (String.length (toLowerCase str))
              (found + String.length (trim searchQuery))
              (EmptyString
               +:+ escapeHtml (slice 0 found str)
               +:+ matchTag o activePage pageNumber
               +:+ escapeHtml (slice found (found + String.length (trim searchQuery)) str)
               +:+ spanClose))
    as (rest & Hloop & Htiling); [lia | lia |].
  exists rest. split; [|exact Htiling].
  unfold renderFragment, pageWrap. rewrite Hstr, Hq. cbn [negb highlightLoop].
  rewrite Hfound. fold (matchTag o activePage pageNumber). rewrite Hloop.
  assert (Hslice : slice 0 found str = take found str)
    by (unfold slice; now rewrite Nat.sub_0_r).
  rewrite Hslice, !app_nil_l, !app_assoc. reflexivity.
Qed.

End WithPlatform.

Section Witnesses.
Import ReferencePlatform.

Lemma fragment_without_match_stays_plain_witness :
  renderFragment sampleOptions " ab " (Some 1) 2 "a<b" (Some 2)
  = Some (pageSpanOpen "background-color:#daf0f6" +:+ "a&lt;b" +:+ spanClose).
Proof.
  apply (fragment_without_match_stays_plain sampleOptions " ab " (Some 1) 2
           "a<b" (Some 2)); reflexivity.
Defined.

Lemma first_match_is_wrapped_witness :
  exists rest,
    renderFragment sampleOptions " ab " (Some 1) 2 "x<Ab>ab" (Some 3)
    = Some ("x&lt;"
            +:+ matchSpanOpen "document-viewer-search-hit" ""
            +:+ "Ab" +:+ spanClose +:+ rest)
    /\ escaped_tiling (matchSpanOpen "document-viewer-search-hit" "") ">ab" rest.
Proof.
  destruct (first_match_is_wrapped sampleOptions " ab " (Some 1) 2 "x<Ab>ab"
              (Some 3) 2) as (rest & Hrender & Hrest); [reflexivity ..|].
  exists rest. split; [exact Hrender | exact Hrest].
Defined.

End Witnesses.
End HighlightMore.

(** ** OCR renderer *)

Module OcrProofs.
Import PdfOcrRenderer.

(** The result pushed for a canvas carries the measures of that canvas. *)
Definition result_of (canvas : Canvas) (result : PageOcrResult) : Prop :=
  exists recognized, result = pageResult canvas recognized.

(** What holds of a run at every moment. *)
Record ocr_inv (r : OcrRun) : Prop := {
  ocr_results : Forall2 result_of (firstn (ocrIndex r) (canvases r)) (results r);
  ocr_index : ocrIndex r <= length (canvases r);
  ocr_awaiting : phase r = Recognizing ->
                 ocrIndex r < length (canvases r) /\ workerCreated r = true
                 /\ terminateCalls r = 0;
  ocr_before : phase r = TimerPending \/ phase r = TimerCleared
               \/ phase r = CreatingWorker ->
               workerCreated r = false /\ terminateCalls r = 0
               /\ recognizeCalls r = 0 /\ publishedResults r = None;
  ocr_ended : phase r = Ended ->
              terminateCalls r = (if workerCreated r then 1 else 0);
  ocr_published : forall rs, publishedResults r = Some rs ->
                  rs = results r /\ ocrIndex r = length (canvases r)
                  /\ phase r = Ended /\ workerCreated r = true
}.

Lemma ocrEffect_inv numPages found r :
  ocrEffect numPages found = Some r -> ocr_inv r /\ canvases r = found.
Proof.
  unfold ocrEffect. destruct numPages as [[|n]|]; try discriminate.
  destruct found as [|canvas found]; [discriminate|]. intros [= <-].
  split; [|reflexivity]. split; cbn; try discriminate; auto with lia.
Qed.

Lemma finish_inv r :
  Forall2 result_of (firstn (ocrIndex r) (canvases r)) (results r) ->
  ocrIndex r <= length (canvases r) ->
  workerCreated r = true -> terminateCalls r = 0 ->
  publishedResults r = None ->
  (cancelled r = false -> ocrIndex r = length (canvases r)) ->
  ocr_inv (finish r).
Proof.
  intros Hresults Hindex Hw Ht Hnone Hdone.
  split; cbn [finish canvases ocrIndex results phase workerCreated terminateCalls
              publishedResults recognizeCalls cancelled];
    try assumption; try discriminate.
  - intros [? | [? | ?]]; discriminate.
  - intros _. now rewrite Hw, Ht.
  - intros rs. destruct (cancelled r) eqn:Hc; [congruence|].
    intros [= <-]. auto.
Qed.

Lemma loopHead_inv r :
  Forall2 result_of (firstn (ocrIndex r) (canvases r)) (results r) ->
  ocrIndex r <= length (canvases r) ->
  workerCreated r = true -> terminateCalls r = 0 ->
  publishedResults r = None ->
  ocr_inv (loopHead r).
Proof.
  intros Hresults Hindex Hw Ht Hnone. unfold loopHead.
  destruct (ocrIndex r <? length (canvases r)) eqn:Hlt; cbn [andb].
  - destruct (cancelled r) eqn:Hc; cbn [negb].
    + apply finish_inv; auto. congruence.
    + apply Nat.ltb_lt in Hlt.
      split; cbn; try assumption; try discriminate; auto.
      * intros [? | [? | ?]]; discriminate.
      * intros rs Hrs. congruence.
  - apply Nat.ltb_ge in Hlt.
    apply finish_inv; auto. intros _. lia.
Qed.

Ltac cleanup_keeps Hinv Hphase :=
  split; cbn;
  first [ apply Hinv
        | discriminate
        | intros [? | [? | ?]]; discriminate
        | intros _; apply (ocr_before _ Hinv); rewrite Hphase; auto
        | intros _; apply (ocr_awaiting _ Hinv Hphase)
        | intros _; apply (ocr_ended _ Hinv Hphase)
        | let rs := fresh "rs" in
          let Hrs := fresh "Hrs" in
          intros rs Hrs;
          destruct (ocr_published _ Hinv rs Hrs) as (? & ? & ? & ?);
          first [congruence | auto] ].

Lemma ocrStep_inv r e : ocr_inv r -> ocr_inv (ocrStep r e).
Proof.
  intros Hinv. destruct e; cbn [ocrStep]; destruct (phase r) eqn:Hphase;
    try exact Hinv.
  - (* the timer fires *)
    destruct (ocr_before r Hinv (or_introl Hphase)) as (Hw & Ht & Hr & Hp).
    split; cbn; try apply Hinv; try discriminate; auto.
    intros rs Hrs. congruence.
  - (* the worker is there *)
    destruct (ocr_before r Hinv (or_intror (or_intror Hphase))) as (Hw & Ht & Hr & Hp).
    apply loopHead_inv; cbn; auto; apply Hinv.
  - (* no worker *)
    destruct (ocr_before r Hinv (or_intror (or_intror Hphase))) as (Hw & Ht & Hr & Hp).
    split; cbn; try apply Hinv; try discriminate.
    + intros [? | [? | ?]]; discriminate.
    + intros _. now rewrite Hw, Ht.
    + intros rs Hrs. congruence.
  - (* a page is recognised *)
    destruct (ocr_awaiting r Hinv Hphase) as (Hlt & Hw & Ht).
    assert (Hnone : publishedResults r = None).
    { destruct (publishedResults r) as [rs|] eqn:Hrs; [|reflexivity].
      destruct (ocr_published r Hinv rs Hrs) as (_ & _ & Hended & _). congruence. }
    destruct (cancelled r) eqn:Hcancelled.
    + apply finish_inv; auto; try apply Hinv. congruence.
    + destruct (canvases r !! ocrIndex r) as [canvas|] eqn:Hcanvas; [|exact Hinv].
      apply loopHead_inv; cbn; auto with lia.
      rewrite (take_S_r _ _ _ Hcanvas). apply Forall2_app; [apply Hinv|].
      constructor; [now exists recognized | constructor].
  - (* recognition fails *)
    destruct (ocr_awaiting r Hinv Hphase) as (Hlt & Hw & Ht).
    split; cbn; try apply Hinv; try discriminate.
    + intros [? | [? | ?]]; discriminate.
    + intros _. now rewrite Hw, Ht.
    + intros rs Hrs.
      destruct (ocr_published r Hinv rs Hrs) as (_ & _ & Hended & _). congruence.
  (* cleanup, in each phase *)
  - cleanup_keeps Hinv Hphase.
  - cleanup_keeps Hinv Hphase.
  - cleanup_keeps Hinv Hphase.
  - cleanup_keeps Hinv Hphase.
  - cleanup_keeps Hinv Hphase.
Qed.

Lemma ocrStep_canvases r e : canvases (ocrStep r e) = canvases r.
Proof.
  destruct e; cbn [ocrStep]; destruct (phase r); try reflexivity;
    unfold loopHead, finish, workerReady;
    repeat match goal with
           | |- context [if ?b then _ else _] => destruct b
           | |- context [match ?x with Some _ => _ | None => _ end] => destruct x
           end; reflexivity.
Qed.

Lemma ocr_run_inv events : forall r,
  ocr_inv r ->
  ocr_inv (fold_left ocrStep events r)
  /\ canvases (fold_left ocrStep events r) = canvases r.
Proof.
  induction events as [|e events IH]; intros r Hinv; [now split|].
  cbn [fold_left]. destruct (IH (ocrStep r e) (ocrStep_inv r e Hinv)) as [Hi Hc].
  split; [exact Hi|]. now rewrite Hc, ocrStep_canvases.
Qed.

(** X28.  A run of the OCR effect publishes its results only when every
    canvas has been recognised: the published list has one result per
    canvas, in the order of the canvases and with the measures of each.  The
    worker is terminated at most once, and exactly once when the run has
    ended after a worker was created. *)
Theorem ocr_results_cover_every_canvas (numPages : option nat)
    (found : list Canvas) (r : OcrRun) (events : list OcrEvent) :
  ocrEffect numPages found = Some r ->
  let r' := fold_left ocrStep events r in
  (forall rs, publishedResults r' = Some rs ->
              Forall2 result_of found rs /\ phase r' = Ended)
  /\ terminateCalls r' <= 1
  /\ (phase r' = Ended -> workerCreated r' = true -> terminateCalls r' = 1).
Proof.
  intros Hstart. cbv zeta.
  destruct (ocrEffect_inv _ _ _ Hstart) as [Hinv0 Hfound].
  destruct (ocr_run_inv events r Hinv0) as [Hinv Hcanvases].
  set (r' := fold_left ocrStep events r) in *.
  assert (Hcases : phase r' = Recognizing \/ phase r' = Ended
                   \/ (phase r' = TimerPending \/ phase r' = TimerCleared
                       \/ phase r' = CreatingWorker))
    by (destruct (phase r'); auto).
  split; [|split].
  - intros rs Hrs. destruct (ocr_published r' Hinv rs Hrs) as (-> & Hidx & Hended & _).
    split; [|exact Hended].
    pose proof (ocr_results r' Hinv) as Hres.
    rewrite Hidx, firstn_all, Hcanvases, Hfound in Hres. exact Hres.
  - destruct Hcases as [Hp | [Hp | Hp]].
    + destruct (ocr_awaiting r' Hinv Hp) as (_ & _ & ->). lia.
    + rewrite (ocr_ended r' Hinv Hp). destruct (workerCreated r'); lia.
    + destruct (ocr_before r' Hinv Hp) as (_ & -> & _). lia.
  - intros Hp Hw. now rewrite (ocr_ended r' Hinv Hp), Hw.
Qed.

Definition scannedPage : Canvas :=
  {| pixelWidth := 1588; pixelHeight := 2246; rectWidth := 794;
     rectHeight := 1123; offsetTop := 0 |}.

Definition scannedWord : OcrWord :=
  {| bbox := {| x0 := 100; y0 := 200; x1 := 300; y1 := 240 |};
     text := "Invoice" |}.

Definition scanRun : OcrRun :=
  {| canvases := [scannedPage]; ocrIndex := 0; results := []; cancelled := false;
     phase := TimerPending; publishedResults := None; publishedError := None;
     workerCreated := false; recognizeCalls := 0; terminateCalls := 0 |}.

Lemma ocr_results_cover_every_canvas_witness :
  ocrEffect (Some 1) [scannedPage] = Some scanRun
  /\ publishedResults
       (fold_left ocrStep [TimerFired; WorkerCreated; Recognized [scannedWord]] scanRun)
     = Some [pageResult scannedPage [scannedWord]]
  /\ terminateCalls
       (fold_left ocrStep [TimerFired; WorkerCreated; Recognized [scannedWord]] scanRun)
     <= 1.
Proof.
  split; [reflexivity|]. split; [reflexivity|].
  apply (ocr_results_cover_every_canvas (Some 1) [scannedPage] scanRun
           [TimerFired; WorkerCreated; Recognized [scannedWord]]).
  reflexivity.
Defined.

(** X29.  Once the cleanup of the effect has run, the run is silent: it
    publishes neither results nor an error and starts no further
    recognition, whatever settles afterwards.  A cleanup that precedes the
    timer leaves nothing to happen at all, and a cleanup during a
    recognition has the worker terminated as soon as the recognition
    settles. *)
Theorem cancelled_ocr_run_is_silent (r : OcrRun) (events : list OcrEvent) :
  let c := ocrStep r Cleanup in
  let later := fold_left ocrStep events c in
  cancelled later = true
  /\ publishedResults later = publishedResults r
  /\ publishedError later = publishedError r
  /\ recognizeCalls later = recognizeCalls r
  /\ (phase r = TimerPending -> later = c)
  /\ (phase r = Recognizing ->
      forall outcome,
        (exists recognized, outcome = Recognized recognized)
        \/ (exists message, outcome = RecognitionFailed message) ->
        phase (ocrStep c outcome) = Ended
        /\ terminateCalls (ocrStep c outcome) = S (terminateCalls r)).
Proof.
  cbv zeta.
  assert (Hquiet : forall evs x,
            cancelled x = true ->
            cancelled (fold_left ocrStep evs x) = true
            /\ publishedResults (fold_left ocrStep evs x) = publishedResults x
            /\ publishedError (fold_left ocrStep evs x) = publishedError x
            /\ recognizeCalls (fold_left ocrStep evs x) = recognizeCalls x).
  { induction evs as [|e evs IH]; intros x Hx; [now repeat split|].
    cbn [fold_left].
    assert (Hstep : cancelled (ocrStep x e) = true
                    /\ publishedResults (ocrStep x e) = publishedResults x
                    /\ publishedError (ocrStep x e) = publishedError x
                    /\ recognizeCalls (ocrStep x e) = recognizeCalls x).
    { destruct e; cbn [ocrStep]; destruct (phase x);
        unfold loopHead, finish, workerReady; cbn; rewrite ?Hx, ?andb_false_r; cbn;
        rewrite ?Hx; auto. }
    destruct Hstep as (Hc & Hp & He & Hr).
    destruct (IH _ Hc) as (Hc' & Hp' & He' & Hr').
    repeat split; congruence. }
  assert (Hc : cancelled (ocrStep r Cleanup) = true)
    by (cbn [ocrStep]; now destruct (phase r)).
  destruct (Hquiet events _ Hc) as (Hc' & Hp' & He' & Hr').
  split; [exact Hc'|].
  split; [rewrite Hp'; cbn [ocrStep]; now destruct (phase r)|].
  split; [rewrite He'; cbn [ocrStep]; now destruct (phase r)|].
  split; [rewrite Hr'; cbn [ocrStep]; now destruct (phase r)|].
  split.
  - intros Hphase.
    assert (Habsorb : forall evs x,
              phase x = TimerCleared -> cancelled x = true ->
              fold_left ocrStep evs x = x).
    { induction evs as [|e evs IH]; intros x Hx Hcx; [reflexivity|].
      cbn [fold_left].
      assert (Hstep : ocrStep x e = x).
      { destruct x; cbn in Hx, Hcx; subst. now destruct e. }
      rewrite Hstep. now apply IH. }
    apply Habsorb; [|exact Hc]. cbn [ocrStep]. now rewrite Hphase.
  - intros Hphase outcome [[recognized ->] | [message ->]];
      cbn [ocrStep]; rewrite Hphase; cbn; now split.
Qed.

(** The measures the overlay needs to scale a word: a canvas with pixels,
    shown with a non-negative size, and a box inside the canvas. *)
Definition on_canvas (page : PageOcrResult) (w : OcrWord) : Prop :=
  (0 < canvasWidth page /\ 0 < canvasHeight page
   /\ 0 <= displayWidth page /\ 0 <= displayHeight page
   /\ 0 <= x0 (bbox w) <= x1 (bbox w) /\ x1 (bbox w) <= canvasWidth page
   /\ 0 <= y0 (bbox w) <= y1 (bbox w) /\ y1 (bbox w) <= canvasHeight page)%Q.

(** X30.  The span laid over a recognised word lies within the layer of
    its page: a box inside the canvas is scaled to a box inside the
    displayed page, and its right and bottom edges are those of the word
    scaled by the display size over the canvas size. *)
Theorem ocr_word_stays_on_its_page (page : PageOcrResult) (w : OcrWord) :
  on_canvas page w ->
  (0 <= boxLeft (wordBox page w)
   /\ 0 <= boxWidth (wordBox page w)
   /\ boxLeft (wordBox page w) + boxWidth (wordBox page w) <= displayWidth page
   /\ 0 <= boxTop (wordBox page w)
   /\ 0 <= boxHeight (wordBox page w)
   /\ boxTop (wordBox page w) + boxHeight (wordBox page w) <= displayHeight page
   /\ boxLeft (wordBox page w) + boxWidth (wordBox page w)
      == x1 (bbox w) * displayWidth page / canvasWidth page
   /\ boxTop (wordBox page w) + boxHeight (wordBox page w)
      == y1 (bbox w) * displayHeight page / canvasHeight page)%Q.
Proof.
  unfold on_canvas, wordBox. cbn [boxLeft boxTop boxWidth boxHeight].
  intros (Hcw & Hch & Hdw & Hdh & [Hx0 Hx] & Hx1 & [Hy0 Hy] & Hy1).
  assert (Hscale : forall d c : Q, (0 < c -> 0 <= d -> 0 <= d / c)%Q).
  { intros d c Hc Hd. apply Qle_shift_div_l; [exact Hc | lra]. }
  assert (Hinside : forall a d c : Q,
            (0 < c -> 0 <= d -> 0 <= a <= c -> a * (d / c) <= d)%Q).
  { intros a d c Hc Hd [Ha0 Ha]. 
    assert (Heq : (a * (d / c) == d * (a / c))%Q) by (field; lra).
    rewrite Heq.
    assert (Hfrac : (a / c <= 1)%Q) by (apply Qle_shift_div_r; lra).
    assert (H0 : (0 <= a / c)%Q) by (apply Qle_shift_div_l; lra).
    nra. }
  pose proof (Hscale _ _ Hcw Hdw) as Hsx.
  pose proof (Hscale _ _ Hch Hdh) as Hsy.
  assert (Hright : (x0 (bbox w) * (displayWidth page / canvasWidth page)
                    + (x1 (bbox w) - x0 (bbox w)) * (displayWidth page / canvasWidth page)
                    == x1 (bbox w) * (displayWidth page / canvasWidth page))%Q) by ring.
  assert (Hbottom : (y0 (bbox w) * (displayHeight page / canvasHeight page)
                     + (y1 (bbox w) - y0 (bbox w)) * (displayHeight page / canvasHeight page)
                     == y1 (bbox w) * (displayHeight page / canvasHeight page))%Q) by ring.
  repeat split.
  - apply Qmult_le_0_compat; assumption.
  - apply Qmult_le_0_compat; [lra | assumption].
  - rewrite Hright. apply Hinside; [assumption | assumption | split; lra].
  - apply Qmult_le_0_compat; assumption.
  - apply Qmult_le_0_compat; [lra | assumption].
  - rewrite Hbottom. apply Hinside; [assumption | assumption | split; lra].
  - rewrite Hright. field. lra.
  - rewrite Hbottom. field. lra.
Qed.

Lemma ocr_word_stays_on_its_page_witness :
  (boxLeft (wordBox (pageResult scannedPage [scannedWord]) scannedWord) == 50
   /\ boxWidth (wordBox (pageResult scannedPage [scannedWord]) scannedWord) == 100
   /\ boxLeft (wordBox (pageResult scannedPage [scannedWord]) scannedWord)
      + boxWidth (wordBox (pageResult scannedPage [scannedWord]) scannedWord)
      <= 794)%Q.
Proof.
  split; [reflexivity|]. split; [reflexivity|].
  apply (ocr_word_stays_on_its_page (pageResult scannedPage [scannedWord]) scannedWord).
  unfold on_canvas. cbn. repeat split; lra.
Defined.

End OcrProofs.
